(** * Expense tracker: the persistence store and the offline cache worker

    A shallow embedding of [www/js/db.js] (class [ExpenseDB]), of the form
    and import handlers of [www/js/ui.js] and of the service worker's
    activate and fetch listeners, followed by the properties of the
    specification that were checked against them and by further properties
    of the code.

    Conventions of the embedding.
    - An IndexedDB object store with [keyPath: 'id'] is a finite map from the
      id to the remaining fields of the record; reading a record puts the id
      back, so a stored record always carries the key it is stored under.
    - Every operation is a function from the database state to the new state
      and the way its promise settles.  Failures of the underlying storage
      (aborted transactions, quota) are not modelled: the [onerror] branches
      that only forward [request.error] are taken for a failed [add] alone.
    - [Date.now()], [generateUUID()] and [generateMonthYearId()] are inputs
      of the operations that call them.
    - Amounts and totals are JavaScript numbers, that is IEEE 754 doubles:
      the primitive type [float], with its rounding addition, its
      infinities, its NaN and its two zeros.  Timestamps are integers.
    - A record read from a snapshot has the fields of its kind; a property
      of the snapshot that should hold the array of records can be any
      JavaScript value.
    - Strings are sequences of code units below 256. *)

From stdpp Require Import gmap strings list fin_maps sorting.
From Stdlib Require Import ZArith String Ascii Lia DecimalString HexadecimalString Sorted.
From Stdlib Require Import Floats.
From Stdlib Require OrdersEx.

Set Warnings "-inexact-float".

(** ** JavaScript building blocks *)

Module Js.

(** The errors the program raises or is handed.  In the words of the
    specification: NotFound is [ParentNotFound] or [EntryNotFound],
    DuplicateKey is [ConstraintError], Protected is [CannotDeleteDefault],
    InvalidFormat is [InvalidDataFormat]. *)
Inductive error : Set :=
| ConstraintError      (* DOMException of [store.add]: key or unique index taken *)
| ParentNotFound       (* new Error('Parent not found') *)
| EntryNotFound        (* new Error('Entry not found') *)
| CannotDeleteDefault  (* new Error('Cannot delete default category') *)
| InvalidDataFormat    (* new Error('Invalid data format') *)
| TypeError            (* iterating [undefined] *)
| NetworkError         (* a rejected [fetch] *)
| DataError            (* DOMException of [store.add]: the value has no key *)
| SyntaxError.         (* [JSON.parse] of a text that is not JSON *)

(** How a promise ends up: fulfilled with a value, rejected with an error,
    or never settled. *)
Inductive promise (A : Type) : Type :=
| Resolved (v : A)
| Rejected (e : error)
| Pending.
Arguments Resolved {A} v.
Arguments Rejected {A} e.
Arguments Pending {A}.

(** [await p] in the body of an [async] function: a rejection of [p]
    rejects the function's own promise. *)
Definition await {S A B : Type} (r : S * promise A)
    (k : A → S → S * promise B) : S * promise B :=
  match r with
  | (s, Resolved v) => k v s
  | (s, Rejected e) => (s, Rejected e)
  | (s, Pending) => (s, Pending)
  end.

(** The pattern
    [new Promise((resolve, reject) => { req.onsuccess = async () => { await p; resolve(v) } })]:
    the event handler is an [async] arrow whose own promise nobody
    observes.  When [p] is fulfilled the handler goes on to call [resolve];
    when [p] is rejected the handler's promise is rejected, and neither
    [resolve] nor [reject] of the enclosing promise is ever called. *)
Definition await_in_handler {S A B : Type} (r : S * promise A)
    (k : A → S → S * promise B) : S * promise B :=
  match r with
  | (s, Resolved v) => k v s
  | (s, Rejected _) => (s, Pending)
  | (s, Pending) => (s, Pending)
  end.

(** [p.then(k)]: [k] runs on the value of a fulfilled [p]; a rejection
    passes through. *)
Definition and_then {S A B : Type} (r : S * promise A)
    (k : A → S → S * promise B) : S * promise B :=
  await r k.

(** [p.catch(h)]: [h] runs on a rejection of [p], and what [h] returns
    settles the result. *)
Definition catch {S A : Type} (r : S * promise A)
    (h : error → S → S * promise A) : S * promise A :=
  match r with
  | (s, Rejected e) => h e s
  | (s, Resolved v) => (s, Resolved v)
  | (s, Pending) => (s, Pending)
  end.

(** [for (const x of xs) { await body(x) }] inside an [async] function. *)
Fixpoint for_of {S A : Type} (xs : list A) (body : A → S → S * promise unit)
    (s : S) : S * promise unit :=
  match xs with
  | [] => (s, Resolved tt)
  | x :: xs' => await (body x s) (λ _, for_of xs' body)
  end.

(** [Array.prototype.sort(cmp)]: stable; [a] goes before [b] when
    [cmp a b < 0], and elements that compare equal keep their order. *)
Fixpoint sort_insert {A : Type} (cmp : A → A → Z) (x : A) (l : list A) : list A :=
  match l with
  | [] => [x]
  | y :: l' => if (0 <? cmp x y)%Z then y :: sort_insert cmp x l' else x :: l
  end.

Definition sort {A : Type} (cmp : A → A → Z) (l : list A) : list A :=
  foldr (sort_insert cmp) [] l.

(** The value of a property that is meant to hold an array, as far as a
    condition and a [for ... of] loop tell values apart. *)
Inductive property (A : Type) : Type :=
| Missing            (* [undefined], [null], [false] or [0]: falsy, not iterable *)
| NotIterable        (* an object, [true], a number other than 0: truthy, not iterable *)
| Text (s : string)  (* a string: falsy when empty, iterated unit by unit *)
| Array (l : list A).
Arguments Missing {A}.
Arguments NotIterable {A}.
Arguments Text {A} s.
Arguments Array {A} l.

(** The value as a condition: [if (x)], [!x]. *)
Definition to_boolean {A : Type} (x : property A) : bool :=
  match x with
  | Missing => false
  | NotIterable => true
  | Text s => negb (String.eqb s "")
  | Array _ => true
  end.

(** A number as a condition: 0, -0 and NaN are falsy. *)
Definition number_to_boolean (x : float) : bool :=
  negb (PrimFloat.is_nan x || PrimFloat.eqb x 0).

(** [parseFloat(x)] of a number [x]: the number is written out and read
    again, which gives the number back, but for -0, which is written as
    "0". *)
Definition parseFloat (x : float) : float :=
  if PrimFloat.eqb x 0 then 0%float else x.

(** [Array.prototype.reduce(f, init)]. *)
Definition reduce {A B : Type} (f : B → A → B) (init : B) (l : list A) : B :=
  fold_left f l init.

(** [String.prototype.toLowerCase] on code units below 256: the letters
    A-Z and the capital letters of Latin-1 (U+00C0 to U+00DE, without the
    multiplication sign U+00D7) move up by 32. *)
Definition lower (c : ascii) : ascii :=
  let n := nat_of_ascii c in
  if ((65 <=? n) && (n <=? 90)) || ((192 <=? n) && (n <=? 222) && negb (n =? 215))
  then ascii_of_nat (n + 32) else c.

Fixpoint toLowerCase (s : string) : string :=
  match s with
  | EmptyString => EmptyString
  | String c s' => String (lower c) (toLowerCase s')
  end.

(** The class [\s] of a regular expression, below 256: tab, line feed,
    vertical tab, form feed, carriage return, space, no-break space. *)
Definition isSpace (c : ascii) : bool :=
  let n := nat_of_ascii c in
  ((9 <=? n) && (n <=? 13)) || (n =? 32) || (n =? 160).

(** [s.replace(/\s+/g, '-')]: every maximal run of white space becomes one
    hyphen.  [in_run] tells that the previous code unit was white space. *)
Fixpoint replace_spaces (in_run : bool) (s : string) : string :=
  match s with
  | EmptyString => EmptyString
  | String c s' =>
      if isSpace c
      then (if in_run then replace_spaces true s'
            else String "-" (replace_spaces true s'))
      else String c (replace_spaces false s')
  end.

(** Order of two strings by code units, as a comparator for [sort]; this
    is also the order of IndexedDB's string keys. *)
Definition compare_strings (a b : string) : Z :=
  match String.compare a b with
  | Lt => (-1)%Z
  | Eq => 0%Z
  | Gt => 1%Z
  end.

(** [String(n)] of an integer. *)
Definition toString10 (n : Z) : string :=
  DecimalString.NilZero.string_of_int (Z.to_int n).

(** [n.toString(16)] of an integer. *)
Definition toString16 (n : Z) : string :=
  HexadecimalString.NilZero.string_of_int (Z.to_hex_int n).

(** [c.repeat(n)] for a single code unit. *)
Fixpoint repeat_unit (c : ascii) (n : nat) : string :=
  match n with
  | O => EmptyString
  | S n' => String c (repeat_unit c n')
  end.

(** [s.padStart(target, c)] for a single code unit [c]. *)
Definition padStart (target : nat) (c : ascii) (s : string) : string :=
  (repeat_unit c (target - String.length s) ++ s)%string.

(** [s.replace(/[xy]/g, f)] with a callback: the code units [x] and [y]
    are replaced, from left to right, by what [f] returns for them; [i]
    counts the calls of [f] made so far. *)
Fixpoint replace_xy (f : nat → ascii → string) (i : nat) (s : string) : string :=
  match s with
  | EmptyString => EmptyString
  | String c s' =>
      if Ascii.eqb c "x" || Ascii.eqb c "y"
      then (f i c ++ replace_xy f (S i) s')%string
      else String c (replace_xy f i s')
  end.

(** [s.trim()], for code units below 256: white space is dropped at both
    ends. *)
Fixpoint trimStart (s : string) : string :=
  match s with
  | EmptyString => EmptyString
  | String c s' => if isSpace c then trimStart s' else s
  end.

Fixpoint trimEnd (s : string) : string :=
  match s with
  | EmptyString => EmptyString
  | String c s' =>
      match trimEnd s' with
      | EmptyString => if isSpace c then EmptyString else String c EmptyString
      | rest => String c rest
      end
  end.

Definition trim (s : string) : string := trimEnd (trimStart s).

End Js.

(** ** IndexedDB object stores keyed by a field of the record *)

Module IDB.

(** A record type [A] stored under its [keyPath] field; [B] holds the
    other fields. *)
Class KeyPath (A B : Type) := {
  key : A → string;
  fields : A → B;
  record : string → B → A;
  key_record : ∀ k b, key (record k b) = k;
  fields_record : ∀ k b, fields (record k b) = b;
  record_eta : ∀ a, record (key a) (fields a) = a
}.

Section ObjectStore.
Context {A B : Type} `{!KeyPath A B}.

(** [store.get(k)]: the record, or [undefined]. *)
Definition get (k : string) (m : gmap string B) : option A :=
  record k <$> m !! k.

(** [store.put(r)]: insert or overwrite under the record's key. *)
Definition put (r : A) (m : gmap string B) : gmap string B :=
  <[key r := fields r]> m.

(** [store.add(r)]: insert; a ConstraintError ([None]) when the key is
    taken, and then nothing is written. *)
Definition add (r : A) (m : gmap string B) : option (gmap string B) :=
  match m !! key r with
  | Some _ => None
  | None => Some (put r m)
  end.

(** [store.getAll()]: every record, in ascending order of the keys. *)
Definition getAll (m : gmap string B) : list A :=
  (λ kb, record kb.1 kb.2)
    <$> Js.sort (λ x y, Js.compare_strings x.1 y.1) (map_to_list m).

(** [store.index(f).getAll(v)]: the records whose indexed field is [v],
    ordered by primary key. *)
Definition index_getAll (f : A → string) (v : string) (m : gmap string B) : list A :=
  filter (λ r, f r = v) (getAll m).
End ObjectStore.

End IDB.


(** ** The three kinds of record *)

(** A month/year group, the record of the [parents] store. *)
Module Parent.

Record t : Type := mk {
  id : string;
  name : string;
  createdAt : Z;
  totalExpenses : float
}.

Definition row : Type := string * Z * float.

(** [parent.totalExpenses = total] *)
Definition set_totalExpenses (total : float) (p : t) : t :=
  {| id := id p; name := name p; createdAt := createdAt p; totalExpenses := total |}.

#[global] Instance keyPath : IDB.KeyPath t row := {|
  IDB.key := id;
  IDB.fields := λ p, (name p, createdAt p, totalExpenses p);
  IDB.record := λ k '(n, c, x), mk k n c x;
  IDB.key_record := λ k '(n, c, x), eq_refl;
  IDB.fields_record := λ k '(n, c, x), eq_refl;
  IDB.record_eta := λ '(mk _ _ _ _), eq_refl
|}.

End Parent.

(** One expense, the record of the [entries] store. *)
Module Entry.

Record t : Type := mk {
  id : string;
  parentId : string;
  description : string;
  amount : float;
  category : string;
  date : Z;
  createdAt : Z
}.

Definition row : Type := string * string * float * string * Z * Z.

#[global] Instance keyPath : IDB.KeyPath t row := {|
  IDB.key := id;
  IDB.fields := λ e, (parentId e, description e, amount e, category e, date e, createdAt e);
  IDB.record := λ k '(p, d, a, c, t, x), mk k p d a c t x;
  IDB.key_record := λ k '(p, d, a, c, t, x), eq_refl;
  IDB.fields_record := λ k '(p, d, a, c, t, x), eq_refl;
  IDB.record_eta := λ '(mk _ _ _ _ _ _ _), eq_refl
|}.

End Entry.

(** The [updates] argument of [updateEntry]: any subset of the properties
    of an entry; [None] is a property the object does not have. *)
Module Updates.

Record t : Type := mk {
  id : option string;
  parentId : option string;
  description : option string;
  amount : option float;
  category : option string;
  date : option Z;
  createdAt : option Z
}.

(** The object the form passes: [{ description, amount, category, date }]. *)
Definition of_form (description : string) (amount : float) (category : string) (date : Z)
    : t :=
  mk None None (Some description) (Some amount) (Some category) (Some date) None.

End Updates.

(** A category, the record of the [categories] store. *)
Module Category.

Record t : Type := mk {
  id : string;
  name : string;
  isDefault : bool;
  createdAt : Z
}.

Definition row : Type := string * bool * Z.

#[global] Instance keyPath : IDB.KeyPath t row := {|
  IDB.key := id;
  IDB.fields := λ c, (name c, isDefault c, createdAt c);
  IDB.record := λ k '(n, d, x), mk k n d x;
  IDB.key_record := λ k '(n, d, x), eq_refl;
  IDB.fields_record := λ k '(n, d, x), eq_refl;
  IDB.record_eta := λ '(mk _ _ _ _), eq_refl
|}.

End Category.

(** The object written by [exportData] and read by [importData], which
    after [JSON.parse] can hold anything in its properties. *)
Module Snapshot.

Record t : Type := mk {
  parents : Js.property Parent.t;
  entries : Js.property Entry.t;
  categories : Js.property Category.t;
  exportDate : option string;
  version : option Z
}.

(** The empty object. *)
Definition empty : t := mk Js.Missing Js.Missing Js.Missing None None.

End Snapshot.

(** ** [class ExpenseDB] of db.js *)

Module ExpenseDB.
Import Js.

(** The database: the object stores [parents], [entries], [categories]. *)
Record t : Type := mk {
  parents : gmap string Parent.row;
  entries : gmap string Entry.row;
  categories : gmap string Category.row
}.

Definition set_parents (m : gmap string Parent.row) (s : t) : t :=
  mk m (entries s) (categories s).

Definition set_entries (m : gmap string Entry.row) (s : t) : t :=
  mk (parents s) m (categories s).

Definition set_categories (m : gmap string Category.row) (s : t) : t :=
  mk (parents s) (entries s) m.

(** A database as [onupgradeneeded] creates it. *)
Definition empty : t := mk ∅ ∅ ∅.

(** [this.version] *)
Definition version : Z := 2.

(** *** Parent operations *)

(** [createParent(name, monthYear = null)]; [generated] is the result of
    [generateMonthYearId()], used when [monthYear] is null or empty. *)
Definition createParent (generated : string) (now : Z)
    (name : string) (monthYear : option string) (s : t) : t * promise Parent.t :=
  let parent := {|
    Parent.id := match monthYear with
                 | Some m => if String.eqb m "" then generated else m
                 | None => generated
                 end;
    Parent.name := name;
    Parent.createdAt := now;
    Parent.totalExpenses := 0 |} in
  match IDB.add parent (parents s) with
  | Some m => (set_parents m s, Resolved parent)
  | None => (s, Rejected ConstraintError)
  end.

(** [getAllParents()]: newest first. *)
Definition getAllParents (s : t) : list Parent.t :=
  Js.sort (λ a b, Parent.createdAt b - Parent.createdAt a)%Z (IDB.getAll (parents s)).

(** [getParent(id)] *)
Definition getParent (id : string) (s : t) : option Parent.t :=
  IDB.get id (parents s).

(** [getEntriesByParent(parentId)]: through the [parentId] index, latest
    date first. *)
Definition getEntriesByParent (parentId : string) (s : t) : list Entry.t :=
  Js.sort (λ a b, Entry.date b - Entry.date a)%Z
    (IDB.index_getAll Entry.parentId parentId (entries s)).

(** [getEntry(id)] *)
Definition getEntry (id : string) (s : t) : option Entry.t :=
  IDB.get id (entries s).

(** [updateParentTotal(parentId)]: sum the entries of the group again and
    store the sum on the group. *)
Definition updateParentTotal (parentId : string) (s : t) : t * promise Parent.t :=
  let entries := getEntriesByParent parentId s in
  let total := Js.reduce (λ sum entry, sum + Entry.amount entry)%float 0%float entries in
  match IDB.get parentId (parents s) with
  | Some parent =>
      let parent := Parent.set_totalExpenses total parent in
      (set_parents (IDB.put parent (parents s)) s, Resolved parent)
  | None => (s, Rejected ParentNotFound)
  end.

(** *** Entry operations *)

(** [createEntry(parentId, description, amount, category = '', date = null)];
    [uuid] is the result of [generateUUID()], [now] and [now'] the two
    readings of [Date.now()].  A [date] of 0 is falsy. *)
Definition createEntry (uuid : string) (now now' : Z)
    (parentId description : string) (amount : float) (category : string)
    (date : option Z) (s : t) : t * promise Entry.t :=
  let entry := {|
    Entry.id := uuid;
    Entry.parentId := parentId;
    Entry.description := description;
    Entry.amount := parseFloat amount;
    Entry.category := category;
    Entry.date := match date with
                  | Some d => if (d =? 0)%Z then now else d
                  | None => now
                  end;
    Entry.createdAt := now' |} in
  match IDB.add entry (entries s) with
  | Some m =>
      await_in_handler (updateParentTotal parentId (set_entries m s))
        (λ _ s', (s', Resolved entry))
  | None => (s, Rejected ConstraintError)
  end.

(** [Object.assign(entry, updates)] *)
Definition assign (entry : Entry.t) (updates : Updates.t) : Entry.t := {|
  Entry.id := default (Entry.id entry) (Updates.id updates);
  Entry.parentId := default (Entry.parentId entry) (Updates.parentId updates);
  Entry.description := default (Entry.description entry) (Updates.description updates);
  Entry.amount := default (Entry.amount entry) (Updates.amount updates);
  Entry.category := default (Entry.category entry) (Updates.category updates);
  Entry.date := default (Entry.date entry) (Updates.date updates);
  Entry.createdAt := default (Entry.createdAt entry) (Updates.createdAt updates)
|}.

(** [entry.amount = parseFloat(updates.amount)] *)
Definition set_amount (amount : float) (e : Entry.t) : Entry.t :=
  Entry.mk (Entry.id e) (Entry.parentId e) (Entry.description e) amount
    (Entry.category e) (Entry.date e) (Entry.createdAt e).

(** [updateEntry(id, updates)] *)
Definition updateEntry (id : string) (updates : Updates.t) (s : t) : t * promise Entry.t :=
  match IDB.get id (entries s) with
  | Some entry =>
      let entry := assign entry updates in
      let entry := match Updates.amount updates with
                   | Some a => set_amount (parseFloat a) entry
                   | None => entry
                   end in
      await_in_handler
        (updateParentTotal (Entry.parentId entry) (set_entries (IDB.put entry (entries s)) s))
        (λ _ s', (s', Resolved entry))
  | None => (s, Rejected EntryNotFound)
  end.

(** [deleteEntry(id, updateTotal = true)] *)
Definition deleteEntry (id : string) (updateTotal : bool) (s : t) : t * promise unit :=
  match IDB.get id (entries s) with
  | Some entry =>
      let s1 := set_entries (delete id (entries s)) s in
      if updateTotal
      then await_in_handler (updateParentTotal (Entry.parentId entry) s1)
             (λ _ s', (s', Resolved tt))
      else (s1, Resolved tt)
  | None => (s, Resolved tt)
  end.

(** [deleteParent(id)]: the entries of the group first, then the group. *)
Definition deleteParent (id : string) (s : t) : t * promise unit :=
  let entries := getEntriesByParent id s in
  await (for_of entries (λ entry, deleteEntry (Entry.id entry) false) s)
    (λ _ s', (set_parents (delete id (parents s')) s', Resolved tt)).

(** [{ ...original, id: uuid, createdAt: now }] *)
Definition copy_of (original : Entry.t) (uuid : string) (now : Z) : Entry.t :=
  Entry.mk uuid (Entry.parentId original) (Entry.description original)
    (Entry.amount original) (Entry.category original) (Entry.date original) now.

(** [duplicateEntry(id)] *)
Definition duplicateEntry (uuid : string) (now : Z) (id : string) (s : t)
    : t * promise Entry.t :=
  match getEntry id s with
  | None => (s, Rejected EntryNotFound)
  | Some original =>
      let duplicate := copy_of original uuid now in
      match IDB.add duplicate (entries s) with
      | Some m =>
          await_in_handler
            (updateParentTotal (Entry.parentId duplicate) (set_entries m s))
            (λ _ s', (s', Resolved duplicate))
      | None => (s, Rejected ConstraintError)
      end
  end.

(** *** Category operations *)

(** [getCategories()]: by name, in the order of [localeCompare], which the
    platform provides. *)
Definition getCategories (localeCompare : string → string → Z) (s : t) : list Category.t :=
  Js.sort (λ a b, localeCompare (Category.name a) (Category.name b))
    (IDB.getAll (categories s)).

(** [store.add(category)] on the [categories] store, whose [name] index is
    unique: a ConstraintError when the id or the name is taken. *)
Definition add_category (category : Category.t) (m : gmap string Category.row)
    : option (gmap string Category.row) :=
  if existsb (λ c, String.eqb (Category.name c) (Category.name category)) (IDB.getAll m)
  then None
  else IDB.add category m.

(** [name.toLowerCase().replace(/\s+/g, '-')] *)
Definition category_id (name : string) : string :=
  replace_spaces false (toLowerCase name).

(** [createCategory(name, isDefault = false)] *)
Definition createCategory (now : Z) (name : string) (isDefault : bool) (s : t)
    : t * promise Category.t :=
  let category := {|
    Category.id := category_id name;
    Category.name := name;
    Category.isDefault := isDefault;
    Category.createdAt := now |} in
  match add_category category (categories s) with
  | Some m => (set_categories m s, Resolved category)
  | None => (s, Rejected ConstraintError)
  end.

(** The names [seedDefaultCategories] adds. *)
Definition defaultCategories : list string :=
  ["Food"; "Transport"; "Shopping"; "Bills & Utilities"; "Entertainment";
   "Health & Medical"; "Education"; "Groceries"; "Others"]%string.

(** [seedDefaultCategories()]: a category that cannot be created is
    skipped.  [now i] is the reading of [Date.now()] in turn [i] of the
    loop. *)
Definition seedDefaultCategories (now : nat → Z) (s : t) : t * promise unit :=
  for_of (imap (λ i name, (i, name)) defaultCategories)
    (λ '(i, name) s',
       catch (and_then (createCategory (now i) name true s') (λ _ s'', (s'', Resolved tt)))
         (λ _ s'', (s'', Resolved tt)))
    s.

(** [init()], once the database is open: seed when there is no category. *)
Definition init (localeCompare : string → string → Z) (now : nat → Z) (s : t)
    : t * promise unit :=
  let categories := getCategories localeCompare s in
  if (List.length categories =? 0)%nat then seedDefaultCategories now s
  else (s, Resolved tt).

(** [deleteCategory(id)] *)
Definition deleteCategory (id : string) (s : t) : t * promise unit :=
  match IDB.get id (categories s) with
  | Some category =>
      if negb (Category.isDefault category)
      then (set_categories (delete id (categories s)) s, Resolved tt)
      else (s, Rejected CannotDeleteDefault)
  | None => (s, Rejected CannotDeleteDefault)
  end.

(** *** Export and import *)

(** [exportData()]; [exportDate] is [new Date().toISOString()]. *)
Definition exportData (localeCompare : string → string → Z) (exportDate : string)
    (s : t) : Snapshot.t :=
  let parents := getAllParents s in
  let categories := getCategories localeCompare s in
  let allEntries := List.concat ((λ parent, getEntriesByParent (Parent.id parent) s) <$> parents) in
  {| Snapshot.parents := Array parents;
     Snapshot.entries := Array allEntries;
     Snapshot.categories := Array categories;
     Snapshot.exportDate := Some exportDate;
     Snapshot.version := Some version |}.

(** [clearAllData()]: empties [parents] and [entries]. *)
Definition clearAllData (s : t) : t * promise unit :=
  (mk ∅ ∅ (categories s), Resolved tt).

(** The bodies of the three loops of [importData]. *)
Definition import_category (category : Category.t) (s : t) : t * promise unit :=
  match add_category category (categories s) with
  | Some m => (set_categories m s, Resolved tt)
  | None => (s, Resolved tt)
  end.

Definition import_parent (parent : Parent.t) (s : t) : t * promise unit :=
  match IDB.add parent (parents s) with
  | Some m => (set_parents m s, Resolved tt)
  | None => (s, Rejected ConstraintError)
  end.

Definition import_entry (entry : Entry.t) (s : t) : t * promise unit :=
  match IDB.add entry (entries s) with
  | Some m => (set_entries m s, Resolved tt)
  | None => (s, Rejected ConstraintError)
  end.

(** The loop over [data.categories] runs when the property is truthy, and
    what [store.add] throws in its body is caught there: the code units of
    a string are values without a key, for which it throws a DataError.
    Iterating a truthy value that is not iterable throws a TypeError. *)
Definition import_categories (categories : property Category.t) (s : t)
    : t * promise unit :=
  match categories with
  | Array categories => for_of categories import_category s
  | Text _ => (s, Resolved tt)
  | NotIterable => (s, Rejected TypeError)
  | Missing => (s, Resolved tt)
  end.

(** The loops over [data.parents] and [data.entries] always run, and what
    [store.add] throws in them is not caught. *)
Definition import_parents (parents : property Parent.t) (s : t) : t * promise unit :=
  match parents with
  | Array parents => for_of parents import_parent s
  | Text EmptyString => (s, Resolved tt)
  | Text (String _ _) => (s, Rejected DataError)
  | NotIterable | Missing => (s, Rejected TypeError)
  end.

Definition import_entries (entries : property Entry.t) (s : t) : t * promise unit :=
  match entries with
  | Array entries => for_of entries import_entry s
  | Text EmptyString => (s, Resolved tt)
  | Text (String _ _) => (s, Rejected DataError)
  | NotIterable | Missing => (s, Rejected TypeError)
  end.

(** [importData(data)]: clears first, then the categories, the groups and
    the entries. *)
Definition importData (data : Snapshot.t) (s : t) : t * promise unit :=
  await (clearAllData s) (λ _ s1,
  await (import_categories (Snapshot.categories data) s1) (λ _ s2,
  await (import_parents (Snapshot.parents data) s2) (λ _ s3,
  import_entries (Snapshot.entries data) s3))).

(** *** Generated ids *)

(** [generateMonthYearId()]; [year] is [now.getFullYear()] and [month] is
    [now.getMonth()], which counts from 0. *)
Definition generateMonthYearId (year month : Z) : string :=
  (toString10 year ++ "-" ++ padStart 2 "0" (toString10 (month + 1)))%string.

(** [generateUUID()]; [random i] is the value of [Math.random() * 16 | 0]
    in the call of the callback for the match number [i]. *)
Definition generateUUID (random : nat → Z) : string :=
  replace_xy
    (λ i c,
       let r := random i in
       let v := if Ascii.eqb c "x" then r else Z.lor (Z.land r 3) 8 in
       toString16 v)
    0 "xxxxxxxx-xxxx-4xxx-yxxx-xxxxxxxxxxxx".

End ExpenseDB.

(** ** The import handler of ui.js *)

Module UI.
Import Js.

(** The body of the [try] block of [importData], after [JSON.parse] gave
    an object:
    [if (!data.parents || !data.entries) throw new Error('Invalid data format');
     await db.importData(data);] *)
Definition importData (data : Snapshot.t) (s : ExpenseDB.t) : ExpenseDB.t * promise unit :=
  if negb (to_boolean (Snapshot.parents data)) || negb (to_boolean (Snapshot.entries data))
  then (s, Rejected InvalidDataFormat)
  else ExpenseDB.importData data s.





(** The handlers of the three forms, as far as the database goes: what
    they read from the page is an argument, and the toasts, the modals and
    the rendering that follows, which only reads the database, are left
    out.  Each handler catches what the database call rejects with. *)

(** A string or [null] used as a condition. *)
Definition truthy (x : option string) : option string :=
  match x with
  | Some v => if String.eqb v "" then None else Some v
  | None => None
  end.

(** [submitEntry(event)]; [editingEntryId] and [currentGroupId] are the
    fields of the UI object, [amount] is [parseFloat] of the amount field,
    a number or NaN, and [date] the time of the date field. *)
Definition submitEntry (editingEntryId : option string) (currentGroupId : string)
    (uuid : string) (now now' : Z)
    (description_value : string) (amount : float) (category : string) (date : Z)
    (s : ExpenseDB.t) : ExpenseDB.t * promise unit :=
  let description := trim description_value in
  if String.eqb description "" || negb (number_to_boolean amount)
     || PrimFloat.leb amount 0
  then (s, Resolved tt)
  else
    catch
      (match truthy editingEntryId with
       | Some id =>
           await (ExpenseDB.updateEntry id
                    (Updates.of_form description amount category date) s)
             (λ _ s', (s', Resolved tt))
       | None =>
           await (ExpenseDB.createEntry uuid now now' currentGroupId description
                    amount category (Some date) s)
             (λ _ s', (s', Resolved tt))
       end)
      (λ _ s', (s', Resolved tt)).

(** [submitParent(event)]; [generated] is what [generateMonthYearId()]
    would return. *)
Definition submitParent (generated : string) (now : Z)
    (name_value monthYear : string) (s : ExpenseDB.t) : ExpenseDB.t * promise unit :=
  let name := trim name_value in
  if String.eqb name "" || String.eqb monthYear ""
  then (s, Resolved tt)
  else
    catch
      (await (ExpenseDB.createParent generated now name (Some monthYear) s)
         (λ _ s', (s', Resolved tt)))
      (λ _ s', (s', Resolved tt)).

(** [submitCategory(event)] *)
Definition submitCategory (now : Z) (name_value : string) (s : ExpenseDB.t)
    : ExpenseDB.t * promise unit :=
  let name := trim name_value in
  if String.eqb name ""
  then (s, Resolved tt)
  else
    catch
      (await (ExpenseDB.createCategory now name false s) (λ _ s', (s', Resolved tt)))
      (λ _ s', (s', Resolved tt)).

End UI.

(** ** The fetch listener of the service worker *)

Module ServiceWorker.
Import Js.

(** A response, as far as the worker looks at it. *)
Record Response : Type := mkResponse {
  status : Z;
  body : string
}.

Definition CACHE_NAME : string := "expense-tracker-v1".

(** [caches]: the named caches in the order of their creation; a cache maps
    the URL of a request to the response stored for it. *)
Definition CacheStorage : Type := list (string * gmap string Response).

(** [caches.match(request)]: the first cache that holds the request
    answers; [None] is [undefined]. *)
Fixpoint caches_match (request : string) (caches : CacheStorage) : option Response :=
  match caches with
  | [] => None
  | (_, cache) :: rest =>
      match cache !! request with
      | Some response => Some response
      | None => caches_match request rest
      end
  end.

(** [caches.open(name).then((cache) => cache.put(request, response))];
    opening a cache that does not exist creates it. *)
Fixpoint open_and_put (name request : string) (response : Response)
    (caches : CacheStorage) : CacheStorage :=
  match caches with
  | [] => [(name, {[request := response]})]
  | (n, cache) :: rest =>
      if String.eqb n name
      then (n, <[request := response]> cache) :: rest
      else (n, cache) :: open_and_put name request response rest
  end.

(** The promise handed to [event.respondWith]; [fetch] is the network.
    [Resolved None] is a promise fulfilled with [undefined]. *)
Definition fetch_listener (fetch : string → promise Response) (request : string)
    (caches : CacheStorage) : CacheStorage * promise (option Response) :=
  catch
    (and_then (caches, Resolved (caches_match request caches)) (λ response s,
       match response with
       | Some cached => (s, Resolved (Some cached))
       | None =>
           and_then (s, fetch request) (λ fetchResponse s',
             let s'' := if (status fetchResponse =? 200)%Z
                        then open_and_put CACHE_NAME request fetchResponse s'
                        else s' in
             (s'', Resolved (Some fetchResponse)))
       end))
    (λ _ s, (s, Resolved None)).

(** The promise of the [activate] listener: every cache whose name is not
    [CACHE_NAME] is deleted ([caches.keys()], then [caches.delete] for
    each such name); [self.clients.claim()] does not touch the caches. *)
Definition activate (caches : CacheStorage) : CacheStorage * promise unit :=
  (filter (λ named, named.1 = CACHE_NAME) caches, Resolved tt).

End ServiceWorker.

(** ** Notions of the specification *)

Module Spec.

(** The number a double stands for, as a whole number of units of
    2^-1074, the least positive double: every finite double is such a
    multiple.  Infinities and NaN stand for no number. *)
Definition units (x : float) : option Z :=
  match Prim2SF x with
  | S754_zero _ => Some 0%Z
  | S754_finite negative m e =>
      Some ((if negative then Z.neg m else Z.pos m) * 2 ^ (e + 1074))%Z
  | S754_infinity _ | S754_nan => None
  end.

(** A sum with one more term; there is no sum once a term is no number. *)
Definition plus (total term : option Z) : option Z :=
  match total, term with
  | Some a, Some b => Some (a + b)%Z
  | _, _ => None
  end.

(** The exact sum of [amount] over the stored entries whose [parentId] is
    the given id, in the units of [units]. *)
Definition sum_of_amounts (parentId : string) (s : ExpenseDB.t) : option Z :=
  map_fold
    (λ id row total,
       let entry : Entry.t := IDB.record id row in
       if decide (Entry.parentId entry = parentId)
       then plus total (units (Entry.amount entry)) else total)
    (Some 0%Z) (ExpenseDB.entries s).

(** Every stored group carries the exact sum of its entries as its total. *)
Definition totals_exact (s : ExpenseDB.t) : Prop :=
  ∀ (id : string) (parent : Parent.t),
    ExpenseDB.getParent id s = Some parent →
    is_Some (sum_of_amounts id s)
    ∧ units (Parent.totalExpenses parent) = sum_of_amounts id s.

(** The total a recomputation gives for a group: the amounts of its
    listing added up as the program adds them, as doubles, from the first
    listed entry on. *)
Definition recomputed (parentId : string) (s : ExpenseDB.t) : float :=
  Js.reduce (λ sum entry, sum + Entry.amount entry)%float 0%float
    (ExpenseDB.getEntriesByParent parentId s).

(** No stored total is stale: every stored group carries the total that a
    recomputation gives. *)
Definition totals_current (s : ExpenseDB.t) : Prop :=
  ∀ (id : string) (parent : Parent.t),
    ExpenseDB.getParent id s = Some parent →
    Parent.totalExpenses parent = recomputed id s.

(** The same for every group but the one with the given id. *)
Definition totals_current_but (parentId : string) (s : ExpenseDB.t) : Prop :=
  ∀ (id : string) (parent : Parent.t),
    id ≠ parentId →
    ExpenseDB.getParent id s = Some parent →
    Parent.totalExpenses parent = recomputed id s.

(** Every stored entry belongs to a stored group. *)
Definition no_orphans (s : ExpenseDB.t) : Prop :=
  ∀ (id : string) (entry : Entry.t),
    ExpenseDB.getEntry id s = Some entry →
    is_Some (ExpenseDB.getParent (Entry.parentId entry) s).

(** A list in which no element has a larger key than an earlier one. *)
Definition descending {A : Type} (key : A → Z) (l : list A) : Prop :=
  ∀ (i j : nat) (a b : A),
    (i < j)%nat → l !! i = Some a → l !! j = Some b → (key b ≤ key a)%Z.

(** A lower-case hexadecimal digit. *)
Definition hex_digit (c : ascii) : bool :=
  existsb (Ascii.eqb c) (list_ascii_of_string "0123456789abcdef").

(** The number a decimal numeral stands for. *)
Definition read_decimal (s : string) : option Z :=
  Z.of_int <$> DecimalString.NilZero.int_of_string s.

(** A month id that has 7 code units, a hyphen in the middle, the year in
    front of it and the number of the month, counted from 1, behind. *)
Definition reads_as (id : string) (year month : Z) : bool :=
  (String.length id =? 7)%nat
  && bool_decide (String.get 4 id = Some "-"%char)
  && bool_decide (read_decimal (substring 0 4 id) = Some year)
  && bool_decide (read_decimal (substring 5 2 id) = Some (month + 1)%Z).

End Spec.

(** ** Sequences of entry operations *)

Module Sequence.

(** One call of [createEntry], [updateEntry] or [deleteEntry] (with the
    default [updateTotal = true]), with its arguments and the values the
    call draws from [generateUUID()] and [Date.now()]. *)
Inductive operation : Type :=
| CreateEntry (uuid : string) (now now' : Z) (parentId description : string)
    (amount : float) (category : string) (date : option Z)
| UpdateEntry (id : string) (updates : Updates.t)
| DeleteEntry (id : string).

(** The store the call leaves behind, however its promise ends. *)
Definition step (s : ExpenseDB.t) (op : operation) : ExpenseDB.t :=
  match op with
  | CreateEntry uuid now now' parentId description amount category date =>
      (ExpenseDB.createEntry uuid now now' parentId description amount category date s).1
  | UpdateEntry id updates => (ExpenseDB.updateEntry id updates s).1
  | DeleteEntry id => (ExpenseDB.deleteEntry id true s).1
  end.

Definition run (ops : list operation) (s : ExpenseDB.t) : ExpenseDB.t :=
  foldl step s ops.

(** The call does not rename an entry or move it to another group. *)
Definition stays_in_group (op : operation) : Prop :=
  match op with
  | UpdateEntry _ updates => Updates.id updates = None ∧ Updates.parentId updates = None
  | _ => True
  end.

End Sequence.

(** ** Stores reached by running the operations *)

Module Scenario.
Import ExpenseDB.

Local Open Scope string_scope.

(** Two groups created by the user. *)
Definition two_groups : ExpenseDB.t :=
  let s := (createParent "2024-03" 1000 "January" (Some "2024-01") empty).1 in
  (createParent "2024-03" 2000 "February" (Some "2024-02") s).1.

(** The same after an expense of 5 in the first group. *)
Definition with_coffee : ExpenseDB.t :=
  (createEntry "e-1" 3000 3001 "2024-01" "Coffee" 5 "Food" None two_groups).1.

(** The expense, as stored. *)
Definition coffee : Entry.t :=
  Entry.mk "e-1" "2024-01" "Coffee" 5 "Food" 3000 3001.

(** Three small expenses in the first group, entered with their dates,
    the first the latest. *)
Definition tenths : ExpenseDB.t :=
  let s := (createEntry "e-1" 3000 3001 "2024-01" "Stamp" 0.1 "Bills" (Some 30%Z)
              two_groups).1 in
  let s := (createEntry "e-2" 3002 3003 "2024-01" "Paper" 0.2 "Bills" (Some 20%Z) s).1 in
  (createEntry "e-3" 3004 3005 "2024-01" "Ink" 0.3 "Bills" (Some 10%Z) s).1.

(** [createEntry] called for a group that was never created. *)
Definition orphaned : ExpenseDB.t :=
  (createEntry "e-1" 3000 3001 "2024-01" "Coffee" 5 "Food" None empty).1.

(** A fresh database after [init], and the same after the user added a
    category of their own. *)
Definition seeded : ExpenseDB.t :=
  (init Js.compare_strings (λ i, 500 + Z.of_nat i)%Z empty).1.

Definition with_pet_care : ExpenseDB.t :=
  (createCategory 600 "Pet Care" false seeded).1.

(** A database into which a backup was imported that holds a category
    whose id is not derived from its name. *)
Definition with_pets : ExpenseDB.t :=
  (importData
     (Snapshot.mk (Js.Array []) (Js.Array [])
        (Js.Array [Category.mk "x" "Pets" false 100]) None None)
     empty).1.

(** The object [{ parentId: '2024-02' }]. *)
Definition to_february : Updates.t :=
  Updates.mk None (Some "2024-02") None None None None None.

(** A backup whose group carries a total that is not the sum of its
    entries, and the store after importing it. *)
Definition edited_backup : Snapshot.t :=
  Snapshot.mk (Js.Array [Parent.mk "2024-01" "January" 1000 100]) (Js.Array [coffee])
    Js.Missing None None.

Definition after_edited_backup : ExpenseDB.t :=
  (importData edited_backup empty).1.

End Scenario.

(** * Properties *)

Import Js.

(** ** Sorting and strings *)

Local Open Scope string_scope.

(** Newest first, equal keys in their old order; strings by code units. *)
Lemma sort_examples :
  sort (λ a b : Z * string, b.1 - a.1)%Z [(1, "a"); (3, "b"); (1, "c"); (3, "d")]%Z
    = [(3, "b"); (3, "d"); (1, "a"); (1, "c")]%Z
  ∧ sort compare_strings ["pear"; "Apple"; "fig"; "apple"; "figs"]
    = ["Apple"; "apple"; "fig"; "figs"; "pear"].
Proof. split; vm_compute; reflexivity. Qed.

(** Lower case for ASCII and Latin-1 letters; the multiplication sign and
    the sharp s stay. *)
Lemma toLowerCase_examples :
  toLowerCase "Health & MEDICAL" = "health & medical"
  ∧ lower (ascii_of_nat 192) = ascii_of_nat 224
  ∧ lower (ascii_of_nat 215) = ascii_of_nat 215
  ∧ lower (ascii_of_nat 223) = ascii_of_nat 223.
Proof. repeat split; vm_compute; reflexivity. Qed.

(** [sort_insert] adds its element and nothing else. *)
Lemma sort_insert_perm {A} (cmp : A → A → Z) x l : sort_insert cmp x l ≡ₚ x :: l.
Proof.
  induction l as [|y l IH]; simpl; [done|].
  destruct (0 <? cmp x y)%Z; [|done].
  rewrite IH. apply Permutation_swap.
Qed.

(** [sort] permutes its argument. *)
Lemma sort_perm {A} (cmp : A → A → Z) l : sort cmp l ≡ₚ l.
Proof.
  induction l as [|x l IH]; simpl; [done|].
  unfold sort in *. simpl. rewrite sort_insert_perm. by rewrite IH.
Qed.

(** The order of strings by code units is a consistent comparator. *)
Lemma compare_strings_antisym (a b : string) :
  (0 < compare_strings a b ↔ compare_strings b a < 0)%Z.
Proof.
  unfold compare_strings. rewrite (String.compare_antisym a b).
  destruct (String.compare b a); simpl; lia.
Qed.

Lemma compare_strings_trans (a b c : string) :
  (compare_strings a b ≤ 0 → compare_strings b c ≤ 0 → compare_strings a c ≤ 0)%Z.
Proof.
  unfold compare_strings.
  change String.compare with OrdersEx.String_as_OT.compare.
  destruct (OrdersEx.String_as_OT.compare_spec a b) as [Hab|Hab|Hab]; [| |lia].
  - intros _. by rewrite Hab.
  - intros _.
    destruct (OrdersEx.String_as_OT.compare_spec b c) as [Hbc|Hbc|Hbc]; [| |lia]; intros _.
    + rewrite <- Hbc. unfold OrdersEx.String_as_OT.lt in Hab.
      change String.compare with OrdersEx.String_as_OT.compare in Hab. by rewrite Hab.
    + assert (OrdersEx.String_as_OT.lt a c) as Hac.
      { eapply (@RelationClasses.StrictOrder_Transitive _ _ OrdersEx.String_as_OT.lt_strorder);
          eassumption. }
      unfold OrdersEx.String_as_OT.lt in Hac.
      change String.compare with OrdersEx.String_as_OT.compare in Hac. by rewrite Hac.
Qed.

(** [sort] with a consistent comparator gives a list in which no element
    compares greater than a later one. *)
Lemma sort_sorted {A : Type} (cmp : A → A → Z) (l : list A) :
  (∀ a b, 0 < cmp a b ↔ cmp b a < 0)%Z →
  (∀ a b c, cmp a b ≤ 0 → cmp b c ≤ 0 → cmp a c ≤ 0)%Z →
  StronglySorted (λ a b, cmp a b ≤ 0)%Z (sort cmp l).
Proof.
  intros Hanti Htrans. induction l as [|x l IH]; [constructor|].
  change (sort cmp (x :: l)) with (sort_insert cmp x (sort cmp l)).
  induction IH as [|y l' Hl' IH' Hy]; simpl; [by repeat constructor|].
  destruct (0 <? cmp x y)%Z eqn:Hcmp.
  - apply Z.ltb_lt, Hanti in Hcmp. constructor; [done|].
    rewrite sort_insert_perm. constructor; [lia | done].
  - apply Z.ltb_ge in Hcmp. constructor; [by constructor|].
    constructor; [done|]. eapply Forall_impl; [exact Hy|]. simpl. intros z Hz.
    by apply (Htrans x y z).
Qed.

(** A list without elements is empty. *)
Lemma nil_no_elem {A} (l : list A) : (∀ x, x ∉ l) → l = [].
Proof. destruct l as [|x l]; [done|]. intros H. destruct (H x). left. Qed.

(** Two maps with the same bindings are equal. *)
Lemma map_eq_Some {B : Type} (m1 m2 : gmap string B) :
  (∀ k b, m1 !! k = Some b ↔ m2 !! k = Some b) → m1 = m2.
Proof. intros H. apply map_eq. intros k. apply option_eq. intros b. apply H. Qed.

(** ** Facts about object stores *)

Section ObjectStoreFacts.
Context {A B : Type} `{!IDB.KeyPath A B}.

(** [getAll] lists exactly the stored records. *)
Lemma elem_of_getAll (r : A) (m : gmap string B) :
  r ∈ IDB.getAll m ↔ m !! IDB.key r = Some (IDB.fields r).
Proof.
  unfold IDB.getAll. rewrite list_elem_of_fmap. setoid_rewrite sort_perm.
  split.
  - intros [[k b] [-> Hin]]. apply elem_of_map_to_list in Hin. simpl.
    by rewrite IDB.key_record, IDB.fields_record.
  - intros Hl. exists (IDB.key r, IDB.fields r). simpl. split.
    + by rewrite IDB.record_eta.
    + by apply elem_of_map_to_list.
Qed.

(** The keys of the listed records are the keys of the map. *)
Lemma getAll_keys (m : gmap string B) :
  IDB.key <$> IDB.getAll m ≡ₚ (map_to_list m).*1.
Proof.
  unfold IDB.getAll. rewrite <- list_fmap_compose.
  rewrite sort_perm.
  replace (IDB.key ∘ (λ kb : string * B, IDB.record kb.1 kb.2) <$> map_to_list m)
    with ((map_to_list m).*1); [done|].
  apply list_fmap_ext. intros i [k b] _. simpl. by rewrite IDB.key_record.
Qed.

(** No key is listed twice. *)
Lemma NoDup_getAll_keys (m : gmap string B) : NoDup (IDB.key <$> IDB.getAll m).
Proof. rewrite getAll_keys. apply NoDup_fst_map_to_list. Qed.

(** A record read under [k] has key [k] and the stored fields. *)
Lemma get_Some (k : string) (m : gmap string B) (r : A) :
  IDB.get k m = Some r ↔ IDB.key r = k ∧ m !! k = Some (IDB.fields r).
Proof.
  unfold IDB.get. split.
  - destruct (m !! k) as [b|] eqn:E; simpl; [|done].
    intros [= <-]. by rewrite IDB.key_record, IDB.fields_record.
  - intros [<- ->]. simpl. by rewrite IDB.record_eta.
Qed.

End ObjectStoreFacts.

(** [get] is [undefined] exactly for a free key. *)
Lemma get_None {A B : Type} `{!IDB.KeyPath A B} (k : string) (m : gmap string B) :
  IDB.get k m = None (A:=A) ↔ m !! k = None.
Proof. unfold IDB.get. by rewrite fmap_None. Qed.

(** Reading back what [put] wrote. *)
Lemma get_put_eq {A B : Type} `{!IDB.KeyPath A B} (r : A) (m : gmap string B) :
  IDB.get (IDB.key r) (IDB.put r m) = Some r.
Proof. unfold IDB.get, IDB.put. rewrite lookup_insert_eq. simpl. by rewrite IDB.record_eta. Qed.

(** [put] leaves the other keys alone. *)
Lemma get_put_ne {A B : Type} `{!IDB.KeyPath A B} (r : A) (k : string) (m : gmap string B) :
  IDB.key r ≠ k → IDB.get k (IDB.put r m) = IDB.get k m (A:=A).
Proof. intros. unfold IDB.get, IDB.put. by rewrite lookup_insert_ne. Qed.

(** Both cases of a [get] after a [put]. *)
Lemma get_put {A B : Type} `{!IDB.KeyPath A B} (r : A) (k : string) (m : gmap string B) :
  IDB.get k (IDB.put r m) = if decide (k = IDB.key r) then Some r else IDB.get k m.
Proof.
  case_decide as Hk; [subst k; apply get_put_eq | by apply get_put_ne].
Qed.

(** [add] under a free key is a [put]. *)
Lemma add_Some {A B : Type} `{!IDB.KeyPath A B} (r : A) (m : gmap string B) :
  m !! IDB.key r = None → IDB.add r m = Some (IDB.put r m).
Proof. intros E. unfold IDB.add. by rewrite E. Qed.

(** No record is listed twice. *)
Lemma NoDup_getAll {A B : Type} `{!IDB.KeyPath A B} (m : gmap string B) :
  NoDup (IDB.getAll m : list A).
Proof. apply (NoDup_fmap_1 IDB.key), NoDup_getAll_keys. Qed.

(** An index lists the stored records with the given field value. *)
Lemma elem_of_index_getAll {A B : Type} `{!IDB.KeyPath A B} (f : A → string) v (m : gmap string B) (r : A) :
  r ∈ IDB.index_getAll f v m ↔ f r = v ∧ m !! IDB.key r = Some (IDB.fields r).
Proof. unfold IDB.index_getAll. by rewrite list_elem_of_filter, elem_of_getAll. Qed.

(** A run of [put]s of records with distinct keys: what the map holds
    afterwards. *)
Lemma lookup_foldl_put {A B : Type} `{!IDB.KeyPath A B}
    (l : list A) (m : gmap string B) (k : string) (b : B) :
  NoDup (IDB.key <$> l) →
  foldl (λ m r, IDB.put r m) m l !! k = Some b ↔
  IDB.record k b ∈ l ∨ ((k ∉ IDB.key <$> l) ∧ m !! k = Some b).
Proof.
  revert m. induction l as [|r l IH]; intros m Hnd.
  - simpl. split.
    + intros Hm. right. split; [apply not_elem_of_nil | done].
    + intros [Hin|[_ Hm]]; [by apply elem_of_nil in Hin | done].
  - change (IDB.key <$> r :: l) with (IDB.key r :: (IDB.key <$> l)) in *.
    apply NoDup_cons in Hnd as [Hr Hl]. simpl. rewrite IH by done.
    unfold IDB.put at 1. rewrite elem_of_cons, not_elem_of_cons.
    destruct (decide (k = IDB.key r)) as [->|Hne].
    + rewrite lookup_insert_eq.
      assert (IDB.record (IDB.key r) b ∉ l) as Hnot.
      { intros Hin. apply Hr, list_elem_of_fmap. eexists. split; [|exact Hin].
        by rewrite IDB.key_record. }
      split.
      * intros [?|[_ [= <-]]]; [done|]. left. left. apply IDB.record_eta.
      * intros [[Heq|?]|[[? _] _]]; try done. right. split; [done|].
        by rewrite <- Heq, IDB.fields_record.
    + rewrite lookup_insert_ne by done.
      assert (IDB.record k b ≠ r) as Hrec.
      { intros <-. by rewrite IDB.key_record in Hne. }
      tauto.
Qed.

(** ** What the listing operations return *)

Import ExpenseDB.

(** Writing back the store that was read changes nothing. *)
Lemma set_entries_id (s : ExpenseDB.t) : set_entries (entries s) s = s.
Proof. by destruct s. Qed.

(** The same for [parents]. *)
Lemma set_parents_id (s : ExpenseDB.t) : set_parents (parents s) s = s.
Proof. by destruct s. Qed.

(** [getEntriesByParent p] lists exactly the stored entries of group [p]. *)
Lemma elem_of_getEntriesByParent e p s :
  e ∈ ExpenseDB.getEntriesByParent p s ↔
  Entry.parentId e = p ∧ ExpenseDB.getEntry (Entry.id e) s = Some e.
Proof.
  unfold ExpenseDB.getEntriesByParent, ExpenseDB.getEntry.
  rewrite sort_perm, elem_of_index_getAll, get_Some. simpl. tauto.
Qed.

(** Each of them once. *)
Lemma NoDup_getEntriesByParent (p : string) (s : ExpenseDB.t) :
  NoDup (getEntriesByParent p s).
Proof.
  unfold getEntriesByParent, IDB.index_getAll. rewrite sort_perm.
  apply NoDup_filter, NoDup_getAll.
Qed.

(** [getAllParents] lists exactly the stored groups. *)
Lemma elem_of_getAllParents (p : Parent.t) (s : ExpenseDB.t) :
  p ∈ getAllParents s ↔ getParent (Parent.id p) s = Some p.
Proof.
  unfold getAllParents, getParent. rewrite sort_perm, elem_of_getAll, get_Some.
  simpl. tauto.
Qed.

(** Each id once. *)
Lemma NoDup_getAllParents_ids (s : ExpenseDB.t) : NoDup (Parent.id <$> getAllParents s).
Proof.
  unfold getAllParents. rewrite sort_perm.
  exact (NoDup_getAll_keys (A:=Parent.t) (parents s)).
Qed.

(** The listed ids are the ids of the stored groups. *)
Lemma elem_of_parent_ids (k : string) (s : ExpenseDB.t) :
  k ∈ Parent.id <$> getAllParents s ↔ is_Some (getParent k s).
Proof.
  rewrite list_elem_of_fmap. split.
  - intros (p & -> & Hp). apply elem_of_getAllParents in Hp. by eexists.
  - intros [p Hp]. exists p. unfold getParent in Hp.
    pose proof Hp as Hp'. apply get_Some in Hp' as [Hk _]. simpl in Hk. subst k.
    split; [done|]. by apply elem_of_getAllParents.
Qed.

(** [getCategories] lists exactly the stored categories, whatever the
    collation. *)
Lemma elem_of_getCategories cmp c s :
  c ∈ ExpenseDB.getCategories cmp s ↔ IDB.get (Category.id c) (ExpenseDB.categories s) = Some c.
Proof.
  unfold ExpenseDB.getCategories. rewrite sort_perm, elem_of_getAll, get_Some. simpl. tauto.
Qed.

(** ** Listings depend on the entries of the group only *)

(** A filter keeps a sorted list sorted. *)
Lemma StronglySorted_filter {A : Type} (R : relation A) (P : A → Prop)
    `{!∀ x, Decision (P x)} (l : list A) :
  StronglySorted R l → StronglySorted R (filter P l).
Proof.
  induction 1 as [|x l Hl IH Hx]; [constructor|].
  rewrite filter_cons. case_decide; [|done].
  constructor; [done|]. rewrite Forall_forall in Hx |- *.
  intros y [_ Hy]%list_elem_of_filter. by apply Hx.
Qed.

(** The records an index lists come in the order of their keys, so the
    listing is settled by which of them are stored: two stores that hold
    the same records with the indexed value give the same listing. *)
Lemma index_getAll_agree {A B : Type} `{!IDB.KeyPath A B}
    (f : A → string) (v : string) (m1 m2 : gmap string B) :
  (∀ k b, f (IDB.record k b) = v → m1 !! k = Some b ↔ m2 !! k = Some b) →
  IDB.index_getAll f v m1 = IDB.index_getAll f v m2 (A:=A).
Proof.
  intros Hagree. unfold IDB.index_getAll, IDB.getAll.
  set (g := λ kb : string * B, IDB.record kb.1 kb.2 : A).
  set (cmp := λ x y : string * B, compare_strings x.1 y.1).
  assert (∀ m : gmap string B,
            filter (λ r, f r = v) (g <$> sort cmp (map_to_list m))
            = g <$> filter (λ kb, f (g kb) = v) (sort cmp (map_to_list m))) as Hfmap.
  { intros m. induction (sort cmp (map_to_list m)) as [|x l IH]; [done|].
    rewrite fmap_cons, !filter_cons, IH. by case_decide. }
  rewrite !Hfmap. f_equal.
  assert (∀ m : gmap string B,
            StronglySorted (λ x y, cmp x y ≤ 0)%Z
              (filter (λ kb, f (g kb) = v) (sort cmp (map_to_list m)))) as Hsorted.
  { intros m. apply StronglySorted_filter, sort_sorted.
    - intros a b. apply compare_strings_antisym.
    - intros a b c. apply compare_strings_trans. }
  assert (∀ (m : gmap string B) kb,
            kb ∈ filter (λ kb, f (g kb) = v) (sort cmp (map_to_list m))
            ↔ f (g kb) = v ∧ m !! kb.1 = Some kb.2) as Hin.
  { intros m [k b]. rewrite list_elem_of_filter, sort_perm, elem_of_map_to_list. done. }
  apply (StronglySorted_unique_strong (λ x y, cmp x y ≤ 0)%Z);
    [|apply Hsorted|apply Hsorted|].
  - intros [k1 b1] [k2 b2] [Hv1 H1]%Hin [Hv2 H2]%Hin H12 H21.
    unfold cmp, compare_strings in H12, H21. cbn [fst snd] in *.
    assert (k1 = k2) as <-.
    { apply String.compare_eq_iff. rewrite (String.compare_antisym k2 k1) in H21.
      destruct (String.compare k1 k2); simpl in *; [done | lia | lia]. }
    apply (Hagree k1 b1 Hv1) in H1. congruence.
  - apply NoDup_Permutation.
    + apply NoDup_filter. rewrite sort_perm. apply NoDup_map_to_list.
    + apply NoDup_filter. rewrite sort_perm. apply NoDup_map_to_list.
    + intros [k b]. rewrite !Hin. simpl. split; intros [Hv Hk]; (split; [done|]).
      * by apply (Hagree k b Hv).
      * by apply (Hagree k b Hv).
Qed.

(** The listing of a group, and so the total a recomputation gives for
    it, is the same in two stores that hold the same entries of that
    group. *)
Lemma getEntriesByParent_agree (g : string) (s1 s2 : ExpenseDB.t) :
  (∀ k row, Entry.parentId (IDB.record k row : Entry.t) = g →
            entries s1 !! k = Some row ↔ entries s2 !! k = Some row) →
  getEntriesByParent g s1 = getEntriesByParent g s2.
Proof.
  intros Hagree. unfold getEntriesByParent. f_equal.
  by apply (index_getAll_agree Entry.parentId g).
Qed.

(** An entry that is stored, replaced or deleted does not show in the
    listing of a group that neither the entry of before nor the entry of
    after belongs to. *)
Lemma getEntriesByParent_put_other (g : string) (e : Entry.t) (s : ExpenseDB.t) :
  Entry.parentId e ≠ g →
  (∀ old : Entry.t, getEntry (Entry.id e) s = Some old → Entry.parentId old ≠ g) →
  getEntriesByParent g (set_entries (IDB.put e (entries s)) s) = getEntriesByParent g s.
Proof.
  intros He Hold. apply getEntriesByParent_agree. intros k row Hg.
  cbn [entries set_entries]. unfold IDB.put.
  destruct (decide (k = Entry.id e)) as [->|Hk].
  - change (IDB.key e) with (Entry.id e). rewrite lookup_insert_eq. split.
    + intros Heq. assert (row = IDB.fields e) as -> by congruence.
      destruct He. rewrite <- Hg. symmetry.
      exact (f_equal Entry.parentId (IDB.record_eta e)).
    + intros Hrow. destruct (Hold (IDB.record (Entry.id e) row)); [|done].
      unfold getEntry, IDB.get. by rewrite Hrow.
  - rewrite lookup_insert_ne; [done|]. simpl. congruence.
Qed.

Lemma getEntriesByParent_delete_other (g k : string) (s : ExpenseDB.t) :
  (∀ old : Entry.t, getEntry k s = Some old → Entry.parentId old ≠ g) →
  getEntriesByParent g (set_entries (delete k (entries s)) s) = getEntriesByParent g s.
Proof.
  intros Hold. apply getEntriesByParent_agree. intros k' row Hg.
  cbn [entries set_entries].
  destruct (decide (k' = k)) as [->|Hk].
  - rewrite lookup_delete_eq. split; [done|].
    intros Hrow. destruct (Hold (IDB.record k row)); [|done].
    unfold getEntry, IDB.get. by rewrite Hrow.
  - by rewrite lookup_delete_ne.
Qed.

(** Listings do not depend on the [parents] store. *)
Lemma getEntriesByParent_parents (g : string) (m : gmap string Parent.row) (s : ExpenseDB.t) :
  getEntriesByParent g (set_parents m s) = getEntriesByParent g s.
Proof. done. Qed.

(** ** Exact sums of amounts *)

(** Terms can be added in any order. *)
Lemma plus_swap (total a b : option Z) :
  Spec.plus (Spec.plus total a) b = Spec.plus (Spec.plus total b) a.
Proof. destruct total, a, b; simpl; try done. f_equal. lia. Qed.

(** Deleting an entry of another group leaves the sum of a group as it
    is. *)
Lemma sum_of_amounts_delete_other (p k : string) (row : Entry.row) (s : ExpenseDB.t) :
  entries s !! k = Some row →
  Entry.parentId (IDB.record k row : Entry.t) ≠ p →
  Spec.sum_of_amounts p (set_entries (delete k (entries s)) s) = Spec.sum_of_amounts p s.
Proof.
  intros Hk Hp. unfold Spec.sum_of_amounts. cbn [entries set_entries].
  rewrite <- (insert_delete_id (entries s) k row) at 2 by done.
  rewrite map_fold_insert_L; [|intros j1 j2 z1 z2 y _ _ _|apply lookup_delete_eq].
  - cbv zeta. by rewrite decide_False.
  - cbv zeta. repeat case_decide; try done. apply plus_swap.
Qed.

(** Sums do not depend on the [parents] store. *)
Lemma sum_of_amounts_parents (p : string) (m : gmap string Parent.row) (s : ExpenseDB.t) :
  Spec.sum_of_amounts p (set_parents m s) = Spec.sum_of_amounts p s.
Proof. done. Qed.

(** A group without entries has the sum 0. *)
Lemma sum_of_amounts_unused (g : string) (s : ExpenseDB.t) :
  (∀ k (e : Entry.t), getEntry k s = Some e → Entry.parentId e ≠ g) →
  Spec.sum_of_amounts g s = Some 0%Z.
Proof.
  intros Hnone. unfold Spec.sum_of_amounts. rewrite map_fold_foldr.
  assert (∀ kb, kb ∈ map_to_list (entries s) →
                Entry.parentId (IDB.record kb.1 kb.2 : Entry.t) ≠ g) as Hl.
  { intros [k row] Hin. apply elem_of_map_to_list in Hin. apply (Hnone k).
    unfold getEntry, IDB.get. by rewrite Hin. }
  induction (map_to_list (entries s)) as [|[k row] l IH]; [done|].
  cbn [foldr uncurry]. rewrite IH.
  - rewrite decide_False; [done|]. apply (Hl (k, row)). left.
  - intros kb Hin. apply Hl. by right.
Qed.

(** ** Group totals *)

(** For a group that is not stored, [updateParentTotal] rejects with
    'Parent not found' and writes nothing. *)
Lemma updateParentTotal_unknown (parentId : string) (s : ExpenseDB.t) :
  getParent parentId s = None →
  updateParentTotal parentId s = (s, Rejected ParentNotFound).
Proof. unfold getParent, updateParentTotal. by intros ->. Qed.

(** For a stored group, [updateParentTotal] stores what the amounts of its
    listing add up to as the total and resolves with the group. *)
Lemma updateParentTotal_known (p : string) (s : ExpenseDB.t) (parent : Parent.t) :
  getParent p s = Some parent →
  let parent' := Parent.set_totalExpenses (Spec.recomputed p s) parent in
  updateParentTotal p s
  = (set_parents (IDB.put parent' (parents s)) s, Resolved parent').
Proof. unfold getParent, updateParentTotal. by intros ->. Qed.

(** If no other group carries a stale total, then after
    [updateParentTotal p] no group does, whether [p] is stored or not. *)
Lemma updateParentTotal_restores (p : string) (s : ExpenseDB.t) :
  Spec.totals_current_but p s → Spec.totals_current (updateParentTotal p s).1.
Proof.
  intros Hbut. destruct (getParent p s) as [parent|] eqn:Hp.
  - rewrite (updateParentTotal_known p s parent Hp). cbn [fst].
    pose proof Hp as [Hid _]%get_Some. simpl in Hid.
    intros id parent' Hget.
    change (Spec.recomputed id (set_parents _ s)) with (Spec.recomputed id s).
    unfold getParent in Hget. cbn [parents set_parents] in Hget.
    rewrite get_put in Hget. simpl in Hget. rewrite Hid in Hget.
    case_decide as Hne.
    + subst id. by injection Hget as <-.
    + by apply Hbut.
  - rewrite updateParentTotal_unknown by done. cbn [fst].
    intros id parent Hget. apply Hbut; [|done]. intros ->. congruence.
Qed.

(** The store left behind by an operation that ends by awaiting, inside its
    success handler, the recomputation of a total. *)
Lemma in_handler_state {A B : Type} (r : ExpenseDB.t * promise A) (v : B) :
  (await_in_handler r (λ _ s', (s', Resolved v))).1 = r.1.
Proof. by destruct r as [s [?|?|]]. Qed.

(** [createEntry] leaves no stale total, however it ends. *)
Lemma createEntry_totals
    (uuid : string) (now now' : Z) (parentId description : string) (amount : float)
    (category : string) (date : option Z) (s : ExpenseDB.t) :
  Spec.totals_current s →
  Spec.totals_current
    (createEntry uuid now now' parentId description amount category date s).1.
Proof.
  intros Hs. unfold createEntry.
  set (entry := Entry.mk uuid parentId description (parseFloat amount) category _ now').
  unfold IDB.add. destruct (entries s !! IDB.key entry) eqn:Hk; [done|].
  rewrite in_handler_state. apply updateParentTotal_restores.
  intros id parent Hne Hget. unfold Spec.recomputed.
  rewrite getEntriesByParent_put_other.
  - by apply Hs.
  - simpl. congruence.
  - intros old Hold. unfold getEntry, IDB.get in Hold.
    change (Entry.id entry) with (IDB.key entry) in Hold. by rewrite Hk in Hold.
Qed.

(** [deleteEntry] with [updateTotal = true] leaves no stale total. *)
Lemma deleteEntry_totals (id : string) (s : ExpenseDB.t) :
  Spec.totals_current s → Spec.totals_current (deleteEntry id true s).1.
Proof.
  intros Hs. unfold deleteEntry.
  destruct (IDB.get id (entries s)) as [entry|] eqn:Hget; [|done].
  rewrite in_handler_state. apply updateParentTotal_restores.
  intros g parent Hne Hg. unfold Spec.recomputed.
  rewrite getEntriesByParent_delete_other.
  - by apply Hs.
  - intros old Hold. unfold getEntry in Hold. congruence.
Qed.

(** [updateEntry] leaves no stale total when [updates] has neither [id]
    nor [parentId], as the object the entry form passes. *)
Lemma updateEntry_totals (id : string) (updates : Updates.t) (s : ExpenseDB.t) :
  Updates.id updates = None →
  Updates.parentId updates = None →
  Spec.totals_current s → Spec.totals_current (updateEntry id updates s).1.
Proof.
  intros Hid Hpid Hs. unfold updateEntry.
  destruct (IDB.get id (entries s)) as [entry|] eqn:Hget; [|done].
  set (entry' := match Updates.amount updates with
                 | Some a => set_amount (parseFloat a) (assign entry updates)
                 | None => assign entry updates
                 end).
  assert (Entry.id entry' = Entry.id entry ∧ Entry.parentId entry' = Entry.parentId entry)
    as [Hid' Hpid'].
  { unfold entry'. destruct (Updates.amount updates); simpl; by rewrite Hid, Hpid. }
  rewrite in_handler_state. apply updateParentTotal_restores.
  pose proof Hget as [Hk _]%get_Some. simpl in Hk. subst id.
  intros g parent Hne Hg. unfold Spec.recomputed.
  rewrite getEntriesByParent_put_other.
  - by apply Hs.
  - congruence.
  - intros old Hold. unfold getEntry in Hold. rewrite Hid' in Hold. congruence.
Qed.

(** One operation that leaves entries in their group leaves no stale
    total. *)
Lemma step_totals (op : Sequence.operation) (s : ExpenseDB.t) :
  Sequence.stays_in_group op →
  Spec.totals_current s → Spec.totals_current (Sequence.step s op).
Proof.
  destruct op as [uuid now now' p d a c t | id updates | id]; simpl.
  - intros _. apply createEntry_totals.
  - intros [Hid Hp]. by apply updateEntry_totals.
  - intros _. apply deleteEntry_totals.
Qed.

(** Totals are recomputed, never left stale: after every sequence of
    [createEntry], [updateEntry] and [deleteEntry] calls in which no update
    renames or moves an entry, whichever of the calls fail, every stored
    group carries the total that a recomputation gives, the amounts of its
    listing added up as doubles, if every group did before. *)
Lemma run_totals (ops : list Sequence.operation) (s : ExpenseDB.t) :
  Forall Sequence.stays_in_group ops →
  Spec.totals_current s → Spec.totals_current (Sequence.run ops s).
Proof.
  unfold Sequence.run. revert s. induction ops as [|op ops IH]; intros s Hops Hs; [done|].
  apply Forall_cons in Hops as [Hop Hops]. simpl. apply IH; [done|].
  by apply step_totals.
Qed.

(** The scenario of the specification: a group, an expense of 4.50 in it,
    total 4.50; the expense deleted, total 0. *)
Lemma coffee_scenario :
  let s0 := (createParent "2024-03" 1000 "January" (Some "2024-01") empty).1 in
  let s1 := (createEntry "e-1" 3000 3001 "2024-01" "Coffee" 4.5 "" None s0).1 in
  let s2 := (deleteEntry "e-1" true s1).1 in
  Parent.totalExpenses <$> getParent "2024-01" s1 = Some 4.5%float
  ∧ (deleteEntry "e-1" true s1).2 = Resolved tt
  ∧ Parent.totalExpenses <$> getParent "2024-01" s2 = Some 0%float.
Proof. repeat split; vm_compute; reflexivity. Qed.

(** The stored groups of the example stores. *)
Lemma two_groups_parents (id : string) (parent : Parent.t) :
  getParent id Scenario.two_groups = Some parent →
  (id = "2024-01" ∧ parent = Parent.mk "2024-01" "January" 1000 0)
  ∨ (id = "2024-02" ∧ parent = Parent.mk "2024-02" "February" 2000 0).
Proof.
  destruct parent as [i n c x]. intros Hget. apply get_Some in Hget as [Hid Hget].
  simpl in Hid. subst i.
  apply elem_of_map_to_list in Hget. vm_compute in Hget.
  apply elem_of_cons in Hget as [Hget|Hget].
  - left. by injection Hget as -> -> -> ->.
  - right. apply list_elem_of_singleton in Hget. by injection Hget as -> -> -> ->.
Qed.

Lemma with_coffee_parents (id : string) (parent : Parent.t) :
  getParent id Scenario.with_coffee = Some parent →
  (id = "2024-01" ∧ parent = Parent.mk "2024-01" "January" 1000 5)
  ∨ (id = "2024-02" ∧ parent = Parent.mk "2024-02" "February" 2000 0).
Proof.
  destruct parent as [i n c x]. intros Hget. apply get_Some in Hget as [Hid Hget].
  simpl in Hid. subst i.
  apply elem_of_map_to_list in Hget. vm_compute in Hget.
  apply elem_of_cons in Hget as [Hget|Hget].
  - left. by injection Hget as -> -> -> ->.
  - right. apply list_elem_of_singleton in Hget. by injection Hget as -> -> -> ->.
Qed.

(** Two new groups carry exact totals, and no stale ones. *)
Lemma two_groups_totals : Spec.totals_exact Scenario.two_groups.
Proof.
  intros id parent [[-> ->]|[-> ->]]%two_groups_parents;
    (split; [vm_compute; by eexists | vm_compute; reflexivity]).
Qed.

Lemma two_groups_current : Spec.totals_current Scenario.two_groups.
Proof.
  intros id parent [[-> ->]|[-> ->]]%two_groups_parents; vm_compute; reflexivity.
Qed.

(** And so do they after the first expense. *)
Lemma with_coffee_totals : Spec.totals_exact Scenario.with_coffee.
Proof.
  intros id parent [[-> ->]|[-> ->]]%with_coffee_parents;
    (split; [vm_compute; by eexists | vm_compute; reflexivity]).
Qed.

Lemma with_coffee_current : Spec.totals_current Scenario.with_coffee.
Proof. apply createEntry_totals, two_groups_current. Qed.

(** Claim C1: after every [createEntry], [updateEntry] and [deleteEntry]
    whose result resolves, every group's [totalExpenses] is the sum of the
    amounts of the entries that carry its id, also when an update moves
    an entry from one existing group to another.

    The code does not do this for the move.  In a store with exact totals,
    where the entry "e-1" of amount 5 is the only one of the group
    "2024-01", [updateEntry("e-1", { parentId: "2024-02" })] resolves;
    afterwards the group "2024-01" has no entry, the sum of its amounts is
    0, and its stored [totalExpenses] is still 5: [updateEntry] recomputes
    the total of the group the entry has after [Object.assign] only. *)
Theorem updateEntry_move_leaves_stale_total :
  Spec.totals_exact Scenario.with_coffee
  ∧ ∃ s' : ExpenseDB.t,
      updateEntry "e-1" Scenario.to_february Scenario.with_coffee
        = (s', Resolved (Entry.mk "e-1" "2024-02" "Coffee" 5 "Food" 3000 3001))
      ∧ getEntriesByParent "2024-01" s' = []
      ∧ Spec.sum_of_amounts "2024-01" s' = Some 0%Z
      ∧ getParent "2024-01" s' = Some (Parent.mk "2024-01" "January" 1000 5)
      ∧ getParent "2024-02" s' = Some (Parent.mk "2024-02" "February" 2000 5)
      ∧ ¬ Spec.totals_exact s'.
Proof.
  split; [apply with_coffee_totals|]. eexists.
  split; [vm_compute; reflexivity|].
  split; [vm_compute; reflexivity|]. split; [vm_compute; reflexivity|].
  split; [vm_compute; reflexivity|]. split; [vm_compute; reflexivity|].
  intros H.
  destruct (H "2024-01" (Parent.mk "2024-01" "January" 1000 5)) as [_ Hsum];
    [vm_compute; reflexivity|].
  vm_compute in Hsum. discriminate Hsum.
Qed.

(** ** Creating an entry for a group that does not exist *)

(** Claim C9: [createEntry] for a [parentId] that no stored group has.
    The entry is persisted under the generated id and
    [getEntriesByParent(parentId)] returns it; the recomputation of the
    total is rejected with 'Parent not found'.  That rejection is raised
    inside the [async] success handler of the [add] request, so the
    operation's own promise is neither resolved nor rejected: it stays
    pending, where the claim has it rejected. *)
Theorem createEntry_unknown_parent
    (uuid : string) (now now' : Z) (parentId description : string) (amount : float)
    (category : string) (date : option Z) (s : ExpenseDB.t) :
  getParent parentId s = None →
  getEntry uuid s = None →
  ∃ (entry : Entry.t) (s' : ExpenseDB.t),
    createEntry uuid now now' parentId description amount category date s = (s', Pending)
    ∧ updateParentTotal parentId s' = (s', Rejected ParentNotFound)
    ∧ Entry.id entry = uuid
    ∧ Entry.parentId entry = parentId
    ∧ Entry.description entry = description
    ∧ Entry.amount entry = parseFloat amount
    ∧ getEntry uuid s' = Some entry
    ∧ entry ∈ getEntriesByParent parentId s'.
Proof.
  intros Hp He. unfold getEntry in He. apply get_None in He.
  unfold createEntry.
  set (entry := Entry.mk uuid parentId description (parseFloat amount) category _ now').
  rewrite (add_Some entry) by done.
  set (s' := set_entries (IDB.put entry (entries s)) s).
  assert (updateParentTotal parentId s' = (s', Rejected ParentNotFound)) as Hup
    by (by apply updateParentTotal_unknown).
  assert (getEntry uuid s' = Some entry) as Hg by exact (get_put_eq entry (entries s)).
  exists entry, s'. rewrite Hup. repeat split; try done.
  apply elem_of_getEntriesByParent. by split.
Qed.

(** [createEntry_unknown_parent] on an empty database. *)
Lemma createEntry_unknown_parent_witness :
  ∃ (entry : Entry.t) (s' : ExpenseDB.t),
    createEntry "e-1" 1700 1701 "2024-01" "Coffee" 5 "" None empty = (s', Pending)
    ∧ updateParentTotal "2024-01" s' = (s', Rejected ParentNotFound)
    ∧ Entry.id entry = "e-1"
    ∧ Entry.parentId entry = "2024-01"
    ∧ Entry.description entry = "Coffee"
    ∧ Entry.amount entry = 5%float
    ∧ getEntry "e-1" s' = Some entry
    ∧ entry ∈ getEntriesByParent "2024-01" s'.
Proof. apply createEntry_unknown_parent; reflexivity. Defined.

(** ** Deleting a group *)

(** [deleteEntry(id, false)] deletes the key and resolves. *)
Lemma deleteEntry_without_total (id : string) (s : ExpenseDB.t) :
  deleteEntry id false s = (set_entries (delete id (entries s)) s, Resolved tt).
Proof.
  unfold deleteEntry. destruct (IDB.get id (entries s)) as [e|] eqn:E; [done|].
  apply get_None in E. rewrite delete_id by done. by rewrite set_entries_id.
Qed.

(** The loop of [deleteParent] deletes the listed ids and resolves. *)
Lemma cascade_deletes (l : list Entry.t) (s : ExpenseDB.t) :
  for_of l (λ entry, deleteEntry (Entry.id entry) false) s
  = (set_entries (foldl (λ m e, delete (Entry.id e) m) (entries s) l) s, Resolved tt).
Proof.
  revert s. induction l as [|e l IH]; intros s; simpl.
  - by rewrite set_entries_id.
  - rewrite deleteEntry_without_total. simpl. rewrite IH. by destruct s.
Qed.

(** What a map holds after a run of deletions. *)
Lemma lookup_foldl_delete (l : list Entry.t) (m : gmap string Entry.row) (k : string) :
  foldl (λ m e, delete (Entry.id e) m) m l !! k
  = if decide (k ∈ Entry.id <$> l) then None else m !! k.
Proof.
  revert m. induction l as [|e l IH]; intros m; simpl.
  - done.
  - rewrite IH. clear IH.
    case_decide as Hin; case_decide as Hin'; change (Entry.id <$> e :: l) with (Entry.id e :: (Entry.id <$> l)) in Hin'.
    + done.
    + exfalso. apply Hin'. by right.
    + apply elem_of_cons in Hin' as [->|?]; [|done]. by rewrite lookup_delete_eq.
    + rewrite lookup_delete_ne; [done|]. intros <-. apply Hin'. by left.
Qed.

(** Claim C4: for every id and every store, [deleteParent(id)] resolves;
    afterwards [getEntriesByParent(id)] is empty and [getParent(id)] is
    [undefined]; the other groups, the entries of the other groups and the
    categories are as before.  For an id that is not stored the operation
    resolves all the same, and when no entry carries that id either, the
    cascade has nothing to delete and the store is unchanged. *)
Theorem deleteParent_spec (id : string) (s : ExpenseDB.t) :
  ∃ s' : ExpenseDB.t,
    deleteParent id s = (s', Resolved tt)
    ∧ getEntriesByParent id s' = []
    ∧ getParent id s' = None
    ∧ (∀ p, p ≠ id → getParent p s' = getParent p s)
    ∧ (∀ e, Entry.parentId e ≠ id →
         getEntry (Entry.id e) s' = Some e ↔ getEntry (Entry.id e) s = Some e)
    ∧ categories s' = categories s
    ∧ (getParent id s = None → getEntriesByParent id s = [] → s' = s).
Proof.
  unfold deleteParent. rewrite cascade_deletes. cbn [await].
  set (l := getEntriesByParent id s).
  set (m' := foldl (λ m e, delete (Entry.id e) m) (entries s) l).
  eexists. split; [reflexivity|].
  assert (∀ e : Entry.t, m' !! Entry.id e = Some (IDB.fields e) ↔
            Entry.parentId e ≠ id ∧ entries s !! Entry.id e = Some (IDB.fields e)) as Hm'.
  { intros e. unfold m'. rewrite lookup_foldl_delete. case_decide as Hin.
    - split; [done|]. intros [Hne He]. exfalso.
      apply list_elem_of_fmap in Hin as (e' & Hid & He').
      apply elem_of_getEntriesByParent in He' as [Hp' Hg'].
      apply get_Some in Hg' as [_ Hl']. rewrite <- Hid in Hl'.
      rewrite He in Hl'. injection Hl' as Hf.
      assert (e = e') as <-; [|done].
      rewrite <- (IDB.record_eta e), <- (IDB.record_eta e'). simpl in *. congruence.
    - split; [|tauto]. intros He. split; [|done]. intros Hp. apply Hin.
      apply list_elem_of_fmap. exists e. split; [done|].
      apply elem_of_getEntriesByParent. split; [done|]. apply get_Some. done. }
  split; [|split; [|split; [|split; [|split]]]].
  - apply nil_no_elem. intros e He. apply elem_of_getEntriesByParent in He as [Hp Hg].
    apply get_Some in Hg as [_ Hl]. cbn in Hl. apply Hm' in Hl. tauto.
  - unfold getParent, IDB.get. cbn. by rewrite lookup_delete_eq.
  - intros p Hp. unfold getParent, IDB.get. cbn. by rewrite lookup_delete_ne.
  - intros e Hp. unfold getEntry. rewrite !get_Some. cbn. rewrite Hm'. tauto.
  - done.
  - intros Hg Hl. unfold getParent in Hg. apply get_None in Hg.
    subst m'. rewrite Hl. cbn. rewrite delete_id by done. by destruct s.
Qed.

(** [deleteParent_spec] for a group with one entry, and for an id that was
    never used. *)
Lemma deleteParent_spec_witness :
  (∃ s' : ExpenseDB.t,
     deleteParent "2024-01" Scenario.with_coffee = (s', Resolved tt)
     ∧ getEntriesByParent "2024-01" s' = []
     ∧ getParent "2024-01" s' = None
     ∧ getParent "2024-02" s' = Some (Parent.mk "2024-02" "February" 2000 0))
  ∧ deleteParent "2031-12" Scenario.with_coffee = (Scenario.with_coffee, Resolved tt).
Proof.
  split.
  - destruct (deleteParent_spec "2024-01" Scenario.with_coffee)
      as (s' & Hdel & Hlist & Hget & Hother & _).
    exists s'. split; [exact Hdel|]. split; [exact Hlist|]. split; [exact Hget|].
    rewrite Hother by discriminate. vm_compute. reflexivity.
  - destruct (deleteParent_spec "2031-12" Scenario.with_coffee)
      as (s' & Hdel & _ & _ & _ & _ & _ & Hsame).
    rewrite Hdel. f_equal. apply Hsame; vm_compute; reflexivity.
Defined.

(** ** Duplicating an entry *)

(** [duplicateEntry] leaves no stale total, however it ends. *)
Lemma duplicateEntry_totals (uuid : string) (now : Z) (id : string) (s : ExpenseDB.t) :
  Spec.totals_current s → Spec.totals_current (duplicateEntry uuid now id s).1.
Proof.
  intros Hs. unfold duplicateEntry.
  destruct (getEntry id s) as [original|]; [|done].
  set (duplicate := copy_of original uuid now).
  unfold IDB.add. destruct (entries s !! IDB.key duplicate) eqn:Hk; [done|].
  rewrite in_handler_state. apply updateParentTotal_restores.
  intros g parent Hne Hget. unfold Spec.recomputed.
  rewrite getEntriesByParent_put_other.
  - by apply Hs.
  - congruence.
  - intros old Hold. unfold getEntry, IDB.get in Hold.
    change (Entry.id duplicate) with (IDB.key duplicate) in Hold. by rewrite Hk in Hold.
Qed.

(** The store with the three small expenses has no stale total. *)
Lemma tenths_current : Spec.totals_current Scenario.tenths.
Proof. unfold Scenario.tenths. do 3 apply createEntry_totals. apply two_groups_current. Qed.

(** Its total is the sum as doubles add it up, which is not the exact sum
    of the three amounts. *)
Lemma tenths_not_exact :
  Parent.totalExpenses <$> getParent "2024-01" Scenario.tenths = Some (0.1 + 0.2 + 0.3)%float
  ∧ ¬ Spec.totals_exact Scenario.tenths.
Proof.
  split; [vm_compute; reflexivity|]. intros H.
  destruct (getParent "2024-01" Scenario.tenths) as [parent|] eqn:Hp;
    [|vm_compute in Hp; discriminate Hp].
  destruct (H _ _ Hp) as [_ Hsum]. vm_compute in Hp. injection Hp as <-.
  vm_compute in Hsum. discriminate Hsum.
Qed.

(** Against claim C6 as stated: the total is computed again, not
    increased.

    After the import of a backup whose group "2024-01" carries the total
    100 with a single entry of amount 5, [duplicateEntry] resolves and the
    total becomes 10, the sum of the two entries, not 100 + 5.

    In the store [Scenario.tenths], built with [createEntry] alone, the
    group holds 0.1, 0.2 and 0.3 and carries the total that their listing
    adds up to.  Duplicating the entry of 0.1 gives the total
    0.1 + 0.1 + 0.2 + 0.3 as doubles add it up, which is not the total of
    before plus 0.1, neither as doubles add nor exactly.

    And for an entry whose group is not stored, [duplicateEntry] stores
    the copy and its promise stays pending. *)
Lemma duplicateEntry_total_not_incremented :
  (getEntry "e-1" Scenario.after_edited_backup = Some Scenario.coffee
   ∧ getParent "2024-01" Scenario.after_edited_backup
     = Some (Parent.mk "2024-01" "January" 1000 100)
   ∧ (∃ s' : ExpenseDB.t,
        duplicateEntry "e-2" 4000 "e-1" Scenario.after_edited_backup
          = (s', Resolved (Entry.mk "e-2" "2024-01" "Coffee" 5 "Food" 3000 4000))
        ∧ getParent "2024-01" s' = Some (Parent.mk "2024-01" "January" 1000 10))
   ∧ (100 + 5)%float ≠ 10%float)
  ∧ (Spec.totals_current Scenario.tenths
     ∧ ∃ (s' : ExpenseDB.t) (before after : float),
         duplicateEntry "e-4" 4000 "e-1" Scenario.tenths
           = (s', Resolved (Entry.mk "e-4" "2024-01" "Stamp" 0.1 "Bills" 30 4000))
         ∧ Parent.totalExpenses <$> getParent "2024-01" Scenario.tenths = Some before
         ∧ Parent.totalExpenses <$> getParent "2024-01" s' = Some after
         ∧ after ≠ (before + 0.1)%float
         ∧ Spec.units after ≠ Spec.plus (Spec.units before) (Spec.units 0.1))
  ∧ (getEntry "e-1" Scenario.orphaned = Some Scenario.coffee
     ∧ (duplicateEntry "e-2" 4000 "e-1" Scenario.orphaned).2 = Pending).
Proof.
  split; [|split].
  - split; [vm_compute; reflexivity|]. split; [vm_compute; reflexivity|]. split.
    + eexists. split; vm_compute; reflexivity.
    + vm_compute. intros H. discriminate H.
  - split.
    + apply tenths_current.
    + eexists _, _, _. split; [vm_compute; reflexivity|].
      split; [vm_compute; reflexivity|]. split; [vm_compute; reflexivity|].
      split; vm_compute; intros H; discriminate H.
  - split; vm_compute; reflexivity.
Qed.

(** Claim C6, amended.  For an id that is not stored, [duplicateEntry]
    rejects with 'Entry not found' and changes nothing; for a stored entry
    and a generated id that is in use, it rejects with a ConstraintError
    and changes nothing, so that whenever it resolves, the id of the copy
    is the id of no entry stored before.  For a stored entry whose group is
    stored, and a generated id that is not in use, [duplicateEntry]
    resolves with a new stored entry that has the description, amount,
    category, date and parentId of the original, the generated id and the
    current time as [createdAt]; the other entries and the other groups
    are as before; the total of the group becomes what a recomputation
    gives, the amounts of its listing, the copy included, added up as
    doubles; and no total is stale afterwards if none was before. *)
Theorem duplicateEntry_spec (uuid : string) (now : Z) (id : string) (s : ExpenseDB.t) :
  (getEntry id s = None → duplicateEntry uuid now id s = (s, Rejected EntryNotFound))
  ∧ (is_Some (getEntry id s) → is_Some (getEntry uuid s) →
     duplicateEntry uuid now id s = (s, Rejected ConstraintError))
  ∧ (∀ (duplicate : Entry.t) (s' : ExpenseDB.t),
       duplicateEntry uuid now id s = (s', Resolved duplicate) →
       ∀ (k : string) (e : Entry.t), getEntry k s = Some e → Entry.id duplicate ≠ k)
  ∧ ∀ (original : Entry.t) (group : Parent.t),
      getEntry id s = Some original →
      getParent (Entry.parentId original) s = Some group →
      getEntry uuid s = None →
      ∃ (duplicate : Entry.t) (s' : ExpenseDB.t),
        duplicateEntry uuid now id s = (s', Resolved duplicate)
        ∧ Entry.description duplicate = Entry.description original
        ∧ Entry.amount duplicate = Entry.amount original
        ∧ Entry.category duplicate = Entry.category original
        ∧ Entry.date duplicate = Entry.date original
        ∧ Entry.parentId duplicate = Entry.parentId original
        ∧ Entry.id duplicate = uuid
        ∧ Entry.createdAt duplicate = now
        ∧ getEntry uuid s' = Some duplicate
        ∧ (∀ k, k ≠ uuid → getEntry k s' = getEntry k s)
        ∧ getParent (Entry.parentId original) s'
          = Some (Parent.set_totalExpenses
                    (Spec.recomputed (Entry.parentId original) s') group)
        ∧ (∀ k, k ≠ Entry.parentId original → getParent k s' = getParent k s)
        ∧ (Spec.totals_current s → Spec.totals_current s').
Proof.
  split; [|split; [|split]].
  - unfold duplicateEntry. by intros ->.
  - intros [original Horig] [e He]. unfold duplicateEntry. rewrite Horig.
    unfold getEntry in He. apply get_Some in He as [_ He].
    unfold IDB.add. simpl. by rewrite He.
  - intros duplicate s' Hdup k e He Hk. unfold duplicateEntry in Hdup.
    destruct (getEntry id s) as [original|]; [|done].
    unfold IDB.add in Hdup.
    destruct (entries s !! IDB.key (copy_of original uuid now)) eqn:Hfree; [done|].
    destruct (updateParentTotal _ _) as [s1 [v|err|]]; [|done..].
    injection Hdup as _ <-. simpl in Hk, Hfree. subst k.
    unfold getEntry in He. apply get_Some in He as [_ He]. congruence.
  - intros original group Horig Hgroup Hfresh.
    set (duplicate := copy_of original uuid now).
    set (s1 := set_entries (IDB.put duplicate (entries s)) s).
    assert (entries s !! uuid = None) as Hfree by (by apply (get_None (A:=Entry.t))).
    set (group' := Parent.set_totalExpenses
                     (Spec.recomputed (Entry.parentId original) s1) group).
    assert (Parent.id group = Entry.parentId original) as Hgid.
    { unfold getParent in Hgroup. by apply get_Some in Hgroup as [? _]. }
    assert (duplicateEntry uuid now id s
            = (set_parents (IDB.put group' (parents s1)) s1, Resolved duplicate)) as Hdup.
    { unfold duplicateEntry. rewrite Horig. fold duplicate.
      rewrite (add_Some duplicate) by done. fold s1.
      by rewrite (updateParentTotal_known _ s1 group). }
    exists duplicate, (set_parents (IDB.put group' (parents s1)) s1).
    split; [exact Hdup|]. repeat (split; [reflexivity|]).
    split; [|split; [|split; [|split]]].
    + exact (get_put_eq duplicate (entries s)).
    + intros k Hk. unfold getEntry. cbn [entries set_entries set_parents s1].
      apply (get_put_ne duplicate). simpl. congruence.
    + unfold getParent. cbn [parents set_parents].
      change (Parent.set_totalExpenses _ group) with group'.
      rewrite <- Hgid. exact (get_put_eq group' (parents s1)).
    + intros k Hk. unfold getParent. cbn [parents set_parents set_entries s1].
      apply (get_put_ne group'). simpl. congruence.
    + intros Hs. pose proof (duplicateEntry_totals uuid now id s Hs) as Hcurrent.
      by rewrite Hdup in Hcurrent.
Qed.

(** [duplicateEntry_spec] in a store with one expense: for an unused id,
    for the id of the expense as the generated id, and for the expense. *)
Lemma duplicateEntry_spec_witness :
  duplicateEntry "e-2" 4000 "e-7" Scenario.with_coffee
    = (Scenario.with_coffee, Rejected EntryNotFound)
  ∧ duplicateEntry "e-1" 4000 "e-1" Scenario.with_coffee
    = (Scenario.with_coffee, Rejected ConstraintError)
  ∧ ∃ s' : ExpenseDB.t,
      duplicateEntry "e-2" 4000 "e-1" Scenario.with_coffee
        = (s', Resolved (Entry.mk "e-2" "2024-01" "Coffee" 5 "Food" 3000 4000))
      ∧ getParent "2024-01" s' = Some (Parent.mk "2024-01" "January" 1000 10)
      ∧ Spec.totals_current s'.
Proof.
  destruct (duplicateEntry_spec "e-2" 4000 "e-7" Scenario.with_coffee) as [Hmissing _].
  destruct (duplicateEntry_spec "e-1" 4000 "e-1" Scenario.with_coffee) as (_ & Htaken & _).
  destruct (duplicateEntry_spec "e-2" 4000 "e-1" Scenario.with_coffee) as (_ & _ & _ & H).
  split; [|split].
  - apply Hmissing. vm_compute. reflexivity.
  - apply Htaken; vm_compute; by eexists.
  - destruct (H Scenario.coffee (Parent.mk "2024-01" "January" 1000 5))
      as (duplicate & s' & Hdup & _ & _ & _ & _ & _ & _ & _ & _ & _ & Hg & _ & Hcurrent);
      [vm_compute; reflexivity..|].
    exists s'. split; [|split].
    + rewrite Hdup. f_equal. vm_compute in Hdup. by injection Hdup as _ <-.
    + etrans; [exact Hg|]. vm_compute in Hdup. injection Hdup as <- _.
      vm_compute. reflexivity.
    + apply Hcurrent, with_coffee_current.
Defined.

(** ** Categories *)

(** Adding a category whose id and name are not taken. *)
Lemma add_category_Some (c : Category.t) (m : gmap string Category.row) :
  m !! Category.id c = None →
  (∀ c' : Category.t, IDB.get (Category.id c') m = Some c' → Category.name c' ≠ Category.name c) →
  add_category c m = Some (IDB.put c m).
Proof.
  intros Hid Hname. unfold add_category.
  destruct (existsb _ _) eqn:Hex.
  - apply existsb_exists in Hex as (c' & Hin & Heq).
    apply list_elem_of_In, elem_of_getAll in Hin. apply String.eqb_eq in Heq.
    destruct (Hname c'); [|done]. by apply get_Some.
  - by apply (add_Some c).
Qed.

(** Adding a category whose id is taken fails. *)
Lemma add_category_taken (c : Category.t) (m : gmap string Category.row) :
  is_Some (m !! Category.id c) → add_category c m = None.
Proof.
  intros [b Hb]. unfold add_category. destruct (existsb _ _); [done|].
  unfold IDB.add. simpl. by rewrite Hb.
Qed.

(** Against claim C7 as stated: the first call need not succeed, and then
    the second need not fail.

    After [init] the id "food" belongs to the default category "Food":
    of the two calls for "FOOD" and "food", which have that id, the first
    is rejected with a ConstraintError.

    After the import of a backup with the category [{ id: "x", name:
    "Pets" }], the id "pets" is free but the name "Pets" is taken: of the
    two calls for "Pets" and "PETS" the first is rejected by the unique
    index on the name, and the second resolves. *)
Lemma createCategory_first_call_rejected :
  (category_id "FOOD" = category_id "food"
   ∧ createCategory 600 "FOOD" false Scenario.seeded
     = (Scenario.seeded, Rejected ConstraintError))
  ∧ (category_id "Pets" = category_id "PETS"
     ∧ createCategory 600 "Pets" false Scenario.with_pets
       = (Scenario.with_pets, Rejected ConstraintError)
     ∧ ∃ s' : ExpenseDB.t,
         createCategory 601 "PETS" false Scenario.with_pets
         = (s', Resolved (Category.mk "pets" "PETS" false 601))).
Proof.
  split; [split; vm_compute; reflexivity|].
  split; [vm_compute; reflexivity|]. split; [vm_compute; reflexivity|].
  eexists. vm_compute. reflexivity.
Qed.

(** Claim C7, amended: two calls of [createCategory] with names that have
    the same derived id, on a store that holds neither that id nor the
    first name.  The first call resolves with the category it stored; the
    second is rejected with a ConstraintError and leaves the store as the
    first call left it: the categories of before and the first one. *)
Theorem createCategory_same_id_twice
    (now1 now2 : Z) (name1 name2 : string) (isDefault1 isDefault2 : bool) (s : ExpenseDB.t) :
  category_id name1 = category_id name2 →
  IDB.get (category_id name1) (categories s) = None (A:=Category.t) →
  (∀ c : Category.t, IDB.get (Category.id c) (categories s) = Some c → Category.name c ≠ name1) →
  let first := Category.mk (category_id name1) name1 isDefault1 now1 in
  ∃ s1 : ExpenseDB.t,
    createCategory now1 name1 isDefault1 s = (s1, Resolved first)
    ∧ createCategory now2 name2 isDefault2 s1 = (s1, Rejected ConstraintError)
    ∧ ∀ c : Category.t,
        IDB.get (Category.id c) (categories s1) = Some c ↔
        c = first ∨ IDB.get (Category.id c) (categories s) = Some c.
Proof.
  intros Hsame Hfree Hname first. apply get_None in Hfree.
  exists (set_categories (IDB.put first (categories s)) s).
  split; [|split].
  - unfold createCategory. fold first. by rewrite (add_category_Some first).
  - unfold createCategory. rewrite add_category_taken; [done|].
    cbn. rewrite <- Hsame. unfold IDB.put. cbn. rewrite lookup_insert_eq. by eexists.
  - intros c. cbn [categories set_categories].
    destruct (decide (Category.id c = category_id name1)) as [Hc|Hc].
    + replace (IDB.get (Category.id c) (IDB.put first (categories s))) with (Some first)
        by (rewrite Hc; symmetry; exact (get_put_eq first _)).
      split.
      * intros [= <-]. by left.
      * intros [->|Hg]; [done|]. apply get_Some in Hg as [_ Hg]. congruence.
    + rewrite (get_put_ne first) by (simpl; congruence). split; [by right|].
      intros [->|?]; [by destruct Hc | done].
Qed.

(** [createCategory_same_id_twice] for two spellings of one name. *)
Lemma createCategory_same_id_twice_witness :
  ∃ s1 : ExpenseDB.t,
    createCategory 10 "Bills & Utilities" true empty
      = (s1, Resolved (Category.mk "bills-&-utilities" "Bills & Utilities" true 10))
    ∧ createCategory 20 "bills   &  UTILITIES" false s1 = (s1, Rejected ConstraintError)
    ∧ ∀ c : Category.t,
        IDB.get (Category.id c) (categories s1) = Some c ↔
        c = Category.mk "bills-&-utilities" "Bills & Utilities" true 10
        ∨ IDB.get (Category.id c) (categories empty) = Some c.
Proof.
  apply (createCategory_same_id_twice 10 20 "Bills & Utilities" "bills   &  UTILITIES" true false empty).
  - vm_compute. reflexivity.
  - vm_compute. reflexivity.
  - intros c Hc. vm_compute in Hc. discriminate Hc.
Defined.

(** Derived ids: lower case, one hyphen for each run of white space, no
    trimming. *)
Lemma category_id_examples :
  category_id "Bills & Utilities" = "bills-&-utilities"
  ∧ category_id "Health  &	Medical" = "health-&-medical"
  ∧ category_id " Food" = "-food".
Proof. repeat split; vm_compute; reflexivity. Qed.

(** Against claim C8 as stated: for an id under which nothing is stored,
    hence no default category, [deleteCategory] is rejected with 'Cannot
    delete default category'. *)
Lemma deleteCategory_absent_rejects :
  IDB.get "travel" (categories empty) = None (A:=Category.t)
  ∧ deleteCategory "travel" empty = (empty, Rejected CannotDeleteDefault).
Proof. split; reflexivity. Qed.

(** Claim C8, amended.  [deleteCategory(id)] is rejected with 'Cannot
    delete default category' exactly when no category is stored under the
    id or the stored one has [isDefault = true], and then the store is
    unchanged; for a stored category that is not a default it resolves,
    and [getCategories()] then lists the categories of before without the
    one of that id. *)
Theorem deleteCategory_spec (id : string) (s : ExpenseDB.t) :
  ((deleteCategory id s).2 = Rejected CannotDeleteDefault ↔
     IDB.get id (categories s) = None (A:=Category.t)
     ∨ ∃ c : Category.t, IDB.get id (categories s) = Some c ∧ Category.isDefault c = true)
  ∧ ((deleteCategory id s).2 = Rejected CannotDeleteDefault → (deleteCategory id s).1 = s)
  ∧ ∀ c : Category.t,
      IDB.get id (categories s) = Some c → Category.isDefault c = false →
      (deleteCategory id s).2 = Resolved tt
      ∧ ∀ localeCompare (c' : Category.t),
          c' ∈ getCategories localeCompare (deleteCategory id s).1 ↔
          Category.id c' ≠ id ∧ c' ∈ getCategories localeCompare s.
Proof.
  unfold deleteCategory.
  destruct (IDB.get id (categories s)) as [c|] eqn:Hget.
  - destruct (Category.isDefault c) eqn:Hd; simpl.
    + split; [|split]; [| done |].
      * split; [intros _; right; by exists c | done].
      * intros c0 [= <-]. congruence.
    + split; [|split]; [| done |].
      * split; [done|]. intros [?|(c0 & [= <-] & ?)]; congruence.
      * intros c0 [= <-] _. split; [done|]. intros cmp c'.
        rewrite !elem_of_getCategories. unfold IDB.get. simpl.
        destruct (decide (Category.id c' = id)) as [->|Hne].
        -- rewrite lookup_delete_eq. simpl. split; [done | tauto].
        -- rewrite lookup_delete_ne by done. tauto.
  - simpl. split; [|split]; [| done |].
    + split; [by left | done].
    + intros ? [=].
Qed.

(** [deleteCategory_spec] after [init] and one category of the user. *)
Lemma deleteCategory_spec_witness :
  deleteCategory "food" Scenario.with_pet_care
    = (Scenario.with_pet_care, Rejected CannotDeleteDefault)
  ∧ (deleteCategory "pet-care" Scenario.with_pet_care).2 = Resolved tt
  ∧ ∀ c : Category.t,
      c ∈ getCategories compare_strings (deleteCategory "pet-care" Scenario.with_pet_care).1 →
      Category.id c ≠ "pet-care".
Proof.
  split; [|split].
  - destruct (deleteCategory_spec "food" Scenario.with_pet_care) as (Hiff & Hsame & _).
    assert ((deleteCategory "food" Scenario.with_pet_care).2 = Rejected CannotDeleteDefault)
      as Hrej.
    { apply Hiff. right. exists (Category.mk "food" "Food" true 500).
      split; vm_compute; reflexivity. }
    specialize (Hsame Hrej).
    destruct (deleteCategory "food" Scenario.with_pet_care) as [s' r].
    simpl in *. by subst.
  - destruct (deleteCategory_spec "pet-care" Scenario.with_pet_care) as (_ & _ & Hdel).
    apply (Hdel (Category.mk "pet-care" "Pet Care" false 600)); vm_compute; reflexivity.
  - intros c Hc.
    destruct (deleteCategory_spec "pet-care" Scenario.with_pet_care) as (_ & _ & Hdel).
    destruct (Hdel (Category.mk "pet-care" "Pet Care" false 600)) as [_ Hlist];
      [vm_compute; reflexivity..|].
    by apply Hlist in Hc as [Hne _].
Defined.

(** None of the nine categories of [init] can be deleted. *)
Lemma seeded_defaults_are_protected :
  Forall (λ name, deleteCategory (category_id name) Scenario.seeded
                  = (Scenario.seeded, Rejected CannotDeleteDefault))
    defaultCategories.
Proof. repeat constructor; vm_compute; reflexivity. Qed.

(** ** Export *)

(** Entries collected group by group, for groups of distinct ids: no
    entry twice. *)
Lemma NoDup_collected (ps : list Parent.t) (s : ExpenseDB.t) :
  NoDup (Parent.id <$> ps) →
  NoDup (List.concat ((λ parent, getEntriesByParent (Parent.id parent) s) <$> ps)).
Proof.
  induction ps as [|p ps IH]; simpl; [constructor|].
  intros Hnd. apply NoDup_cons in Hnd as [Hp Hps].
  apply NoDup_app. split; [apply NoDup_getEntriesByParent|]. split; [|by apply IH].
  intros e He Hin. apply elem_of_getEntriesByParent in He as [He _].
  apply list_elem_of_In, in_concat in Hin as (l & Hl & Hel).
  apply list_elem_of_In, list_elem_of_fmap in Hl as (p' & -> & Hp').
  apply list_elem_of_In, elem_of_getEntriesByParent in Hel as [He' _].
  apply Hp. apply list_elem_of_fmap. exists p'. split; [congruence | done].
Qed.

(** The collected entries are the stored entries of the listed groups. *)
Lemma elem_of_collected (e : Entry.t) (ps : list Parent.t) (s : ExpenseDB.t) :
  e ∈ List.concat ((λ parent, getEntriesByParent (Parent.id parent) s) <$> ps) ↔
  getEntry (Entry.id e) s = Some e ∧ Entry.parentId e ∈ Parent.id <$> ps.
Proof.
  rewrite list_elem_of_In, in_concat. split.
  - intros (l & Hl & Hel).
    apply list_elem_of_In, list_elem_of_fmap in Hl as (p & -> & Hp).
    apply list_elem_of_In, elem_of_getEntriesByParent in Hel as [He Hg].
    split; [done|]. apply list_elem_of_fmap. by exists p.
  - intros [Hg Hin]. apply list_elem_of_fmap in Hin as (p & Hp & Hin).
    exists (getEntriesByParent (Parent.id p) s). split.
    + apply list_elem_of_In, list_elem_of_fmap. by exists p.
    + apply list_elem_of_In, elem_of_getEntriesByParent. by split.
Qed.

(** Claim C10: the [entries] list of [exportData()] holds, each once,
    exactly the stored entries whose [parentId] is the id of a stored
    group; an entry whose [parentId] names no stored group is not in
    it. *)
Theorem exportData_entries
    (localeCompare : string → string → Z) (exportDate : string) (s : ExpenseDB.t) :
  ∃ exported : list Entry.t,
    Snapshot.entries (exportData localeCompare exportDate s) = Array exported
    ∧ NoDup exported
    ∧ ∀ e : Entry.t,
        e ∈ exported ↔
        getEntry (Entry.id e) s = Some e ∧ is_Some (getParent (Entry.parentId e) s).
Proof.
  eexists. split; [reflexivity|]. split.
  - apply NoDup_collected, NoDup_getAllParents_ids.
  - intros e. by rewrite elem_of_collected, elem_of_parent_ids.
Qed.

(** ** Import *)

(** The category loop of [importData] resolves and touches the categories
    only. *)
Lemma import_categories_ok (cs : list Category.t) (s : ExpenseDB.t) :
  ∃ m, for_of cs import_category s = (set_categories m s, Resolved tt).
Proof.
  revert s. induction cs as [|c cs IH]; intros s; simpl.
  - exists (categories s). by destruct s.
  - unfold import_category at 1. destruct (add_category c (categories s)) as [m|]; simpl.
    + destruct (IH (set_categories m s)) as [m' ->]. by exists m'.
    + apply IH.
Qed.

(** The group loop of [importData] for groups of distinct, unused ids. *)
Lemma import_parents_ok (l : list Parent.t) (s : ExpenseDB.t) :
  NoDup (Parent.id <$> l) →
  (∀ p, p ∈ l → parents s !! Parent.id p = None) →
  for_of l import_parent s
  = (set_parents (foldl (λ m r, IDB.put r m) (parents s) l) s, Resolved tt).
Proof.
  revert s. induction l as [|p l IH]; intros s Hnd Hfree; simpl.
  - by rewrite set_parents_id.
  - change (Parent.id <$> p :: l) with (Parent.id p :: (Parent.id <$> l)) in Hnd.
    apply NoDup_cons in Hnd as [Hp Hl].
    unfold import_parent at 1. rewrite (add_Some p) by (apply Hfree; left). simpl.
    rewrite IH; [by destruct s | done |].
    intros p' Hp'. cbn. unfold IDB.put. rewrite lookup_insert_ne.
    + apply Hfree. by right.
    + simpl. intros Heq. apply Hp, list_elem_of_fmap. by exists p'.
Qed.

(** The entry loop of [importData] for entries of distinct, unused ids. *)
Lemma import_entries_ok (l : list Entry.t) (s : ExpenseDB.t) :
  NoDup (Entry.id <$> l) →
  (∀ e, e ∈ l → entries s !! Entry.id e = None) →
  for_of l import_entry s
  = (set_entries (foldl (λ m r, IDB.put r m) (entries s) l) s, Resolved tt).
Proof.
  revert s. induction l as [|e l IH]; intros s Hnd Hfree; simpl.
  - by rewrite set_entries_id.
  - change (Entry.id <$> e :: l) with (Entry.id e :: (Entry.id <$> l)) in Hnd.
    apply NoDup_cons in Hnd as [He Hl].
    unfold import_entry at 1. rewrite (add_Some e) by (apply Hfree; left). simpl.
    rewrite IH; [by destruct s | done |].
    intros e' He'. cbn. unfold IDB.put. rewrite lookup_insert_ne.
    + apply Hfree. by right.
    + simpl. intros Heq. apply He, list_elem_of_fmap. by exists e'.
Qed.

(** Storing the listed groups again gives the [parents] store back. *)
Lemma reimported_parents (s : ExpenseDB.t) :
  foldl (λ m r, IDB.put r m) ∅ (getAllParents s) = parents s.
Proof.
  apply map_eq_Some. intros k b.
  rewrite lookup_foldl_put by exact (NoDup_getAllParents_ids s).
  rewrite lookup_empty, elem_of_getAllParents. unfold getParent.
  rewrite get_Some, IDB.fields_record.
  assert (Parent.id (IDB.record k b) = k) as -> by exact (IDB.key_record k b).
  split.
  - intros [[_ ?]|[_ ?]]; [done | discriminate].
  - intros ?. left. split; [apply IDB.key_record | done].
Qed.

(** Against claim C3 as stated.  The store left by [createEntry] for a
    group that does not exist holds the entry "e-1"; the import of its
    export into an empty database resolves, and "e-1" is not stored
    there. *)
Lemma export_then_import_loses_orphan :
  getEntry "e-1" Scenario.orphaned = Some Scenario.coffee
  ∧ ∃ s' : ExpenseDB.t,
      importData (exportData compare_strings "2024-03-01T00:00:00.000Z" Scenario.orphaned) empty
        = (s', Resolved tt)
      ∧ getEntry "e-1" s' = None.
Proof.
  split; [reflexivity|]. eexists. split; [vm_compute; reflexivity | reflexivity].
Qed.

(** Claim C3, amended.  For every store [s], the import of
    [exportData()] of [s], into any database, resolves, and the resulting
    database has the groups of [s], with their ids, fields and stored
    totals, and exactly those entries of [s] whose [parentId] names a
    stored group of [s]; when [s] has no other entries, the entries are
    those of [s]. *)
Theorem export_then_import
    (localeCompare : string → string → Z) (exportDate : string) (s s0 : ExpenseDB.t) :
  ∃ s' : ExpenseDB.t,
    importData (exportData localeCompare exportDate s) s0 = (s', Resolved tt)
    ∧ parents s' = parents s
    ∧ (∀ (id : string) (e : Entry.t),
         getEntry id s' = Some e ↔
         getEntry id s = Some e ∧ is_Some (getParent (Entry.parentId e) s))
    ∧ (Spec.no_orphans s → entries s' = entries s).
Proof.
  unfold importData, exportData, clearAllData.
  cbn [await Snapshot.categories Snapshot.parents Snapshot.entries
         import_categories import_parents import_entries].
  destruct (import_categories_ok (getCategories localeCompare s) (mk ∅ ∅ (categories s0)))
    as [cats ->].
  cbn [await]. rewrite import_parents_ok;
    [|exact (NoDup_getAllParents_ids s) | intros; apply lookup_empty].
  cbn [await parents set_categories set_parents]. rewrite reimported_parents.
  set (es := List.concat _).
  assert (NoDup (Entry.id <$> es)) as Hids.
  { apply NoDup_fmap_2_strong; [|apply NoDup_collected, NoDup_getAllParents_ids].
    intros e e' He He' Hid. apply elem_of_collected in He as [He _].
    apply elem_of_collected in He' as [He' _]. rewrite Hid in He. congruence. }
  rewrite import_entries_ok; [|done | intros; apply lookup_empty].
  cbn [entries set_entries parents].
  set (m' := foldl _ _ es).
  assert (∀ id (e : Entry.t), IDB.get id m' = Some e ↔
            getEntry id s = Some e ∧ is_Some (getParent (Entry.parentId e) s)) as Hm'.
  { intros id e. rewrite get_Some. unfold m'. split.
    - intros [<- Hl]. apply lookup_foldl_put in Hl as [Hin|[_ Hl]]; [|done | done].
      rewrite IDB.record_eta in Hin. apply elem_of_collected in Hin.
      by rewrite elem_of_parent_ids in Hin.
    - intros [Hg Hp]. pose proof Hg as [Hk _]%get_Some. split; [done|]. subst id.
      apply lookup_foldl_put; [done|]. left. rewrite IDB.record_eta.
      apply elem_of_collected. by rewrite elem_of_parent_ids. }
  eexists. split; [reflexivity|]. cbn [parents entries].
  split; [done|]. split; [exact Hm'|].
  intros Hno. apply map_eq_Some. intros k b.
  pose proof (Hm' k (IDB.record k b)) as H. unfold getEntry in H.
  rewrite !get_Some, IDB.key_record, IDB.fields_record in H.
  split.
  - intros Hl. apply H. done.
  - intros Hl. apply H. split; [done|]. apply (Hno k). unfold getEntry.
    apply get_Some. by rewrite IDB.key_record, IDB.fields_record.
Qed.

(** The only entry of the example store belongs to a stored group. *)
Lemma with_coffee_no_orphans : Spec.no_orphans Scenario.with_coffee.
Proof.
  intros id [i p d a c t x] He. apply get_Some in He as [_ He].
  apply elem_of_map_to_list in He. vm_compute in He.
  apply list_elem_of_singleton in He. injection He as _ -> _ _ _ _ _.
  vm_compute. by eexists.
Defined.

(** [export_then_import] for a store with two groups and one expense. *)
Lemma export_then_import_witness :
  ∃ s' : ExpenseDB.t,
    importData (exportData compare_strings "2024-03-01T00:00:00.000Z" Scenario.with_coffee) empty
      = (s', Resolved tt)
    ∧ parents s' = parents Scenario.with_coffee
    ∧ entries s' = entries Scenario.with_coffee.
Proof.
  destruct (export_then_import compare_strings "2024-03-01T00:00:00.000Z"
              Scenario.with_coffee empty) as (s' & Himp & Hp & _ & He).
  exists s'. split; [exact Himp|]. split; [exact Hp|].
  apply He, with_coffee_no_orphans.
Defined.

(** The category loop of [importData] ends in one of two ways, and
    touches the categories only. *)
Lemma import_categories_ends (x : property Category.t) (s : ExpenseDB.t) :
  ∃ (m : gmap string Category.row) (r : promise unit),
    import_categories x s = (set_categories m s, r)
    ∧ (x ≠ NotIterable ∧ r = Resolved tt ∨ x = NotIterable ∧ r = Rejected TypeError).
Proof.
  destruct x as [| |t|cs]; simpl.
  - exists (categories s), (Resolved tt). split; [by destruct s | by left].
  - exists (categories s), (Rejected TypeError). split; [by destruct s | by right].
  - exists (categories s), (Resolved tt). split; [by destruct s | by left].
  - destruct (import_categories_ok cs s) as [m ->]. exists m, (Resolved tt).
    split; [done | by left].
Qed.





(** ** The fetch listener *)

Import ServiceWorker.

(** Against claim C5 as stated: with an empty cache storage and a network
    that rejects, the promise given to [respondWith] is fulfilled with
    [undefined]; it is not rejected. *)
Lemma fetch_listener_swallows_failure :
  caches_match "/index.html" [] = None
  ∧ fetch_listener (λ _, Rejected NetworkError) "/index.html" [] = ([], Resolved None)
  ∧ ∀ e, (fetch_listener (λ _, Rejected NetworkError) "/index.html" []).2 ≠ Rejected e.
Proof. repeat split. intros e. cbn. discriminate. Qed.

(** Claim C5, amended.  For every request that no cache holds and whose
    [fetch] is rejected, the listener catches the rejection and the
    promise it gives to [respondWith] is fulfilled with [undefined]: no
    response is served in place of the missing one, the caches are
    unchanged, and the rejection is not passed on. *)
Theorem fetch_listener_miss_and_network_failure
    (fetch : string → promise Response) (request : string) (caches : CacheStorage) (e : error) :
  caches_match request caches = None →
  fetch request = Rejected e →
  fetch_listener fetch request caches = (caches, Resolved None).
Proof.
  intros Hmiss Hnet. unfold fetch_listener, and_then, await, catch.
  rewrite Hmiss, Hnet. reflexivity.
Qed.

(** [fetch_listener_miss_and_network_failure] for a style sheet that is
    not in the cache. *)
Lemma fetch_listener_miss_and_network_failure_witness :
  fetch_listener (λ _, Rejected NetworkError) "/css/styles.css"
    [(CACHE_NAME, {["/index.html" := mkResponse 200 "<html>"]})]
  = ([(CACHE_NAME, {["/index.html" := mkResponse 200 "<html>"]})], Resolved None).
Proof.
  apply (fetch_listener_miss_and_network_failure _ _ _ NetworkError); reflexivity.
Defined.

(** * Further properties of the code *)

(** ** Order of the listings *)

(** A list is descending when its head bounds its tail and the tail is
    descending. *)
Lemma descending_cons {A : Type} (key : A → Z) (x : A) (l : list A) :
  Spec.descending key (x :: l) ↔
  Forall (λ y, key y ≤ key x)%Z l ∧ Spec.descending key l.
Proof.
  split.
  - intros H. split.
    + apply Forall_lookup. intros j y Hy. apply (H 0%nat (S j) x y); [lia | done | done].
    + intros i j a b Hij Ha Hb. apply (H (S i) (S j) a b); [lia | done | done].
  - intros [Hx Hl] i j a b Hij Ha Hb. destruct j as [|j]; [lia|].
    simpl in Hb. destruct i as [|i]; simpl in Ha.
    + injection Ha as <-. by apply (Forall_lookup_1 _ _ _ _ Hx Hb).
    + apply (Hl i j a b); [lia | done | done].
Qed.

(** Inserting into a descending list keeps it descending. *)
Lemma sort_insert_descending {A : Type} (key : A → Z) (x : A) (l : list A) :
  Spec.descending key l →
  Spec.descending key (sort_insert (λ a b, key b - key a)%Z x l).
Proof.
  induction l as [|y l IH]; intros Hl; simpl.
  - apply descending_cons. split; [constructor | intros i j a b _ Ha; done].
  - apply descending_cons in Hl as [Hy Hl]. destruct (0 <? key y - key x)%Z eqn:Hcmp.
    + apply Z.ltb_lt in Hcmp. apply descending_cons. split; [|by apply IH].
      rewrite sort_insert_perm. constructor; [lia | done].
    + apply Z.ltb_ge in Hcmp. apply descending_cons. split.
      * constructor; [lia|]. eapply Forall_impl; [exact Hy|]. simpl. intros. lia.
      * by apply descending_cons.
Qed.

(** [sort] with the comparator [(a, b) => key(b) - key(a)] gives a
    descending list. *)
Lemma sort_descending {A : Type} (key : A → Z) (l : list A) :
  Spec.descending key (sort (λ a b, key b - key a)%Z l).
Proof.
  induction l as [|x l IH]; simpl.
  - intros i j a b _ Ha. done.
  - by apply sort_insert_descending.
Qed.

(** [getAllParents()] returns every stored group once, the newest first:
    a group listed after another was not created later. *)
Theorem getAllParents_newest_first (s : ExpenseDB.t) :
  NoDup (getAllParents s)
  ∧ (∀ p : Parent.t, p ∈ getAllParents s ↔ getParent (Parent.id p) s = Some p)
  ∧ Spec.descending Parent.createdAt (getAllParents s).
Proof.
  split; [|split].
  - apply (NoDup_fmap_1 Parent.id), NoDup_getAllParents_ids.
  - intros p. apply elem_of_getAllParents.
  - apply sort_descending.
Qed.


(** ** Groups *)

(** [createParent] never overwrites a group.  With the id taken it is
    rejected with a ConstraintError and the store is unchanged; otherwise
    it resolves with the new group, stored with a total of 0, and every
    other group, every entry and every category is as before.  The id is
    [monthYear] unless that is null or empty. *)
Theorem createParent_spec
    (generated : string) (now : Z) (name : string) (monthYear : option string)
    (s : ExpenseDB.t) :
  ∃ id : string,
    (∀ m, monthYear = Some m → m ≠ "" → id = m)
    ∧ (monthYear = None ∨ monthYear = Some "" → id = generated)
    ∧ (is_Some (getParent id s) →
       createParent generated now name monthYear s = (s, Rejected ConstraintError))
    ∧ (getParent id s = None →
       ∃ s' : ExpenseDB.t,
         createParent generated now name monthYear s
           = (s', Resolved (Parent.mk id name now 0))
         ∧ getParent id s' = Some (Parent.mk id name now 0)
         ∧ (∀ k, k ≠ id → getParent k s' = getParent k s)
         ∧ entries s' = entries s
         ∧ categories s' = categories s).
Proof.
  unfold createParent.
  set (id := match monthYear with
             | Some m => if String.eqb m "" then generated else m
             | None => generated
             end).
  set (parent := Parent.mk id name now 0).
  exists id. split; [|split; [|split]].
  - intros m -> Hm. unfold id. apply String.eqb_neq in Hm. by rewrite Hm.
  - intros [->| ->]; reflexivity.
  - intros [p Hp]. unfold getParent in Hp. apply get_Some in Hp as [_ Hp].
    unfold IDB.add. simpl. by rewrite Hp.
  - intros Hfree. unfold getParent in Hfree. apply get_None in Hfree.
    rewrite (add_Some parent) by done. eexists. split; [reflexivity|].
    split; [exact (get_put_eq parent (parents s))|]. split; [|done].
    intros k Hk. unfold getParent. cbn [parents set_parents].
    apply (get_put_ne parent). simpl. congruence.
Qed.

(** [createParent_spec] for a new month and for a month that has a group. *)
Lemma createParent_spec_witness :
  (∃ s' : ExpenseDB.t,
     createParent "2024-03" 5000 "March" (Some "2024-03") Scenario.with_coffee
       = (s', Resolved (Parent.mk "2024-03" "March" 5000 0))
     ∧ getParent "2024-01" s' = Some (Parent.mk "2024-01" "January" 1000 5))
  ∧ createParent "2024-03" 5000 "Again" (Some "2024-01") Scenario.with_coffee
    = (Scenario.with_coffee, Rejected ConstraintError).
Proof.
  split.
  - destruct (createParent_spec "2024-03" 5000 "March" (Some "2024-03") Scenario.with_coffee)
      as (id & Hid & _ & _ & Hnew).
    rewrite (Hid "2024-03" eq_refl) in Hnew by discriminate.
    destruct Hnew as (s' & Hc & _ & Hother & _); [vm_compute; reflexivity|].
    exists s'. split; [exact Hc|]. rewrite Hother by discriminate.
    vm_compute. reflexivity.
  - destruct (createParent_spec "2024-03" 5000 "Again" (Some "2024-01") Scenario.with_coffee)
      as (id & Hid & _ & Htaken & _).
    rewrite (Hid "2024-01" eq_refl) in Htaken by discriminate.
    apply Htaken. vm_compute. by eexists.
Defined.

(** Running [updateParentTotal] a second time changes nothing. *)
Theorem updateParentTotal_idempotent (parentId : string) (s : ExpenseDB.t) :
  updateParentTotal parentId (updateParentTotal parentId s).1
  = updateParentTotal parentId s.
Proof.
  destruct (getParent parentId s) as [parent|] eqn:Hp.
  - pose proof Hp as [Hid _]%get_Some. simpl in Hid.
    rewrite (updateParentTotal_known parentId s parent Hp). cbn [fst].
    set (parent' := Parent.set_totalExpenses _ parent).
    assert (getParent parentId (set_parents (IDB.put parent' (parents s)) s) = Some parent')
      as Hp'.
    { unfold getParent. cbn [parents set_parents]. rewrite <- Hid.
      exact (get_put_eq parent' (parents s)). }
    rewrite (updateParentTotal_known _ _ parent' Hp').
    change (Spec.recomputed parentId (set_parents _ s)) with (Spec.recomputed parentId s).
    cbn [parents set_parents].
    assert (Parent.set_totalExpenses (Spec.recomputed parentId s) parent' = parent')
      as -> by done.
    f_equal. unfold set_parents. cbn [parents entries categories]. f_equal.
    unfold IDB.put. apply insert_insert_eq.
  - rewrite (updateParentTotal_unknown parentId s Hp). cbn [fst].
    exact (updateParentTotal_unknown parentId s Hp).
Qed.

(** ** Entries *)

(** [parseFloat] gives a number back, but for -0. *)
Lemma parseFloat_number (x : float) : x ≠ (-0)%float → parseFloat x = x.
Proof.
  intros Hx. unfold parseFloat. destruct (PrimFloat.eqb x 0) eqn:E; [|done].
  rewrite eqb_spec in E. rewrite <- (SF2Prim_Prim2SF x) in Hx |- *.
  destruct (Prim2SF x) as [[|]|[|]| |[|] m e]; done.
Qed.

(** After an entry was stored under an unused id, the listing of its group
    has this entry and the entries of before. *)
Lemma getEntriesByParent_put_fresh (e : Entry.t) (s : ExpenseDB.t) :
  getEntry (Entry.id e) s = None →
  getEntriesByParent (Entry.parentId e) (set_entries (IDB.put e (entries s)) s)
  ≡ₚ e :: getEntriesByParent (Entry.parentId e) s.
Proof.
  intros Hfree. apply NoDup_Permutation.
  - apply NoDup_getEntriesByParent.
  - apply NoDup_cons. split; [|apply NoDup_getEntriesByParent].
    intros [_ Hin]%elem_of_getEntriesByParent. congruence.
  - intros x. rewrite elem_of_cons, !elem_of_getEntriesByParent.
    unfold getEntry. cbn [entries set_entries]. rewrite get_put.
    case_decide as Hx.
    + split.
      * intros [_ [= <-]]. by left.
      * intros [->|[_ Hin]]; [done|]. unfold getEntry in Hfree.
        change (IDB.key e) with (Entry.id e) in Hx. congruence.
    + split; [intros ?; by right|]. intros [->|?]; [by destruct Hx | done].
Qed.

(** What [createEntry] does for a stored group and an unused id. *)
Lemma createEntry_known
    (uuid : string) (now now' : Z) (parentId description : string) (amount : float)
    (category : string) (date : option Z) (s : ExpenseDB.t) (group : Parent.t) :
  getParent parentId s = Some group →
  getEntry uuid s = None →
  let entry :=
    Entry.mk uuid parentId description (parseFloat amount) category
      (match date with
       | Some d => if (d =? 0)%Z then now else d
       | None => now
       end) now' in
  let s1 := set_entries (IDB.put entry (entries s)) s in
  let group' := Parent.set_totalExpenses (Spec.recomputed parentId s1) group in
  createEntry uuid now now' parentId description amount category date s
  = (set_parents (IDB.put group' (parents s)) s1, Resolved entry).
Proof.
  intros Hgroup Hfree entry s1 group'. unfold createEntry. fold entry.
  unfold getEntry in Hfree. apply get_None in Hfree.
  rewrite (add_Some entry) by done. fold s1.
  by rewrite (updateParentTotal_known parentId s1 group Hgroup).
Qed.

(** What [updateEntry] does with the object of the entry form, for a
    stored entry of a stored group. *)
Lemma updateEntry_known (id description : string) (amount : float) (category : string)
    (date : Z) (s : ExpenseDB.t) (old : Entry.t) (group : Parent.t) :
  getEntry id s = Some old →
  getParent (Entry.parentId old) s = Some group →
  let new := Entry.mk id (Entry.parentId old) description (parseFloat amount) category
               date (Entry.createdAt old) in
  let s1 := set_entries (IDB.put new (entries s)) s in
  let group' :=
    Parent.set_totalExpenses (Spec.recomputed (Entry.parentId old) s1) group in
  updateEntry id (Updates.of_form description amount category date) s
  = (set_parents (IDB.put group' (parents s)) s1, Resolved new).
Proof.
  intros Hold Hgroup new s1 group'.
  pose proof Hold as [Hid _]%get_Some. simpl in Hid.
  unfold updateEntry. unfold getEntry in Hold. rewrite Hold.
  assert (set_amount (parseFloat amount)
            (assign old (Updates.of_form description amount category date)) = new)
    as Hnew by (unfold new; by rewrite <- Hid).
  cbn [Updates.amount Updates.of_form]. rewrite Hnew. fold s1.
  change (Entry.parentId new) with (Entry.parentId old).
  by rewrite (updateParentTotal_known _ s1 group Hgroup).
Qed.

(** Reading the two stores after the group's total was written. *)
Lemma getParent_total_written (g : string) (group' : Parent.t) (s1 : ExpenseDB.t) :
  Parent.id group' = g →
  getParent g (set_parents (IDB.put group' (parents s1)) s1) = Some group'
  ∧ ∀ k, k ≠ g →
      getParent k (set_parents (IDB.put group' (parents s1)) s1) = getParent k s1.
Proof.
  intros <-. split.
  - exact (get_put_eq group' (parents s1)).
  - intros k Hk. unfold getParent. cbn [parents set_parents].
    apply (get_put_ne group'). simpl. congruence.
Qed.

(** [createEntry] for a stored group.  With the generated id in use it is
    rejected with a ConstraintError and nothing changes.  Otherwise it
    resolves with the new entry, which is stored under the generated id with
    the given fields, the amount read by [parseFloat], and the time of the
    call as [date] when the date is missing or 0; the other entries and the
    other groups are as before; the listing of the group has the new entry
    and the entries of before, and the total of the group is what a
    recomputation gives: the amounts of that listing added up as doubles.
    No total is stale afterwards if none was before. *)
Theorem createEntry_spec
    (uuid : string) (now now' : Z) (parentId description : string) (amount : float)
    (category : string) (date : option Z) (s : ExpenseDB.t) (group : Parent.t) :
  getParent parentId s = Some group →
  (is_Some (getEntry uuid s) →
   createEntry uuid now now' parentId description amount category date s
     = (s, Rejected ConstraintError))
  ∧ (getEntry uuid s = None →
     ∃ (entry : Entry.t) (s' : ExpenseDB.t),
       createEntry uuid now now' parentId description amount category date s
         = (s', Resolved entry)
       ∧ Entry.id entry = uuid
       ∧ Entry.parentId entry = parentId
       ∧ Entry.description entry = description
       ∧ Entry.amount entry = parseFloat amount
       ∧ (amount ≠ (-0)%float → Entry.amount entry = amount)
       ∧ Entry.category entry = category
       ∧ Entry.createdAt entry = now'
       ∧ (date = None ∨ date = Some 0%Z → Entry.date entry = now)
       ∧ (∀ d, date = Some d → d ≠ 0%Z → Entry.date entry = d)
       ∧ getEntry uuid s' = Some entry
       ∧ (∀ k, k ≠ uuid → getEntry k s' = getEntry k s)
       ∧ getEntriesByParent parentId s' ≡ₚ entry :: getEntriesByParent parentId s
       ∧ getParent parentId s'
         = Some (Parent.set_totalExpenses (Spec.recomputed parentId s') group)
       ∧ (∀ k, k ≠ parentId → getParent k s' = getParent k s)
       ∧ (Spec.totals_current s → Spec.totals_current s')).
Proof.
  intros Hgroup. pose proof Hgroup as [Hgid _]%get_Some. simpl in Hgid.
  split.
  - intros [e He]. unfold getEntry in He. apply get_Some in He as [_ He].
    unfold createEntry, IDB.add. simpl. by rewrite He.
  - intros Hfree.
    pose proof (createEntry_known uuid now now' parentId description amount category
                  date s group Hgroup Hfree) as Hcreate.
    cbv zeta in Hcreate.
    set (entry := Entry.mk uuid parentId description (parseFloat amount) category _ now')
      in Hcreate.
    set (s1 := set_entries (IDB.put entry (entries s)) s) in Hcreate.
    set (group' := Parent.set_totalExpenses (Spec.recomputed parentId s1) group) in Hcreate.
    destruct (getParent_total_written parentId group' s1 Hgid) as [Hwritten Hothers].
    exists entry, (set_parents (IDB.put group' (parents s)) s1).
    split; [exact Hcreate|]. repeat (split; [reflexivity|]).
    split; [apply parseFloat_number|]. repeat (split; [reflexivity|]).
    split; [|split; [|split; [|split; [|split; [|split; [|split]]]]]].
    + intros [->| ->]; reflexivity.
    + intros d -> Hd. simpl. apply Z.eqb_neq in Hd. by rewrite Hd.
    + exact (get_put_eq entry (entries s)).
    + intros k Hk. unfold getEntry. cbn [entries set_entries set_parents s1].
      apply (get_put_ne entry). simpl. congruence.
    + exact (getEntriesByParent_put_fresh entry s Hfree).
    + exact Hwritten.
    + exact Hothers.
    + intros Hs.
      pose proof (createEntry_totals uuid now now' parentId description amount category
                    date s Hs) as Hcurrent.
      by rewrite Hcreate in Hcurrent.
Qed.

(** [createEntry_spec] for a second expense in the example store, and for
    the id of the first. *)
Lemma createEntry_spec_witness :
  createEntry "e-1" 4000 4001 "2024-01" "Tea" 3 "Food" None Scenario.with_coffee
    = (Scenario.with_coffee, Rejected ConstraintError)
  ∧ ∃ s' : ExpenseDB.t,
      createEntry "e-2" 4000 4001 "2024-01" "Tea" 3 "Food" None Scenario.with_coffee
        = (s', Resolved (Entry.mk "e-2" "2024-01" "Tea" 3 "Food" 4000 4001))
      ∧ getParent "2024-01" s' = Some (Parent.mk "2024-01" "January" 1000 8)
      ∧ Spec.totals_current s'.
Proof.
  split.
  - apply (createEntry_spec "e-1" 4000 4001 "2024-01" "Tea" 3 "Food" None
             Scenario.with_coffee (Parent.mk "2024-01" "January" 1000 5));
      [vm_compute; reflexivity | vm_compute; by eexists].
  - destruct (createEntry_spec "e-2" 4000 4001 "2024-01" "Tea" 3 "Food" None
                Scenario.with_coffee (Parent.mk "2024-01" "January" 1000 5))
      as [_ H]; [vm_compute; reflexivity|].
    destruct H
      as (entry & s' & Hc & _ & _ & _ & _ & _ & _ & _ & _ & _ & _ & _ & _ & Hg & _ & Hcurrent);
      [vm_compute; reflexivity|].
    exists s'. split; [|split].
    + rewrite Hc. f_equal. vm_compute in Hc. by injection Hc as _ <-.
    + rewrite Hg. vm_compute in Hc. injection Hc as <- _. vm_compute. reflexivity.
    + apply Hcurrent, with_coffee_current.
Defined.

(** [updateEntry].  For an id that is not stored it is rejected with
    'Entry not found' and nothing changes.  For a stored entry of a stored
    group and the fields of the entry form it resolves with the entry, which
    keeps its id, group and creation time and has the new description,
    amount, category and date; the other entries and the other groups are
    as before, and the total of the group is what a recomputation gives:
    the amounts of its listing after the update added up as doubles.  No
    total is stale afterwards if none was before. *)
Theorem updateEntry_spec (id : string) (s : ExpenseDB.t) :
  (∀ updates, getEntry id s = None →
     updateEntry id updates s = (s, Rejected EntryNotFound))
  ∧ ∀ (old : Entry.t) (group : Parent.t) (description : string) (amount : float)
      (category : string) (date : Z),
      getEntry id s = Some old →
      getParent (Entry.parentId old) s = Some group →
      let new := Entry.mk id (Entry.parentId old) description (parseFloat amount) category
                   date (Entry.createdAt old) in
      ∃ s' : ExpenseDB.t,
        updateEntry id (Updates.of_form description amount category date) s
          = (s', Resolved new)
        ∧ getEntry id s' = Some new
        ∧ (∀ k, k ≠ id → getEntry k s' = getEntry k s)
        ∧ getParent (Entry.parentId old) s'
          = Some (Parent.set_totalExpenses (Spec.recomputed (Entry.parentId old) s') group)
        ∧ (∀ k, k ≠ Entry.parentId old → getParent k s' = getParent k s)
        ∧ (Spec.totals_current s → Spec.totals_current s').
Proof.
  split.
  - intros updates Hnone. unfold updateEntry. unfold getEntry in Hnone. by rewrite Hnone.
  - intros old group description amount category date Hold Hgroup new.
    pose proof Hgroup as [Hgid _]%get_Some. simpl in Hgid.
    pose proof Hold as [Hid _]%get_Some. simpl in Hid.
    pose proof (updateEntry_known id description amount category date s old group
                  Hold Hgroup) as Hupdate.
    cbv zeta in Hupdate. fold new in Hupdate.
    set (s1 := set_entries (IDB.put new (entries s)) s) in Hupdate.
    set (group' := Parent.set_totalExpenses _ group) in Hupdate.
    destruct (getParent_total_written (Entry.parentId old) group' s1 Hgid)
      as [Hwritten Hothers].
    exists (set_parents (IDB.put group' (parents s)) s1).
    split; [exact Hupdate|]. split; [|split; [|split; [|split]]].
    + exact (get_put_eq new (entries s)).
    + intros k Hk. unfold getEntry. cbn [entries set_entries set_parents s1].
      apply (get_put_ne new). simpl. congruence.
    + exact Hwritten.
    + exact Hothers.
    + intros Hs.
      pose proof (updateEntry_totals id (Updates.of_form description amount category date)
                    s eq_refl eq_refl Hs) as Hcurrent.
      by rewrite Hupdate in Hcurrent.
Qed.

(** [updateEntry_spec] for an id that is not stored and for the expense of
    the example store, whose amount goes from 5 to 7. *)
Lemma updateEntry_spec_witness :
  updateEntry "e-7" Scenario.to_february Scenario.with_coffee
    = (Scenario.with_coffee, Rejected EntryNotFound)
  ∧ ∃ s' : ExpenseDB.t,
      updateEntry "e-1" (Updates.of_form "Latte" 7 "Food" 3500) Scenario.with_coffee
        = (s', Resolved (Entry.mk "e-1" "2024-01" "Latte" 7 "Food" 3500 3001))
      ∧ getParent "2024-01" s' = Some (Parent.mk "2024-01" "January" 1000 7).
Proof.
  destruct (updateEntry_spec "e-7" Scenario.with_coffee) as [Hmissing _].
  destruct (updateEntry_spec "e-1" Scenario.with_coffee) as [_ Hform].
  split.
  - apply Hmissing. vm_compute. reflexivity.
  - destruct (Hform Scenario.coffee (Parent.mk "2024-01" "January" 1000 5)
                "Latte" 7%float "Food" 3500%Z) as (s' & Hu & _ & _ & Hg & _);
      [vm_compute; reflexivity..|].
    exists s'. split; [exact Hu|]. etrans; [exact Hg|].
    vm_compute in Hu. injection Hu as <-. vm_compute. reflexivity.
Defined.

(** [deleteEntry].  For an id that is not stored it resolves and nothing
    changes.  For a stored entry of a stored group it resolves, the entry
    is gone, the other entries and the other groups are as before, and the
    total of the group is what a recomputation gives: the amounts of the
    entries left in its listing added up as doubles.  No total is stale
    afterwards if none was before. *)
Theorem deleteEntry_spec (id : string) (s : ExpenseDB.t) :
  (∀ updateTotal, getEntry id s = None →
     deleteEntry id updateTotal s = (s, Resolved tt))
  ∧ ∀ (entry : Entry.t) (group : Parent.t),
      getEntry id s = Some entry →
      getParent (Entry.parentId entry) s = Some group →
      ∃ s' : ExpenseDB.t,
        deleteEntry id true s = (s', Resolved tt)
        ∧ getEntry id s' = None
        ∧ (∀ k, k ≠ id → getEntry k s' = getEntry k s)
        ∧ (∀ e, e ∈ getEntriesByParent (Entry.parentId entry) s' ↔
                e ≠ entry ∧ e ∈ getEntriesByParent (Entry.parentId entry) s)
        ∧ getParent (Entry.parentId entry) s'
          = Some (Parent.set_totalExpenses
                    (Spec.recomputed (Entry.parentId entry) s') group)
        ∧ (∀ k, k ≠ Entry.parentId entry → getParent k s' = getParent k s)
        ∧ (Spec.totals_current s → Spec.totals_current s').
Proof.
  split.
  - intros updateTotal Hnone. unfold deleteEntry. unfold getEntry in Hnone.
    by rewrite Hnone.
  - intros entry group Hentry Hgroup.
    pose proof Hgroup as [Hgid _]%get_Some. simpl in Hgid.
    pose proof Hentry as [Hid Hrow]%get_Some. simpl in Hid. subst id.
    set (s1 := set_entries (delete (Entry.id entry) (entries s)) s).
    set (group' := Parent.set_totalExpenses
                     (Spec.recomputed (Entry.parentId entry) s1) group).
    assert (deleteEntry (Entry.id entry) true s
            = (set_parents (IDB.put group' (parents s)) s1, Resolved tt)) as Hdelete.
    { unfold deleteEntry. unfold getEntry in Hentry. rewrite Hentry. fold s1.
      by rewrite (updateParentTotal_known _ s1 group Hgroup). }
    destruct (getParent_total_written (Entry.parentId entry) group' s1 Hgid)
      as [Hwritten Hothers].
    exists (set_parents (IDB.put group' (parents s)) s1).
    split; [exact Hdelete|]. split; [|split; [|split; [|split; [|split]]]].
    + unfold getEntry, IDB.get. cbn. by rewrite lookup_delete_eq.
    + intros k Hk. unfold getEntry, IDB.get. cbn. by rewrite lookup_delete_ne.
    + intros e. rewrite !elem_of_getEntriesByParent. unfold getEntry, IDB.get.
      cbn [entries set_entries set_parents s1].
      destruct (decide (Entry.id e = Entry.id entry)) as [He|He].
      * rewrite He, lookup_delete_eq. split; [intros [_ ?]; done|].
        intros (Hne & _ & Hget). destruct Hne.
        assert (Some e = Some entry) as Heq by (rewrite <- Hget; exact Hentry).
        by injection Heq.
      * rewrite lookup_delete_ne by done. split; [|tauto].
        intros [Hp Hget]. split; [|done]. intros ->. done.
    + exact Hwritten.
    + exact Hothers.
    + intros Hs. pose proof (deleteEntry_totals (Entry.id entry) s Hs) as Hcurrent.
      by rewrite Hdelete in Hcurrent.
Qed.

(** [deleteEntry_spec] in the example store. *)
Lemma deleteEntry_spec_witness :
  deleteEntry "e-7" true Scenario.with_coffee = (Scenario.with_coffee, Resolved tt)
  ∧ ∃ s' : ExpenseDB.t,
      deleteEntry "e-1" true Scenario.with_coffee = (s', Resolved tt)
      ∧ getEntry "e-1" s' = None
      ∧ getParent "2024-01" s' = Some (Parent.mk "2024-01" "January" 1000 0).
Proof.
  destruct (deleteEntry_spec "e-7" Scenario.with_coffee) as [Hmissing _].
  destruct (deleteEntry_spec "e-1" Scenario.with_coffee) as [_ Hstored].
  split.
  - apply Hmissing. vm_compute. reflexivity.
  - destruct (Hstored Scenario.coffee (Parent.mk "2024-01" "January" 1000 5))
      as (s' & Hd & Hgone & _ & _ & Hg & _); [vm_compute; reflexivity..|].
    exists s'. split; [exact Hd|]. split; [exact Hgone|].
    etrans; [exact Hg|]. vm_compute in Hd. injection Hd as <-. vm_compute. reflexivity.
Defined.

(** However [deleteEntry] ends, the entry is not stored afterwards, and a
    second call for the same id resolves without changing anything. *)
Theorem deleteEntry_again (id : string) (updateTotal updateTotal' : bool) (s : ExpenseDB.t) :
  getEntry id (deleteEntry id updateTotal s).1 = None
  ∧ deleteEntry id updateTotal' (deleteEntry id updateTotal s).1
    = ((deleteEntry id updateTotal s).1, Resolved tt).
Proof.
  assert (getEntry id (deleteEntry id updateTotal s).1 = None) as Hgone.
  { unfold deleteEntry. destruct (IDB.get id (entries s)) as [entry|] eqn:Hget; [|done].
    assert (getEntry id (set_entries (delete id (entries s)) s) = None) as Hdel.
    { unfold getEntry, IDB.get. cbn. by rewrite lookup_delete_eq. }
    destruct updateTotal; [|done]. rewrite in_handler_state.
    unfold updateParentTotal.
    destruct (IDB.get (Entry.parentId entry) (parents _)); exact Hdel. }
  split; [exact Hgone|].
  unfold deleteEntry at 1. unfold getEntry in Hgone. by rewrite Hgone.
Qed.

(** ** Deleting a group keeps the store consistent *)

(** The store [deleteParent] leaves. *)
Lemma deleteParent_state (id : string) (s : ExpenseDB.t) :
  deleteParent id s
  = (mk (delete id (parents s))
        (foldl (λ m e, delete (Entry.id e) m) (entries s) (getEntriesByParent id s))
        (categories s),
     Resolved tt).
Proof. unfold deleteParent. rewrite cascade_deletes. reflexivity. Qed.

(** The entries that survive the cascade are those of the other groups. *)
Lemma cascade_survivors (id : string) (s : ExpenseDB.t) (e : Entry.t) :
  getEntry (Entry.id e) (deleteParent id s).1 = Some e ↔
  Entry.parentId e ≠ id ∧ getEntry (Entry.id e) s = Some e.
Proof.
  rewrite deleteParent_state. unfold getEntry. rewrite !get_Some. cbn.
  rewrite lookup_foldl_delete. case_decide as Hin.
  - split; [intros [_ ?]; done|]. intros [Hne [_ He]]. exfalso.
    apply list_elem_of_fmap in Hin as (e' & Hid & He').
    apply elem_of_getEntriesByParent in He' as [Hp' Hg'].
    apply get_Some in Hg' as [_ Hl']. rewrite <- Hid in Hl'.
    rewrite He in Hl'. injection Hl' as Hf.
    assert (e = e') as <-; [|done].
    rewrite <- (IDB.record_eta e), <- (IDB.record_eta e'). simpl in *. congruence.
  - split; [|tauto]. intros [_ He]. split; [|done]. intros Hp. apply Hin.
    apply list_elem_of_fmap. exists e. split; [done|].
    apply elem_of_getEntriesByParent. split; [done|]. by apply get_Some.
Qed.

(** Deleting entries of other groups leaves the sum of a group. *)
Lemma sum_after_deletions (g : string) (l : list Entry.t) (s : ExpenseDB.t) :
  (∀ e row, e ∈ l → entries s !! Entry.id e = Some row →
            Entry.parentId (IDB.record (Entry.id e) row : Entry.t) ≠ g) →
  Spec.sum_of_amounts g
    (set_entries (foldl (λ m e, delete (Entry.id e) m) (entries s) l) s)
  = Spec.sum_of_amounts g s.
Proof.
  revert s. induction l as [|e l IH]; intros s Hl; simpl.
  - by rewrite set_entries_id.
  - specialize (IH (set_entries (delete (Entry.id e) (entries s)) s)).
    cbn [entries set_entries] in IH.
    assert (set_entries
              (foldl (λ m e0, delete (Entry.id e0) m) (delete (Entry.id e) (entries s)) l)
              (set_entries (delete (Entry.id e) (entries s)) s)
            = set_entries
                (foldl (λ m e0, delete (Entry.id e0) m) (delete (Entry.id e) (entries s)) l)
                s) as Heq by (by destruct s).
    rewrite Heq in IH. rewrite IH.
    + destruct (entries s !! Entry.id e) as [row|] eqn:Hrow.
      * apply (sum_of_amounts_delete_other g _ row s Hrow).
        apply (Hl e row); [by left | done].
      * rewrite delete_id by done. by rewrite set_entries_id.
    + intros e' row He' Hrow. apply (Hl e' row); [by right|].
      destruct (decide (Entry.id e' = Entry.id e)) as [Heq'|Hne].
      * rewrite Heq', lookup_delete_eq in Hrow. done.
      * by rewrite lookup_delete_ne in Hrow.
Qed.

(** [deleteParent] keeps the totals exact and creates no orphan: if every
    group carried the sum of its entries, every remaining group still does,
    and if every entry belonged to a stored group, every remaining entry
    still does. *)
Theorem deleteParent_keeps_consistency (id : string) (s : ExpenseDB.t) :
  (Spec.totals_exact s → Spec.totals_exact (deleteParent id s).1)
  ∧ (Spec.no_orphans s → Spec.no_orphans (deleteParent id s).1).
Proof.
  split.
  - intros Hs g parent Hget. rewrite deleteParent_state in Hget |- *. cbn [fst] in *.
    unfold getParent, IDB.get in Hget. cbn in Hget.
    destruct (decide (g = id)) as [->|Hne]; [by rewrite lookup_delete_eq in Hget|].
    rewrite lookup_delete_ne in Hget by done.
    assert (Spec.sum_of_amounts g
              (mk (delete id (parents s))
                 (foldl (λ m e, delete (Entry.id e) m) (entries s) (getEntriesByParent id s))
                 (categories s))
            = Spec.sum_of_amounts g s) as ->; [|by apply Hs].
    change (Spec.sum_of_amounts g
              (mk (delete id (parents s))
                 (foldl (λ m e, delete (Entry.id e) m) (entries s) (getEntriesByParent id s))
                 (categories s)))
      with (Spec.sum_of_amounts g
              (set_entries
                 (foldl (λ m e, delete (Entry.id e) m) (entries s) (getEntriesByParent id s))
                 s)).
    apply sum_after_deletions. intros e row He Hrow.
    apply elem_of_getEntriesByParent in He as [Hp Hg].
    apply get_Some in Hg as [_ Hg].
    assert (row = IDB.fields e) as -> by congruence.
    intros Hbad. apply Hne. rewrite <- Hbad, <- Hp.
    exact (f_equal Entry.parentId (IDB.record_eta e)).
  - intros Hs k e He. pose proof He as [Hk _]%get_Some. simpl in Hk. subst k.
    apply cascade_survivors in He as [Hne He]. destruct (Hs _ _ He) as [p Hp].
    exists p. rewrite deleteParent_state. cbn [fst].
    unfold getParent, IDB.get in *. cbn. by rewrite lookup_delete_ne.
Qed.

(** [deleteParent_keeps_consistency] in the example store. *)
Lemma deleteParent_keeps_consistency_witness :
  Spec.totals_exact (deleteParent "2024-02" Scenario.with_coffee).1
  ∧ Spec.no_orphans (deleteParent "2024-01" Scenario.with_coffee).1.
Proof.
  split.
  - apply deleteParent_keeps_consistency, with_coffee_totals.
  - apply deleteParent_keeps_consistency, with_coffee_no_orphans.
Defined.

(** ** Categories *)

(** When [store.add] fails on the [categories] store. *)
Lemma add_category_None (c : Category.t) (m : gmap string Category.row) :
  add_category c m = None ↔
  is_Some (m !! Category.id c)
  ∨ ∃ c' : Category.t, IDB.get (Category.id c') m = Some c' ∧ Category.name c' = Category.name c.
Proof.
  split.
  - intros Hnone. destruct (m !! Category.id c) as [row|] eqn:Hid; [left; by eexists|].
    right. unfold add_category in Hnone.
    destruct (existsb _ _) eqn:Hex.
    + apply existsb_exists in Hex as (c' & Hin & Heq).
      apply list_elem_of_In, elem_of_getAll in Hin. apply String.eqb_eq in Heq.
      exists c'. split; [by apply get_Some | done].
    + by rewrite (add_Some c) in Hnone.
  - intros [Htaken|(c' & Hc' & Hname)]; [by apply add_category_taken|].
    unfold add_category.
    assert (existsb (λ c0, String.eqb (Category.name c0) (Category.name c)) (IDB.getAll m) = true)
      as ->; [|done].
    apply existsb_exists. exists c'. split.
    + apply list_elem_of_In, elem_of_getAll. by apply get_Some in Hc' as [_ ?].
    + by apply String.eqb_eq.
Qed.

(** [createCategory] is rejected, with a ConstraintError and without
    changing the store, exactly when the derived id or the name is already
    stored; otherwise it resolves with the category, which is then stored
    with the given name and default flag, beside the categories of before. *)
Theorem createCategory_spec (now : Z) (name : string) (isDefault : bool) (s : ExpenseDB.t) :
  let taken :=
    is_Some (IDB.get (category_id name) (categories s) : option Category.t)
    ∨ ∃ c : Category.t,
        IDB.get (Category.id c) (categories s) = Some c ∧ Category.name c = name in
  let category := Category.mk (category_id name) name isDefault now in
  (taken → createCategory now name isDefault s = (s, Rejected ConstraintError))
  ∧ (¬ taken →
     ∃ s' : ExpenseDB.t,
       createCategory now name isDefault s = (s', Resolved category)
       ∧ parents s' = parents s ∧ entries s' = entries s
       ∧ ∀ c : Category.t,
           IDB.get (Category.id c) (categories s') = Some c ↔
           c = category ∨ IDB.get (Category.id c) (categories s) = Some c).
Proof.
  intros taken category.
  assert (taken ↔ add_category category (categories s) = None) as Htaken.
  { rewrite add_category_None. unfold taken. simpl.
    unfold IDB.get at 1. rewrite fmap_is_Some. tauto. }
  unfold createCategory. fold category. split.
  - intros H. apply Htaken in H. by rewrite H.
  - intros H.
    destruct (add_category category (categories s)) as [m|] eqn:Hadd;
      [|by destruct H; apply Htaken].
    assert (categories s !! category_id name = None) as Hfree.
    { destruct (categories s !! category_id name) eqn:E; [|done].
      rewrite add_category_taken in Hadd; [done | by eexists]. }
    assert (m = IDB.put category (categories s)) as ->.
    { unfold add_category in Hadd. destruct (existsb _ _); [done|].
      rewrite (add_Some category) in Hadd by done. by injection Hadd as <-. }
    eexists. split; [reflexivity|]. split; [done|]. split; [done|].
    intros c. cbn [categories set_categories]. rewrite get_put. simpl.
    case_decide as Hc.
    + split; [intros [= <-]; by left|]. intros [->|Hg]; [done|].
      apply get_Some in Hg as [_ Hg]. rewrite Hc in Hg. congruence.
    + split; [by right|]. intros [->|?]; [by destruct Hc | done].
Qed.

(** [createCategory_spec] after [init]: a new name, and a name that differs
    from a default only in case. *)
Lemma createCategory_spec_witness :
  (∃ s' : ExpenseDB.t,
     createCategory 600 "Pet Care" false Scenario.seeded
       = (s', Resolved (Category.mk "pet-care" "Pet Care" false 600)))
  ∧ createCategory 600 "FOOD" false Scenario.seeded
    = (Scenario.seeded, Rejected ConstraintError).
Proof.
  destruct (createCategory_spec 600 "Pet Care" false Scenario.seeded) as [_ Hnew].
  destruct (createCategory_spec 600 "FOOD" false Scenario.seeded) as [Htaken _].
  split.
  - destruct Hnew as (s' & Hc & _).
    + intros [[c Hc]|(c & Hc & Hname)].
      * vm_compute in Hc. discriminate Hc.
      * apply get_Some in Hc as [_ Hc]. apply elem_of_map_to_list in Hc.
        destruct c as [i n d x]. simpl in Hname. subst n.
        vm_compute in Hc.
        repeat (apply elem_of_cons in Hc as [Hc|Hc]; [discriminate Hc|]).
        by apply elem_of_nil in Hc.
    + exists s'. etrans; [exact Hc|]. vm_compute. reflexivity.
  - apply Htaken. left. vm_compute. by eexists.
Defined.

(** A category of the user can be taken back: after a successful
    [createCategory] without the default flag, [deleteCategory] of the
    derived id resolves and the store is the one of before. *)
Theorem createCategory_then_delete (now : Z) (name : string) (s s' : ExpenseDB.t)
    (c : Category.t) :
  createCategory now name false s = (s', Resolved c) →
  deleteCategory (category_id name) s' = (s, Resolved tt).
Proof.
  unfold createCategory.
  set (category := Category.mk (category_id name) name false now).
  destruct (add_category category (categories s)) as [m|] eqn:Hadd; [|done].
  intros [= <- _].
  assert (categories s !! category_id name = None) as Hfree.
  { destruct (categories s !! category_id name) eqn:E; [|done].
    rewrite add_category_taken in Hadd; [done | by eexists]. }
  assert (m = IDB.put category (categories s)) as ->.
  { unfold add_category in Hadd. destruct (existsb _ _); [done|].
    rewrite (add_Some category) in Hadd by done. by injection Hadd as <-. }
  unfold deleteCategory. cbn [categories set_categories].
  change (category_id name) with (IDB.key category).
  rewrite (get_put_eq category (categories s)). simpl.
  unfold IDB.put. simpl. rewrite delete_insert_id by done. by destruct s.
Qed.

(** [createCategory_then_delete] after [init]. *)
Lemma createCategory_then_delete_witness :
  deleteCategory "pet-care" Scenario.with_pet_care = (Scenario.seeded, Resolved tt).
Proof.
  apply (createCategory_then_delete 600 "Pet Care" Scenario.seeded Scenario.with_pet_care
           (Category.mk "pet-care" "Pet Care" false 600)).
  vm_compute. reflexivity.
Defined.

(** ** The listing of the categories *)

(** [getCategories()] returns every stored category once, ordered by name:
    with a [localeCompare] that is a consistent comparator, no category of
    the list has a name that compares greater than the name of a later
    one. *)
Theorem getCategories_sorted (localeCompare : string → string → Z) (s : ExpenseDB.t) :
  (∀ a b, 0 < localeCompare a b ↔ localeCompare b a < 0)%Z →
  (∀ a b c, localeCompare a b ≤ 0 → localeCompare b c ≤ 0 → localeCompare a c ≤ 0)%Z →
  NoDup (getCategories localeCompare s)
  ∧ (∀ c : Category.t,
       c ∈ getCategories localeCompare s ↔ IDB.get (Category.id c) (categories s) = Some c)
  ∧ StronglySorted
      (λ a b, localeCompare (Category.name a) (Category.name b) ≤ 0)%Z
      (getCategories localeCompare s).
Proof.
  intros Hanti Htrans. split; [|split].
  - unfold getCategories. rewrite sort_perm. apply NoDup_getAll.
  - intros c. unfold getCategories. rewrite sort_perm, elem_of_getAll, get_Some. simpl. tauto.
  - unfold getCategories.
    apply (sort_sorted (λ a b, localeCompare (Category.name a) (Category.name b))).
    + intros a b. apply Hanti.
    + intros a b c. apply Htrans.
Qed.

(** [getCategories_sorted] after [init], with the order by code units. *)
Lemma getCategories_sorted_witness :
  Category.name <$> getCategories compare_strings Scenario.seeded
  = ["Bills & Utilities"; "Education"; "Entertainment"; "Food"; "Groceries";
     "Health & Medical"; "Others"; "Shopping"; "Transport"]
  ∧ StronglySorted
      (λ a b, compare_strings (Category.name a) (Category.name b) ≤ 0)%Z
      (getCategories compare_strings Scenario.seeded).
Proof.
  split; [vm_compute; reflexivity|].
  apply (getCategories_sorted compare_strings Scenario.seeded
           compare_strings_antisym compare_strings_trans).
Defined.

(** ** Seeding *)

(** One turn of the seeding loop: it resolves, touches the categories only
    and keeps every category that is stored. *)
Lemma seed_turn (now : Z) (name : string) (s : ExpenseDB.t) :
  ∃ s' : ExpenseDB.t,
    catch (and_then (createCategory now name true s) (λ _ s'', (s'', Resolved tt)))
      (λ _ s'', (s'', Resolved tt))
    = (s', Resolved tt)
    ∧ parents s' = parents s ∧ entries s' = entries s
    ∧ (∀ c : Category.t,
         IDB.get (Category.id c) (categories s) = Some c →
         IDB.get (Category.id c) (categories s') = Some c)
    ∧ (categories s = ∅ →
       IDB.get (category_id name) (categories s')
       = Some (Category.mk (category_id name) name true now)).
Proof.
  unfold createCategory.
  set (category := Category.mk (category_id name) name true now).
  destruct (add_category category (categories s)) as [m|] eqn:Hadd; simpl.
  - assert (categories s !! category_id name = None) as Hfree.
    { destruct (categories s !! category_id name) eqn:E; [|done].
      rewrite add_category_taken in Hadd; [done | by eexists]. }
    assert (m = IDB.put category (categories s)) as ->.
    { unfold add_category in Hadd. destruct (existsb _ _); [done|].
      rewrite (add_Some category) in Hadd by done. by injection Hadd as <-. }
    eexists. split; [reflexivity|]. split; [done|]. split; [done|]. split.
    + intros c Hc. cbn [categories set_categories]. rewrite get_put. simpl.
      case_decide as Hid; [|done]. apply get_Some in Hc as [_ Hc].
      rewrite Hid in Hc. congruence.
    + intros _. exact (get_put_eq category (categories s)).
  - exists s. split; [done|]. split; [done|]. split; [done|]. split; [done|].
    intros Hempty. rewrite Hempty in Hadd. vm_compute in Hadd. discriminate Hadd.
Qed.

(** The loop over any names. *)
Lemma seed_loop (now : nat → Z) (l : list (nat * string)) (s : ExpenseDB.t) :
  ∃ s' : ExpenseDB.t,
    for_of l
      (λ '(i, name) s',
         catch (and_then (createCategory (now i) name true s') (λ _ s'', (s'', Resolved tt)))
           (λ _ s'', (s'', Resolved tt)))
      s
    = (s', Resolved tt)
    ∧ parents s' = parents s ∧ entries s' = entries s
    ∧ ∀ c : Category.t,
        IDB.get (Category.id c) (categories s) = Some c →
        IDB.get (Category.id c) (categories s') = Some c.
Proof.
  revert s. induction l as [|[i name] l IH]; intros s.
  - exists s. by repeat split.
  - cbn [for_of]. destruct (seed_turn (now i) name s) as (s1 & -> & Hp & He & Hc & _).
    cbn [await]. destruct (IH s1) as (s' & -> & Hp' & He' & Hc').
    exists s'. split; [done|]. split; [congruence|]. split; [congruence|].
    intros c H. by apply Hc', Hc.
Qed.

(** After a turn of the loop the name of the turn is taken. *)
Lemma seed_turn_taken (now : Z) (name : string) (s : ExpenseDB.t) :
  ∃ c : Category.t,
    IDB.get (Category.id c)
      (categories
         (catch (and_then (createCategory now name true s) (λ _ s'', (s'', Resolved tt)))
            (λ _ s'', (s'', Resolved tt))).1)
    = Some c
    ∧ (Category.id c = category_id name ∨ Category.name c = name).
Proof.
  unfold createCategory.
  set (category := Category.mk (category_id name) name true now).
  destruct (add_category category (categories s)) as [m|] eqn:Hadd; simpl.
  - exists category. split; [|by left].
    assert (m = IDB.put category (categories s)) as ->.
    { unfold add_category in Hadd. destruct (existsb _ _); [done|].
      unfold IDB.add in Hadd. destruct (categories s !! IDB.key category); [done|].
      by injection Hadd as <-. }
    exact (get_put_eq category (categories s)).
  - apply add_category_None in Hadd as [[row Hrow]|(c & Hc & Hname)].
    + exists (IDB.record (category_id name) row).
      split; [|left; exact (IDB.key_record (A:=Category.t) (category_id name) row)].
      unfold IDB.get.
      change (Category.id (IDB.record (category_id name) row))
        with (IDB.key (IDB.record (category_id name) row : Category.t)).
      rewrite IDB.key_record. simpl in Hrow. by rewrite Hrow.
    + exists c. split; [done | by right].
Qed.

(** [seedDefaultCategories] always resolves, leaves groups and entries
    alone, and keeps every category that is already stored, with its
    fields: a default name whose id or name is taken is skipped.
    Afterwards each of the nine names is taken, by its default category or
    by a category that has its id or its name. *)
Theorem seedDefaultCategories_keeps (now : nat → Z) (s : ExpenseDB.t) :
  ∃ s' : ExpenseDB.t,
    seedDefaultCategories now s = (s', Resolved tt)
    ∧ parents s' = parents s ∧ entries s' = entries s
    ∧ (∀ c : Category.t,
         IDB.get (Category.id c) (categories s) = Some c →
         IDB.get (Category.id c) (categories s') = Some c)
    ∧ ∀ name, name ∈ defaultCategories →
        ∃ c : Category.t,
          IDB.get (Category.id c) (categories s') = Some c
          ∧ (Category.id c = category_id name ∨ Category.name c = name).
Proof.
  unfold seedDefaultCategories.
  assert (∀ name, name ∈ defaultCategories →
            name ∈ (imap (λ (i : nat) name, (i, name)) defaultCategories).*2) as Hnames.
  { intros name Hin. rewrite fmap_imap. simpl.
    replace (imap (λ (_ : nat) (x : string), x) defaultCategories) with defaultCategories;
      [done|]. reflexivity. }
  revert Hnames. generalize (imap (λ (i : nat) name, (i, name)) defaultCategories).
  intros l Hnames.
  assert (∃ s' : ExpenseDB.t,
            for_of l
              (λ '(i, name) s',
                 catch (and_then (createCategory (now i) name true s')
                          (λ _ s'', (s'', Resolved tt)))
                   (λ _ s'', (s'', Resolved tt)))
              s
            = (s', Resolved tt)
            ∧ parents s' = parents s ∧ entries s' = entries s
            ∧ (∀ c : Category.t,
                 IDB.get (Category.id c) (categories s) = Some c →
                 IDB.get (Category.id c) (categories s') = Some c)
            ∧ ∀ name, name ∈ l.*2 →
                ∃ c : Category.t,
                  IDB.get (Category.id c) (categories s') = Some c
                  ∧ (Category.id c = category_id name ∨ Category.name c = name))
    as (s' & Hrun & Hp & He & Hkeep & Htaken).
  { clear Hnames. revert s. induction l as [|[i name] l IH]; intros s.
    - exists s. split; [done|]. split; [done|]. split; [done|]. split; [done|].
      intros name Hin. by apply elem_of_nil in Hin.
    - cbn [for_of]. destruct (seed_turn_taken (now i) name s) as (c0 & Hc0 & Hname0).
      destruct (seed_turn (now i) name s) as (s1 & Hturn & Hp1 & He1 & Hkeep1 & _).
      rewrite Hturn in Hc0 |- *. cbn [fst] in Hc0. cbn [await].
      destruct (IH s1) as (s' & -> & Hp' & He' & Hkeep' & Htaken').
      exists s'. split; [done|]. split; [congruence|]. split; [congruence|]. split.
      + intros c H. by apply Hkeep', Hkeep1.
      + intros name' Hin. change (((i, name) :: l).*2) with (name :: l.*2) in Hin.
        apply elem_of_cons in Hin as [->|Hin]; [|by apply Htaken'].
        exists c0. split; [by apply Hkeep' | done]. }
  exists s'. split; [exact Hrun|]. split; [done|]. split; [done|]. split; [done|].
  intros name Hin. by apply Htaken, Hnames.
Qed.

(** A store without categories has an empty [categories] map. *)
Lemma no_categories (localeCompare : string → string → Z) (s : ExpenseDB.t) :
  List.length (getCategories localeCompare s) = 0%nat → categories s = ∅.
Proof.
  intros Hlen. apply map_eq_Some. intros k row. rewrite lookup_empty. split; [|done].
  intros Hrow.
  assert (IDB.record k row ∈ getCategories localeCompare s) as Hin.
  { apply elem_of_getCategories, get_Some. split; [done|].
    change (Category.id (IDB.record k row)) with (IDB.key (IDB.record k row : Category.t)).
    by rewrite IDB.key_record, IDB.fields_record. }
  destruct (getCategories localeCompare s); [by apply elem_of_nil in Hin | done].
Qed.

(** The default category of a turn of the seeding loop. *)
Ltac seeded_at i :=
  eexists i, _; split; [reflexivity | vm_compute; reflexivity].

(** Seeding a database without categories stores the nine defaults. *)
Lemma seedDefaultCategories_fresh (now : nat → Z)
    (groups : gmap string Parent.row) (expenses : gmap string Entry.row) :
  seedDefaultCategories now (mk groups expenses ∅)
  = (mk groups expenses
       (list_to_map
          (imap (λ i name, (category_id name, (name, true, now i))) defaultCategories)),
     Resolved tt).
Proof. vm_compute. reflexivity. Qed.

(** [init] resolves and leaves groups and entries alone.  In a database
    that has a category it changes nothing.  In a database without
    categories it stores the nine defaults and nothing else: each default
    name under its derived id, with the default flag and the time of its
    turn.  A second [init] finds categories and changes nothing: the
    defaults are seeded once. *)
Theorem init_once (localeCompare localeCompare' : string → string → Z)
    (now now' : nat → Z) (s : ExpenseDB.t) :
  let s' := (init localeCompare now s).1 in
  (init localeCompare now s).2 = Resolved tt
  ∧ parents s' = parents s ∧ entries s' = entries s
  ∧ (categories s ≠ ∅ → s' = s)
  ∧ (categories s = ∅ →
     ∀ c : Category.t,
       IDB.get (Category.id c) (categories s') = Some c ↔
       ∃ (i : nat) (name : string),
         defaultCategories !! i = Some name
         ∧ c = Category.mk (category_id name) name true (now i))
  ∧ init localeCompare' now' s' = (s', Resolved tt).
Proof.
  intros s'. unfold s'. clear s'.
  assert (∀ s0 : ExpenseDB.t,
            (List.length (getCategories localeCompare' s0) =? 0)%nat = false →
            init localeCompare' now' s0 = (s0, Resolved tt)) as Hsecond.
  { intros s0 Hlen. unfold init. by rewrite Hlen. }
  assert (init localeCompare now s
          = if (List.length (getCategories localeCompare s) =? 0)%nat
            then seedDefaultCategories now s else (s, Resolved tt)) as -> by reflexivity.
  destruct (List.length (getCategories localeCompare s) =? 0)%nat eqn:Hlen.
  - apply Nat.eqb_eq, no_categories in Hlen.
    destruct s as [groups expenses cats]. cbn [categories parents entries] in *. subst cats.
    rewrite seedDefaultCategories_fresh. cbn [fst snd parents entries categories].
    set (seeded := list_to_map _).
    assert (∀ c : Category.t,
              IDB.get (Category.id c) seeded = Some c ↔
              ∃ (i : nat) (name : string),
                defaultCategories !! i = Some name
                ∧ c = Category.mk (category_id name) name true (now i)) as Hseeded.
    { intros c. rewrite get_Some. split.
      - intros [_ Hc]. apply elem_of_map_to_list in Hc.
        destruct c as [i n d x]. vm_compute in Hc.
        repeat (apply elem_of_cons in Hc as [Hc|Hc];
                [injection Hc as -> -> -> ->;
                 first [ seeded_at 0%nat | seeded_at 1%nat | seeded_at 2%nat
                       | seeded_at 3%nat | seeded_at 4%nat | seeded_at 5%nat
                       | seeded_at 6%nat | seeded_at 7%nat | seeded_at 8%nat ] |]).
        by apply elem_of_nil in Hc.
      - intros (i & name & Hname & ->). split; [done|].
        do 9 (destruct i as [|i]; [injection Hname as <-; vm_compute; reflexivity|]).
        done. }
    split; [done|]. split; [done|]. split; [done|]. split; [done|].
    split; [intros _; exact Hseeded|].
    apply Hsecond.
    assert (Category.mk (category_id "Food") "Food" true (now 0%nat)
              ∈ getCategories localeCompare' (mk groups expenses seeded)) as Hin.
    { apply elem_of_getCategories, Hseeded. by exists 0%nat, "Food". }
    destruct (getCategories localeCompare' (mk groups expenses seeded));
      [by apply elem_of_nil in Hin | done].
  - cbn [fst snd].
    assert (categories s ≠ ∅) as Hsome.
    { intros Hempty. unfold getCategories in Hlen. rewrite Hempty in Hlen.
      vm_compute in Hlen. discriminate Hlen. }
    split; [done|]. split; [done|]. split; [done|]. split; [done|]. split; [done|].
    apply Hsecond. destruct (getCategories localeCompare' s) eqn:Hc'; [|done].
    destruct Hsome. apply (no_categories localeCompare'). by rewrite Hc'.
Qed.

(** [init_once] for a new database: "Food" is seeded in the first turn,
    and a second [init] leaves the seeded database as it is. *)
Lemma init_once_witness :
  IDB.get "food" (categories Scenario.seeded) = Some (Category.mk "food" "Food" true 500)
  ∧ init compare_strings (λ i, 900 + Z.of_nat i)%Z Scenario.seeded
    = (Scenario.seeded, Resolved tt).
Proof.
  destruct (init_once compare_strings compare_strings (λ i, 500 + Z.of_nat i)%Z
              (λ i, 900 + Z.of_nat i)%Z empty) as (_ & _ & _ & _ & Hseeded & Hsecond).
  split; [|exact Hsecond].
  apply (Hseeded eq_refl (Category.mk "food" "Food" true 500)).
  exists 0%nat, "Food". split; [reflexivity | vm_compute; reflexivity].
Defined.

(** ** Import *)

(** The category loop keeps the stored categories. *)
Lemma import_categories_keep (cs : list Category.t) (s : ExpenseDB.t) :
  ∃ s' : ExpenseDB.t,
    for_of cs import_category s = (s', Resolved tt)
    ∧ parents s' = parents s ∧ entries s' = entries s
    ∧ ∀ c : Category.t,
        IDB.get (Category.id c) (categories s) = Some c →
        IDB.get (Category.id c) (categories s') = Some c.
Proof.
  revert s. induction cs as [|c cs IH]; intros s.
  - exists s. by repeat split.
  - cbn [for_of]. unfold import_category at 1.
    destruct (add_category c (categories s)) as [m|] eqn:Hadd; cbn [await].
    + assert (categories s !! Category.id c = None) as Hfree.
      { destruct (categories s !! Category.id c) eqn:E; [|done].
        rewrite add_category_taken in Hadd; [done | by eexists]. }
      assert (m = IDB.put c (categories s)) as ->.
      { unfold add_category in Hadd. destruct (existsb _ _); [done|].
        rewrite (add_Some c) in Hadd by done. by injection Hadd as <-. }
      destruct (IH (set_categories (IDB.put c (categories s)) s)) as (s' & -> & Hp & He & Hc).
      exists s'. split; [done|]. split; [done|]. split; [done|].
      intros c' Hc'. apply Hc. cbn [categories set_categories]. rewrite get_put. simpl.
      case_decide as Hid; [|done]. apply get_Some in Hc' as [_ Hc'].
      rewrite Hid in Hc'. congruence.
    + apply IH.
Qed.

(** The group loop, however it ends: it touches the groups only, and a
    stored group was stored before or is in the list. *)
Lemma import_parents_any (l : list Parent.t) (s : ExpenseDB.t) :
  entries (for_of l import_parent s).1 = entries s
  ∧ categories (for_of l import_parent s).1 = categories s
  ∧ ((for_of l import_parent s).2 = Resolved tt
     ∨ (for_of l import_parent s).2 = Rejected ConstraintError)
  ∧ ∀ k (p : Parent.t),
      getParent k (for_of l import_parent s).1 = Some p →
      getParent k s = Some p ∨ p ∈ l.
Proof.
  revert s. induction l as [|p l IH]; intros s.
  - cbn. split; [done|]. split; [done|]. split; [by left|]. intros; by left.
  - cbn [for_of].
    assert (import_parent p s
            = match IDB.add p (parents s) with
              | Some m => (set_parents m s, Resolved tt)
              | None => (s, Rejected ConstraintError)
              end) as -> by reflexivity.
    destruct (IDB.add p (parents s)) as [m|] eqn:Hadd; cbn [await fst snd].
    + destruct (IH (set_parents m s)) as (He & Hc & Hr & Hg).
      split; [exact He|]. split; [exact Hc|]. split; [exact Hr|].
      intros k q Hq. apply Hg in Hq as [Hq|Hq]; [|right; by right].
      unfold IDB.add in Hadd. destruct (parents s !! IDB.key p); [done|].
      injection Hadd as <-. unfold getParent in Hq. cbn [parents set_parents] in Hq.
      rewrite get_put in Hq. case_decide; [|by left].
      injection Hq as <-. right. by left.
    + split; [done|]. split; [done|]. split; [by right|]. intros; by left.
Qed.

(** The same for the entry loop. *)
Lemma import_entries_any (l : list Entry.t) (s : ExpenseDB.t) :
  parents (for_of l import_entry s).1 = parents s
  ∧ categories (for_of l import_entry s).1 = categories s
  ∧ ((for_of l import_entry s).2 = Resolved tt
     ∨ (for_of l import_entry s).2 = Rejected ConstraintError)
  ∧ ∀ k (e : Entry.t),
      getEntry k (for_of l import_entry s).1 = Some e →
      getEntry k s = Some e ∨ e ∈ l.
Proof.
  revert s. induction l as [|e l IH]; intros s.
  - cbn. split; [done|]. split; [done|]. split; [by left|]. intros; by left.
  - cbn [for_of].
    assert (import_entry e s
            = match IDB.add e (entries s) with
              | Some m => (set_entries m s, Resolved tt)
              | None => (s, Rejected ConstraintError)
              end) as -> by reflexivity.
    destruct (IDB.add e (entries s)) as [m|] eqn:Hadd; cbn [await fst snd].
    + destruct (IH (set_entries m s)) as (Hp & Hc & Hr & Hg).
      split; [exact Hp|]. split; [exact Hc|]. split; [exact Hr|].
      intros k q Hq. apply Hg in Hq as [Hq|Hq]; [|right; by right].
      unfold IDB.add in Hadd. destruct (entries s !! IDB.key e); [done|].
      injection Hadd as <-. unfold getEntry in Hq. cbn [entries set_entries] in Hq.
      rewrite get_put in Hq. case_decide; [|by left].
      injection Hq as <-. right. by left.
    + split; [done|]. split; [done|]. split; [by right|]. intros; by left.
Qed.

(** The three loops for whatever the property holds: each touches its own
    store only, never stays pending, and stores nothing but records of an
    array it was given; the category loop keeps what is stored. *)
Lemma import_categories_any (x : property Category.t) (s : ExpenseDB.t) :
  parents (import_categories x s).1 = parents s
  ∧ entries (import_categories x s).1 = entries s
  ∧ (x ≠ NotIterable ∧ (import_categories x s).2 = Resolved tt
     ∨ x = NotIterable ∧ (import_categories x s).2 = Rejected TypeError)
  ∧ ∀ c : Category.t,
      IDB.get (Category.id c) (categories s) = Some c →
      IDB.get (Category.id c) (categories (import_categories x s).1) = Some c.
Proof.
  destruct x as [| |t|cs]; simpl; try (by repeat split; auto).
  destruct (import_categories_keep cs s) as (s' & -> & Hp & He & Hc).
  split; [done|]. split; [done|]. split; [by left | done].
Qed.

Lemma import_parents_property (x : property Parent.t) (s : ExpenseDB.t) :
  entries (import_parents x s).1 = entries s
  ∧ categories (import_parents x s).1 = categories s
  ∧ (import_parents x s).2 ≠ Pending
  ∧ ∀ k (p : Parent.t),
      getParent k (import_parents x s).1 = Some p →
      getParent k s = Some p ∨ ∃ ps, x = Array ps ∧ p ∈ ps.
Proof.
  destruct x as [| |[|c t]|ps]; simpl; try (by repeat split; auto).
  destruct (import_parents_any ps s) as (He & Hc & Hr & Hg).
  split; [done|]. split; [done|]. split; [by destruct Hr as [-> | ->]|].
  intros k p Hp. apply Hg in Hp as [Hp|Hp]; [by left|]. right. by exists ps.
Qed.

Lemma import_entries_property (x : property Entry.t) (s : ExpenseDB.t) :
  parents (import_entries x s).1 = parents s
  ∧ categories (import_entries x s).1 = categories s
  ∧ (import_entries x s).2 ≠ Pending
  ∧ ∀ k (e : Entry.t),
      getEntry k (import_entries x s).1 = Some e →
      getEntry k s = Some e ∨ ∃ es, x = Array es ∧ e ∈ es.
Proof.
  destruct x as [| |[|c t]|es]; simpl; try (by repeat split; auto).
  destruct (import_entries_any es s) as (Hp & Hc & Hr & Hg).
  split; [done|]. split; [done|]. split; [by destruct Hr as [-> | ->]|].
  intros k e He. apply Hg in He as [He|He]; [by left|]. right. by exists es.
Qed.

(** [importData] replaces groups and entries and merges categories,
    however it ends: afterwards every stored group and every stored entry
    is one of the snapshot, nothing of the groups and entries of before
    is kept for being there before, and every category of before is still
    stored.  It never stays pending. *)
Theorem importData_replaces (data : Snapshot.t) (s : ExpenseDB.t) :
  (∀ k (p : Parent.t),
     getParent k (importData data s).1 = Some p →
     ∃ ps, Snapshot.parents data = Array ps ∧ p ∈ ps)
  ∧ (∀ k (e : Entry.t),
       getEntry k (importData data s).1 = Some e →
       ∃ es, Snapshot.entries data = Array es ∧ e ∈ es)
  ∧ (∀ c : Category.t,
       IDB.get (Category.id c) (categories s) = Some c →
       IDB.get (Category.id c) (categories (importData data s).1) = Some c)
  ∧ (importData data s).2 ≠ Pending.
Proof.
  unfold importData, clearAllData. cbn [await].
  destruct (import_categories_any (Snapshot.categories data) (mk ∅ ∅ (categories s)))
    as (Hp2 & He2 & Hr2 & Hc2).
  destruct (import_categories (Snapshot.categories data) (mk ∅ ∅ (categories s)))
    as [s2 r2]. cbn [fst snd parents entries categories] in *.
  assert (∀ k (p : Parent.t), getParent k s2 = Some p → False) as Hnop.
  { intros k p Hp. unfold getParent, IDB.get in Hp. by rewrite Hp2, lookup_empty in Hp. }
  assert (∀ k (e : Entry.t), getEntry k s2 = Some e → False) as Hnoe.
  { intros k e He. unfold getEntry, IDB.get in He. by rewrite He2, lookup_empty in He. }
  destruct Hr2 as [[_ ->]|[_ ->]]; cbn [await fst snd].
  2: { split; [intros k p Hp; by destruct (Hnop k p)|].
       split; [intros k e He; by destruct (Hnoe k e)|]. done. }
  destruct (import_parents_property (Snapshot.parents data) s2) as (He3 & Hc3 & Hr3 & Hg3).
  destruct (import_parents (Snapshot.parents data) s2) as [s3 r3].
  cbn [fst snd] in *.
  assert (∀ k (p : Parent.t),
            getParent k s3 = Some p → ∃ ps, Snapshot.parents data = Array ps ∧ p ∈ ps)
    as Hgroups.
  { intros k p Hp. apply Hg3 in Hp as [Hp|Hp]; [by destruct (Hnop k p) | done]. }
  assert (∀ k (e : Entry.t), getEntry k s3 = Some e → False) as Hnoe3.
  { intros k e He. apply (Hnoe k e). unfold getEntry in *. by rewrite <- He3. }
  destruct r3 as [[]|err|]; cbn [await fst snd]; [| |done].
  2: { split; [exact Hgroups|]. split; [intros k e He; by destruct (Hnoe3 k e)|].
       split; [|done]. intros c Hc. rewrite Hc3. by apply Hc2. }
  destruct (import_entries_property (Snapshot.entries data) s3) as (Hp4 & Hc4 & Hr4 & Hg4).
  destruct (import_entries (Snapshot.entries data) s3) as [s4 r4].
  cbn [fst snd] in *.
  split; [|split; [|split]].
  - intros k p Hp. apply (Hgroups k). unfold getParent in *. by rewrite <- Hp4.
  - intros k e Hq. apply Hg4 in Hq as [Hq|Hq]; [by destruct (Hnoe3 k e) | done].
  - intros c Hc. rewrite Hc4, Hc3. by apply Hc2.
  - exact Hr4.
Qed.

(** The group loop fails when the list holds a group whose id is stored. *)
Lemma import_parents_taken (l : list Parent.t) (s : ExpenseDB.t) (p : Parent.t) :
  p ∈ l → is_Some (parents s !! Parent.id p) →
  (for_of l import_parent s).2 = Rejected ConstraintError.
Proof.
  revert s. induction l as [|q l IH]; intros s Hin Htaken; [by apply elem_of_nil in Hin|].
  cbn [for_of].
  assert (import_parent q s
          = match IDB.add q (parents s) with
            | Some m => (set_parents m s, Resolved tt)
            | None => (s, Rejected ConstraintError)
            end) as -> by reflexivity.
  unfold IDB.add. destruct (parents s !! IDB.key q) as [row|] eqn:Hq; [done|].
  cbn [await]. apply IH.
  - apply elem_of_cons in Hin as [->|Hin]; [|done].
    simpl in Hq. rewrite Hq in Htaken. by destruct Htaken.
  - cbn [parents set_parents]. unfold IDB.put.
    destruct Htaken as [row Hrow]. rewrite lookup_insert. case_decide; by eexists.
Qed.

(** It fails when two groups of the list have the same id. *)
Lemma import_parents_duplicate (l : list Parent.t) (s : ExpenseDB.t) :
  ¬ NoDup (Parent.id <$> l) →
  (for_of l import_parent s).2 = Rejected ConstraintError.
Proof.
  revert s. induction l as [|q l IH]; intros s Hdup; [destruct Hdup; constructor|].
  cbn [for_of].
  assert (import_parent q s
          = match IDB.add q (parents s) with
            | Some m => (set_parents m s, Resolved tt)
            | None => (s, Rejected ConstraintError)
            end) as -> by reflexivity.
  unfold IDB.add. destruct (parents s !! IDB.key q) as [row|] eqn:Hq; [done|].
  cbn [await].
  destruct (decide (Parent.id q ∈ Parent.id <$> l)) as [Hin|Hnin].
  - apply list_elem_of_fmap in Hin as (p & Hid & Hp).
    apply (import_parents_taken l _ p Hp). cbn [parents set_parents]. unfold IDB.put.
    simpl. rewrite Hid, lookup_insert_eq. by eexists.
  - apply IH. intros Hnd. apply Hdup.
    change (Parent.id <$> q :: l) with (Parent.id q :: (Parent.id <$> l)).
    by constructor.
Qed.

(** The same for the entry loop. *)
Lemma import_entries_taken (l : list Entry.t) (s : ExpenseDB.t) (e : Entry.t) :
  e ∈ l → is_Some (entries s !! Entry.id e) →
  (for_of l import_entry s).2 = Rejected ConstraintError.
Proof.
  revert s. induction l as [|q l IH]; intros s Hin Htaken; [by apply elem_of_nil in Hin|].
  cbn [for_of].
  assert (import_entry q s
          = match IDB.add q (entries s) with
            | Some m => (set_entries m s, Resolved tt)
            | None => (s, Rejected ConstraintError)
            end) as -> by reflexivity.
  unfold IDB.add. destruct (entries s !! IDB.key q) as [row|] eqn:Hq; [done|].
  cbn [await]. apply IH.
  - apply elem_of_cons in Hin as [->|Hin]; [|done].
    simpl in Hq. rewrite Hq in Htaken. by destruct Htaken.
  - cbn [entries set_entries]. unfold IDB.put.
    destruct Htaken as [row Hrow]. rewrite lookup_insert. case_decide; by eexists.
Qed.

Lemma import_entries_duplicate (l : list Entry.t) (s : ExpenseDB.t) :
  ¬ NoDup (Entry.id <$> l) →
  (for_of l import_entry s).2 = Rejected ConstraintError.
Proof.
  revert s. induction l as [|q l IH]; intros s Hdup; [destruct Hdup; constructor|].
  cbn [for_of].
  assert (import_entry q s
          = match IDB.add q (entries s) with
            | Some m => (set_entries m s, Resolved tt)
            | None => (s, Rejected ConstraintError)
            end) as -> by reflexivity.
  unfold IDB.add. destruct (entries s !! IDB.key q) as [row|] eqn:Hq; [done|].
  cbn [await].
  destruct (decide (Entry.id q ∈ Entry.id <$> l)) as [Hin|Hnin].
  - apply list_elem_of_fmap in Hin as (e & Hid & He).
    apply (import_entries_taken l _ e He). cbn [entries set_entries]. unfold IDB.put.
    simpl. rewrite Hid, lookup_insert_eq. by eexists.
  - apply IH. intros Hnd. apply Hdup.
    change (Entry.id <$> q :: l) with (Entry.id q :: (Entry.id <$> l)).
    by constructor.
Qed.

(** [importData] of a snapshot with both lists resolves exactly when no
    two of its groups and no two of its entries have the same id, and its
    [categories] can be iterated or are falsy; it is rejected with a
    TypeError when they cannot, and with a ConstraintError otherwise.
    When it resolves, the stored groups and entries are those of the
    lists, as they are there: the totals are taken from the snapshot, not
    computed. *)
Theorem importData_spec (data : Snapshot.t) (s : ExpenseDB.t)
    (ps : list Parent.t) (es : list Entry.t) :
  Snapshot.parents data = Array ps →
  Snapshot.entries data = Array es →
  ((importData data s).2 = Resolved tt ↔
     Snapshot.categories data ≠ NotIterable
     ∧ NoDup (Parent.id <$> ps) ∧ NoDup (Entry.id <$> es))
  ∧ (Snapshot.categories data = NotIterable →
     (importData data s).2 = Rejected TypeError)
  ∧ (Snapshot.categories data ≠ NotIterable →
     (importData data s).2 ≠ Resolved tt →
     (importData data s).2 = Rejected ConstraintError)
  ∧ ((importData data s).2 = Resolved tt →
     (∀ k (p : Parent.t),
        getParent k (importData data s).1 = Some p ↔ Parent.id p = k ∧ p ∈ ps)
     ∧ (∀ k (e : Entry.t),
          getEntry k (importData data s).1 = Some e ↔ Entry.id e = k ∧ e ∈ es)).
Proof.
  intros Hps Hes. unfold importData, clearAllData. cbn [await]. rewrite Hps, Hes.
  destruct (import_categories_ends (Snapshot.categories data) (mk ∅ ∅ (categories s)))
    as (m & r & -> & [[Hc ->]|[Hc ->]]); cbn [await fst snd].
  2: { split; [split; [done | by intros [? _]]|]. split; [done|]. split; done. }
  set (s2 := set_categories m (mk ∅ ∅ (categories s))).
  assert (parents s2 = ∅ ∧ entries s2 = ∅) as [Hp2 He2] by done.
  unfold import_parents, import_entries.
  destruct (decide (NoDup (Parent.id <$> ps))) as [Hndp|Hdup].
  - rewrite import_parents_ok; [|done | intros; rewrite Hp2; apply lookup_empty].
    cbn [await]. rewrite Hp2.
    set (s3 := set_parents _ s2).
    assert (∀ k (p : Parent.t), getParent k s3 = Some p ↔ Parent.id p = k ∧ p ∈ ps)
      as Hgroups.
    { intros k p. unfold getParent, s3. cbn [parents set_parents].
      rewrite get_Some, (lookup_foldl_put ps ∅ k (IDB.fields p)) by done.
      rewrite lookup_empty. split.
      - intros [Hk [Hin|[_ ?]]]; [|done]. split; [exact Hk|].
        rewrite <- Hk, IDB.record_eta in Hin. done.
      - intros [Hk Hin]. split; [exact Hk|]. left.
        change (Parent.id p) with (IDB.key p) in Hk.
        by rewrite <- Hk, IDB.record_eta. }
    destruct (decide (NoDup (Entry.id <$> es))) as [Hnde|Hdupe].
    + rewrite import_entries_ok; [|done | intros; unfold s3; cbn; apply lookup_empty].
      cbn [fst snd]. split; [by split|]. split; [done|]. split; [done|]. intros _. split.
      * intros k p. apply Hgroups.
      * intros k e. unfold getEntry. cbn [entries set_entries s3 set_parents].
        rewrite He2, get_Some, (lookup_foldl_put es ∅ k (IDB.fields e)) by done.
        rewrite lookup_empty. split.
        -- intros [Hk [Hin|[_ ?]]]; [|done]. split; [exact Hk|].
           rewrite <- Hk, IDB.record_eta in Hin. done.
        -- intros [Hk Hin]. split; [exact Hk|]. left.
           change (Entry.id e) with (IDB.key e) in Hk.
           by rewrite <- Hk, IDB.record_eta.
    + pose proof (import_entries_duplicate es s3 Hdupe) as Hrej.
      rewrite Hrej. split; [|split; [|split]]; [|done|done|done].
      split; [done|]. intros (_ & _ & ?). done.
  - pose proof (import_parents_duplicate ps s2 Hdup) as Hrej.
    destruct (for_of ps import_parent s2) as [s3 r3]. cbn [snd] in Hrej. subst r3.
    cbn [await fst snd]. split; [|split; [|split]]; [|done|done|done].
    split; [done|]. intros (_ & ? & _). done.
Qed.

(** [importData_spec] for the backup with the total of 100: it is imported
    over the example store, and the total is stored as it is. *)
Lemma importData_spec_witness :
  (importData Scenario.edited_backup Scenario.with_coffee).2 = Resolved tt
  ∧ getParent "2024-01" (importData Scenario.edited_backup Scenario.with_coffee).1
    = Some (Parent.mk "2024-01" "January" 1000 100).
Proof.
  destruct (importData_spec Scenario.edited_backup Scenario.with_coffee
              [Parent.mk "2024-01" "January" 1000 100] [Scenario.coffee] eq_refl eq_refl)
    as (Hiff & _ & _ & Hstored).
  assert ((importData Scenario.edited_backup Scenario.with_coffee).2 = Resolved tt) as Hres.
  { apply Hiff. split; [discriminate|]. split; apply NoDup_singleton. }
  split; [exact Hres|]. apply (Hstored Hres). split; [reflexivity | by left].
Defined.

(** ** Export *)

(** The exported entries have distinct ids. *)
Lemma NoDup_collected_ids (s : ExpenseDB.t) :
  NoDup (Entry.id <$>
           List.concat ((λ parent, getEntriesByParent (Parent.id parent) s)
                          <$> getAllParents s)).
Proof.
  apply NoDup_fmap_2_strong; [|apply NoDup_collected, NoDup_getAllParents_ids].
  intros e e' He He' Hid. apply elem_of_collected in He as [He _].
  apply elem_of_collected in He' as [He' _]. rewrite Hid in He. congruence.
Qed.

(** A snapshot with both lists and without repeated ids is imported. *)
Lemma importData_distinct_ids (data : Snapshot.t) (s : ExpenseDB.t)
    (ps : list Parent.t) (es : list Entry.t) :
  Snapshot.categories data ≠ NotIterable →
  Snapshot.parents data = Array ps →
  Snapshot.entries data = Array es →
  NoDup (Parent.id <$> ps) → NoDup (Entry.id <$> es) →
  (importData data s).2 = Resolved tt.
Proof.
  intros Hcs Hps Hes Hndp Hnde. unfold importData, clearAllData. cbn [await].
  rewrite Hps, Hes.
  destruct (import_categories_ends (Snapshot.categories data) (mk ∅ ∅ (categories s)))
    as (m & r & -> & [[_ ->]|[? _]]); [|done].
  cbn [await]. unfold import_parents, import_entries.
  rewrite import_parents_ok; [|done | intros; apply lookup_empty].
  cbn [await].
  rewrite import_entries_ok; [done | done |].
  intros. apply lookup_empty.
Qed.

(** [exportData()] lists every stored group once, the newest first, and
    every stored category once, and says version 2; the import handler
    accepts it and the import of it resolves, into whatever store. *)
Theorem exportData_complete
    (localeCompare : string → string → Z) (exportDate : string) (s s0 : ExpenseDB.t) :
  let data := exportData localeCompare exportDate s in
  (∃ ps : list Parent.t,
     Snapshot.parents data = Array ps
     ∧ NoDup ps
     ∧ (∀ p : Parent.t, p ∈ ps ↔ getParent (Parent.id p) s = Some p)
     ∧ Spec.descending Parent.createdAt ps)
  ∧ (∃ cs : list Category.t,
       Snapshot.categories data = Array cs
       ∧ NoDup cs
       ∧ ∀ c : Category.t, c ∈ cs ↔ IDB.get (Category.id c) (categories s) = Some c)
  ∧ Snapshot.version data = Some 2%Z
  ∧ Snapshot.exportDate data = Some exportDate
  ∧ (UI.importData data s0).2 = Resolved tt.
Proof.
  intros data. split; [|split; [|split; [|split]]].
  - eexists. split; [reflexivity|]. split; [|split].
    + apply (NoDup_fmap_1 Parent.id), NoDup_getAllParents_ids.
    + intros p. apply elem_of_getAllParents.
    + apply sort_descending.
  - eexists. split; [reflexivity|]. split.
    + unfold getCategories. rewrite sort_perm. apply NoDup_getAll.
    + intros c. apply elem_of_getCategories.
  - reflexivity.
  - reflexivity.
  - unfold UI.importData, data.
    cbn [exportData Snapshot.parents Snapshot.entries to_boolean negb orb].
    eapply importData_distinct_ids; [discriminate | reflexivity | reflexivity | |].
    + apply NoDup_getAllParents_ids.
    + apply NoDup_collected_ids.
Qed.

(** ** The service worker *)

(** After [open_and_put], a request that no cache held is answered with
    the response that was put. *)
Lemma caches_match_put (name request : string) (response : Response)
    (caches : CacheStorage) :
  caches_match request caches = None →
  caches_match request (open_and_put name request response caches) = Some response.
Proof.
  induction caches as [|[n cache] rest IH]; simpl.
  - intros _. by rewrite lookup_singleton_eq.
  - destruct (cache !! request) eqn:Hc; [done|]. intros Hrest.
    destruct (String.eqb n name); simpl.
    + by rewrite lookup_insert_eq.
    + rewrite Hc. by apply IH.
Qed.

(** The other requests are answered as before. *)
Lemma caches_match_put_other (name request other : string) (response : Response)
    (caches : CacheStorage) :
  other ≠ request →
  caches_match other (open_and_put name request response caches)
  = caches_match other caches.
Proof.
  intros Hne. induction caches as [|[n cache] rest IH]; simpl.
  - by rewrite lookup_singleton_ne.
  - destruct (String.eqb n name); simpl.
    + by rewrite lookup_insert_ne.
    + by rewrite IH.
Qed.

(** A request that a cache holds is answered from the cache: the network is
    not asked, and the caches are unchanged. *)
Theorem fetch_listener_cache_first
    (fetch : string → promise Response) (request : string) (caches : CacheStorage)
    (cached : Response) :
  caches_match request caches = Some cached →
  fetch_listener fetch request caches = (caches, Resolved (Some cached)).
Proof. intros Hhit. unfold fetch_listener, and_then, await, catch. by rewrite Hhit. Qed.

(** [fetch_listener_cache_first] for the cached page and a network that is
    down. *)
Lemma fetch_listener_cache_first_witness :
  fetch_listener (λ _, Rejected NetworkError) "/index.html"
    [(CACHE_NAME, {["/index.html" := mkResponse 200 "<html>"]})]
  = ([(CACHE_NAME, {["/index.html" := mkResponse 200 "<html>"]})],
     Resolved (Some (mkResponse 200 "<html>"))).
Proof. apply fetch_listener_cache_first. vm_compute. reflexivity. Defined.

(** A request that no cache holds and that the network answers.  The
    response is passed on as it is.  With status 200 it is also stored, so
    that the same request is answered with it from then on, whatever the
    network does, and the other requests are answered as before; with
    another status the caches are unchanged. *)
Theorem fetch_listener_network
    (fetch : string → promise Response) (request : string) (caches : CacheStorage)
    (response : Response) :
  caches_match request caches = None →
  fetch request = Resolved response →
  ∃ caches' : CacheStorage,
    fetch_listener fetch request caches = (caches', Resolved (Some response))
    ∧ (status response = 200%Z →
       (∀ fetch', fetch_listener fetch' request caches'
                  = (caches', Resolved (Some response)))
       ∧ ∀ other, other ≠ request → caches_match other caches' = caches_match other caches)
    ∧ (status response ≠ 200%Z → caches' = caches).
Proof.
  intros Hmiss Hnet. unfold fetch_listener at 1. unfold and_then, await, catch.
  rewrite Hmiss, Hnet. destruct (status response =? 200)%Z eqn:Hstatus.
  - eexists. split; [reflexivity|]. split; [|intros Hne; by apply Z.eqb_eq in Hstatus].
    intros _. split.
    + intros fetch'. unfold fetch_listener, and_then, await, catch.
      by rewrite caches_match_put.
    + intros other Hother. by apply caches_match_put_other.
  - eexists. split; [reflexivity|]. split; [|done].
    intros H200. apply Z.eqb_neq in Hstatus. done.
Qed.

(** [fetch_listener_network] for a style sheet that is fetched with status
    200 while only the page is cached, and for one that is not found. *)
Lemma fetch_listener_network_witness :
  (∃ caches' : CacheStorage,
     fetch_listener (λ _, Resolved (mkResponse 200 "body {}")) "/css/styles.css"
       [(CACHE_NAME, {["/index.html" := mkResponse 200 "<html>"]})]
     = (caches', Resolved (Some (mkResponse 200 "body {}")))
     ∧ fetch_listener (λ _, Rejected NetworkError) "/css/styles.css" caches'
       = (caches', Resolved (Some (mkResponse 200 "body {}"))))
  ∧ fetch_listener (λ _, Resolved (mkResponse 404 "")) "/css/styles.css"
      [(CACHE_NAME, {["/index.html" := mkResponse 200 "<html>"]})]
    = ([(CACHE_NAME, {["/index.html" := mkResponse 200 "<html>"]})],
       Resolved (Some (mkResponse 404 ""))).
Proof.
  split.
  - destruct (fetch_listener_network (λ _, Resolved (mkResponse 200 "body {}"))
                "/css/styles.css"
                [(CACHE_NAME, {["/index.html" := mkResponse 200 "<html>"]})]
                (mkResponse 200 "body {}"))
      as (caches' & Hf & Hok & _); [vm_compute; reflexivity | reflexivity |].
    exists caches'. split; [exact Hf|]. by apply Hok.
  - destruct (fetch_listener_network (λ _, Resolved (mkResponse 404 "")) "/css/styles.css"
                [(CACHE_NAME, {["/index.html" := mkResponse 200 "<html>"]})]
                (mkResponse 404 ""))
      as (caches' & Hf & _ & Hsame); [vm_compute; reflexivity | reflexivity |].
    rewrite Hf. by rewrite Hsame.
Defined.

(** After [activate] the caches left are exactly those of the current
    name, so no response of an older cache is served any more: what
    [caches.match] finds is held by a cache named [CACHE_NAME]; and a
    request that no cache held is still not found. *)
Theorem activate_drops_old_caches (caches : CacheStorage) :
  (activate caches).2 = Resolved tt
  ∧ (∀ named, named ∈ (activate caches).1 ↔ named ∈ caches ∧ named.1 = CACHE_NAME)
  ∧ (∀ request response,
       caches_match request (activate caches).1 = Some response →
       ∃ cache, (CACHE_NAME, cache) ∈ caches ∧ cache !! request = Some response)
  ∧ (∀ request,
       caches_match request caches = None →
       caches_match request (activate caches).1 = None).
Proof.
  unfold activate, CacheStorage in *. cbn [fst snd]. split; [done|]. split; [|split].
  - intros named. rewrite list_elem_of_filter. tauto.
  - intros request response. induction caches as [|[n cache] rest IH]; [done|].
    rewrite filter_cons. simpl. case_decide as Hn.
    + simpl. destruct (cache !! request) eqn:Hc.
      * intros [= ->]. exists cache. subst n. split; [by left | done].
      * intros H. destruct (IH H) as (c & Hin & Hl). exists c. split; [by right | done].
    + intros H. destruct (IH H) as (c & Hin & Hl). exists c. split; [by right | done].
  - intros request. induction caches as [|[n cache] rest IH]; [done|].
    rewrite filter_cons. simpl. destruct (cache !! request) eqn:Hc; [done|].
    intros Hrest. case_decide; simpl; [rewrite Hc|]; by apply IH.
Qed.

(** ** Generated ids *)

(** A value below 16 is written as one hexadecimal digit. *)
Lemma toString16_digit (v : Z) :
  (0 ≤ v < 16)%Z →
  ∃ c : ascii, toString16 v = String c EmptyString ∧ Spec.hex_digit c = true.
Proof.
  intros Hv.
  assert (v ∈ [0; 1; 2; 3; 4; 5; 6; 7; 8; 9; 10; 11; 12; 13; 14; 15]%Z) as Hin.
  { assert (0 ≤ Z.to_nat v < 16)%nat as Hn by lia.
    replace v with (Z.of_nat (Z.to_nat v)) by lia.
    destruct (Z.to_nat v) as [|[|[|[|[|[|[|[|[|[|[|[|[|[|[|[|n]]]]]]]]]]]]]]]];
      [repeat (first [by left | right]).. | lia]. }
  repeat (apply elem_of_cons in Hin as [->|Hin];
          [eexists; split; vm_compute; reflexivity|]).
  by apply elem_of_nil in Hin.
Qed.

(** The digit for [y]: the two low bits of the draw under the bits 10. *)
Lemma toString16_variant (r : Z) :
  (0 ≤ r < 16)%Z →
  ∃ c : ascii,
    toString16 (Z.lor (Z.land r 3) 8) = String c EmptyString
    ∧ c ∈ ["8"; "9"; "a"; "b"]%char.
Proof.
  intros Hr.
  assert (r ∈ [0; 1; 2; 3; 4; 5; 6; 7; 8; 9; 10; 11; 12; 13; 14; 15]%Z) as Hin.
  { assert (0 ≤ Z.to_nat r < 16)%nat as Hn by lia.
    replace r with (Z.of_nat (Z.to_nat r)) by lia.
    destruct (Z.to_nat r) as [|[|[|[|[|[|[|[|[|[|[|[|[|[|[|[|n]]]]]]]]]]]]]]]];
      [repeat (first [by left | right]).. | lia]. }
  repeat (apply elem_of_cons in Hin as [->|Hin];
          [eexists; split; [vm_compute; reflexivity | repeat (first [by left | right])]|]).
  by apply elem_of_nil in Hin.
Qed.

(** The template with any callback that returns one code unit per match. *)
Lemma replace_xy_template (f : nat → ascii → string) (x : nat → ascii) (y : ascii) :
  (∀ i, f i "x"%char = String (x i) EmptyString) →
  f 15%nat "y"%char = String y EmptyString →
  replace_xy f 0 "xxxxxxxx-xxxx-4xxx-yxxx-xxxxxxxxxxxx"
  = string_of_list_ascii
      ([x 0; x 1; x 2; x 3; x 4; x 5; x 6; x 7; "-"%char;
        x 8; x 9; x 10; x 11; "-"%char;
        "4"%char; x 12; x 13; x 14; "-"%char;
        y; x 16; x 17; x 18; "-"%char;
        x 19; x 20; x 21; x 22; x 23; x 24; x 25; x 26; x 27; x 28; x 29; x 30]%nat).
Proof.
  intros Hx Hy. cbn [replace_xy Ascii.eqb Bool.eqb orb].
  rewrite !Hx, Hy. reflexivity.
Qed.

(** [generateUUID()] always returns 36 code units in the form of a
    version 4 UUID, whatever the draws: hyphens at the positions 8, 13, 18
    and 23, the digit 4 at position 14, one of 8, 9, a, b at position 19,
    and lower-case hexadecimal digits everywhere else. *)
Theorem generateUUID_format (random : nat → Z) :
  (∀ i, 0 ≤ random i < 16)%Z →
  let uuid := generateUUID random in
  String.length uuid = 36%nat
  ∧ (∀ i, i ∈ [8; 13; 18; 23]%nat → String.get i uuid = Some "-"%char)
  ∧ String.get 14 uuid = Some "4"%char
  ∧ (∃ c, String.get 19 uuid = Some c ∧ c ∈ ["8"; "9"; "a"; "b"]%char)
  ∧ (∀ i c, String.get i uuid = Some c → i ∉ [8; 13; 18; 23]%nat →
            Spec.hex_digit c = true).
Proof.
  intros Hrandom uuid.
  set (x := λ i, match toString16 (random i) with
                 | String c _ => c
                 | EmptyString => "0"%char
                 end).
  assert (∀ i, toString16 (random i) = String (x i) EmptyString
               ∧ Spec.hex_digit (x i) = true) as Hx.
  { intros i. unfold x. destruct (toString16_digit (random i) (Hrandom i)) as (c & -> & Hc).
    done. }
  destruct (toString16_variant (random 15%nat) (Hrandom 15%nat)) as (y & Hy & Hvariant).
  assert (Spec.hex_digit y = true) as Hyhex.
  { repeat (apply elem_of_cons in Hvariant as [->|Hvariant]; [reflexivity|]).
    by apply elem_of_nil in Hvariant. }
  assert (uuid = string_of_list_ascii
      ([x 0; x 1; x 2; x 3; x 4; x 5; x 6; x 7; "-"%char;
        x 8; x 9; x 10; x 11; "-"%char;
        "4"%char; x 12; x 13; x 14; "-"%char;
        y; x 16; x 17; x 18; "-"%char;
        x 19; x 20; x 21; x 22; x 23; x 24; x 25; x 26; x 27; x 28; x 29; x 30]%nat))
    as ->.
  { unfold uuid, generateUUID. apply replace_xy_template.
    - intros i. simpl. apply Hx.
    - simpl. exact Hy. }
  split; [reflexivity|]. split; [|split; [reflexivity|split]].
  - intros i Hi.
    repeat (apply elem_of_cons in Hi as [->|Hi]; [reflexivity|]).
    by apply elem_of_nil in Hi.
  - exists y. split; [reflexivity | exact Hvariant].
  - intros i c Hget Hi.
    do 36 (destruct i as [|i];
           [ simpl in Hget; injection Hget as <-;
             first [ apply Hx | exact Hyhex | reflexivity
                   | exfalso; apply Hi; repeat (first [by left | right]) ]
           | ]).
    simpl in Hget. discriminate Hget.
Qed.

(** [generateUUID_format] for draws that go round 0 to 15. *)
Lemma generateUUID_format_witness :
  String.length (generateUUID (λ i, Z.of_nat i mod 16)%Z) = 36%nat
  ∧ String.get 14 (generateUUID (λ i, Z.of_nat i mod 16)%Z) = Some "4"%char.
Proof.
  destruct (generateUUID_format (λ i, Z.of_nat i mod 16)%Z) as (Hlen & _ & H4 & _).
  - intros i. apply Z.mod_pos_bound. lia.
  - by split.
Defined.

(** All ids of the years 1000 to 9999, by evaluation. *)
Lemma month_ids_checked :
  forallb (λ year, forallb (λ month, Spec.reads_as (generateMonthYearId year month) year month)
                     (seqZ 0 12))
    (seqZ 1000 9000) = true.
Proof. vm_compute. reflexivity. Qed.

(** [generateMonthYearId()] in a year of four digits returns the id of the
    form YYYY-MM: 7 code units, the year, a hyphen, and the number of the
    month from 01 to 12; so two different months never get the same id. *)
Theorem generateMonthYearId_format (year month : Z) :
  (1000 ≤ year ≤ 9999)%Z → (0 ≤ month ≤ 11)%Z →
  let id := generateMonthYearId year month in
  String.length id = 7%nat
  ∧ String.get 4 id = Some "-"%char
  ∧ Spec.read_decimal (substring 0 4 id) = Some year
  ∧ Spec.read_decimal (substring 5 2 id) = Some (month + 1)%Z
  ∧ ∀ year' month',
      (1000 ≤ year' ≤ 9999)%Z → (0 ≤ month' ≤ 11)%Z →
      generateMonthYearId year' month' = id → year' = year ∧ month' = month.
Proof.
  assert (∀ y m, (1000 ≤ y ≤ 9999)%Z → (0 ≤ m ≤ 11)%Z →
                 Spec.reads_as (generateMonthYearId y m) y m = true) as Hall.
  { intros y m Hy Hm. pose proof month_ids_checked as Hc.
    rewrite forallb_forall in Hc. specialize (Hc y).
    rewrite forallb_forall in Hc.
    apply Hc; apply list_elem_of_In, elem_of_seqZ; lia. }
  intros Hyear Hmonth id.
  pose proof (Hall year month Hyear Hmonth) as Hid. fold id in Hid.
  unfold Spec.reads_as in Hid.
  apply andb_prop in Hid as [Hid H4]. apply andb_prop in Hid as [Hid H3].
  apply andb_prop in Hid as [H1 H2].
  apply Nat.eqb_eq in H1. apply bool_decide_eq_true in H2, H3, H4.
  split; [done|]. split; [done|]. split; [done|]. split; [done|].
  intros year' month' Hyear' Hmonth' Heq.
  pose proof (Hall year' month' Hyear' Hmonth') as Hid'. rewrite Heq in Hid'.
  unfold Spec.reads_as in Hid'.
  apply andb_prop in Hid' as [Hid' H4']. apply andb_prop in Hid' as [_ H3'].
  apply bool_decide_eq_true in H3', H4'.
  rewrite H3 in H3'. rewrite H4 in H4'. injection H3' as ->. injection H4' as H4'.
  split; [done | lia].
Qed.

(** [generateMonthYearId_format] for March 2024. *)
Lemma generateMonthYearId_format_witness :
  generateMonthYearId 2024 2 = "2024-03"
  ∧ String.length (generateMonthYearId 2024 2) = 7%nat.
Proof.
  split; [vm_compute; reflexivity|].
  apply (generateMonthYearId_format 2024 2); lia.
Defined.

(** ** Derived category ids *)

(** Lower case is stable, keeps white space what it is, and keeps the
    hyphen. *)
Lemma lower_facts (c : ascii) :
  lower (lower c) = lower c ∧ isSpace (lower c) = isSpace c.
Proof.
  destruct c as [[] [] [] [] [] [] [] []]; split; vm_compute; reflexivity.
Qed.

(** [toLowerCase] twice is [toLowerCase]. *)
Lemma toLowerCase_idempotent (s : string) : toLowerCase (toLowerCase s) = toLowerCase s.
Proof.
  induction s as [|c s IH]; simpl; [done|].
  destruct (lower_facts c) as [-> _]. by rewrite IH.
Qed.

(** Replacing white space and lower case commute. *)
Lemma toLowerCase_replace_spaces (in_run : bool) (s : string) :
  toLowerCase (replace_spaces in_run s) = replace_spaces in_run (toLowerCase s).
Proof.
  revert in_run. induction s as [|c s IH]; intros in_run; simpl; [done|].
  destruct (lower_facts c) as [_ ->].
  destruct (isSpace c); [destruct in_run|]; simpl; by rewrite ?IH.
Qed.

(** What [replace_spaces] returns has no white space. *)
Lemma replace_spaces_no_space (in_run : bool) (s : string) (c : ascii) :
  In c (list_ascii_of_string (replace_spaces in_run s)) → isSpace c = false.
Proof.
  revert in_run. induction s as [|d s IH]; intros in_run; simpl; [done|].
  destruct (isSpace d) eqn:Hd.
  - destruct in_run; simpl; [apply IH|]. intros [<-|Hin]; [reflexivity | by apply IH in Hin].
  - simpl. intros [<-|Hin]; [done | by apply IH in Hin].
Qed.

(** A string without white space is left as it is. *)
Lemma replace_spaces_none (in_run : bool) (s : string) :
  (∀ c, In c (list_ascii_of_string s) → isSpace c = false) →
  replace_spaces in_run s = s.
Proof.
  revert in_run. induction s as [|d s IH]; intros in_run Hs; simpl; [done|].
  rewrite (Hs d) by (by left). rewrite IH; [done|]. intros c Hc. apply Hs. by right.
Qed.

(** What [toLowerCase] returns is in lower case. *)
Lemma toLowerCase_lower (s : string) (c : ascii) :
  In c (list_ascii_of_string (toLowerCase s)) → lower c = c.
Proof.
  induction s as [|d s IH]; simpl; [done|].
  intros [<-|Hin]; [apply lower_facts | by apply IH].
Qed.

(** The id derived from a name is in normal form: it has no white space
    and no capital letter, deriving an id from it gives it back, and the
    name in lower case has the same id. *)
Theorem category_id_normal (name : string) :
  (∀ c, In c (list_ascii_of_string (category_id name)) →
        isSpace c = false ∧ lower c = c)
  ∧ category_id (category_id name) = category_id name
  ∧ category_id (toLowerCase name) = category_id name.
Proof.
  unfold category_id. split; [|split].
  - intros c Hc. split; [by apply replace_spaces_no_space in Hc|].
    rewrite <- toLowerCase_idempotent, <- toLowerCase_replace_spaces in Hc.
    by apply toLowerCase_lower in Hc.
  - rewrite toLowerCase_replace_spaces, toLowerCase_idempotent.
    apply replace_spaces_none. intros c. apply replace_spaces_no_space.
  - by rewrite toLowerCase_idempotent.
Qed.

(** ** The form handlers *)

(** A string of white space is trimmed to the empty string. *)
Lemma trim_blank (s : string) :
  (∀ c, In c (list_ascii_of_string s) → isSpace c = true) → trim s = EmptyString.
Proof.
  intros Hs. unfold trim.
  assert (trimStart s = EmptyString) as ->; [|done].
  induction s as [|c s IH]; simpl; [done|].
  rewrite (Hs c) by (by left). apply IH. intros d Hd. apply Hs. by right.
Qed.

(** [updateParentTotal] writes a total and nothing else: entries and
    categories are as before and the same ids have a group. *)
Lemma updateParentTotal_keeps (p : string) (s : ExpenseDB.t) :
  entries (updateParentTotal p s).1 = entries s
  ∧ categories (updateParentTotal p s).1 = categories s
  ∧ ∀ k, is_Some (getParent k (updateParentTotal p s).1) ↔ is_Some (getParent k s).
Proof.
  destruct (getParent p s) as [parent|] eqn:Hp.
  - rewrite (updateParentTotal_known p s parent Hp). cbn [fst].
    split; [done|]. split; [done|]. intros k. unfold getParent at 1.
    cbn [parents set_parents]. rewrite get_put. simpl.
    pose proof Hp as [Hid _]%get_Some. simpl in Hid. rewrite Hid.
    case_decide as Hk; [|done]. subst k. rewrite Hp. split; by eexists.
  - by rewrite (updateParentTotal_unknown p s Hp).
Qed.

(** [createEntry] for a stored group leaves no orphan. *)
Lemma createEntry_no_orphans
    (uuid : string) (now now' : Z) (parentId description : string) (amount : float)
    (category : string) (date : option Z) (s : ExpenseDB.t) :
  is_Some (getParent parentId s) →
  Spec.no_orphans s →
  Spec.no_orphans (createEntry uuid now now' parentId description amount category date s).1.
Proof.
  intros Hgroup Hs. unfold createEntry.
  set (entry := Entry.mk uuid parentId description (parseFloat amount) category _ now').
  unfold IDB.add. destruct (entries s !! IDB.key entry) eqn:Hk; [done|].
  rewrite in_handler_state.
  destruct (updateParentTotal_keeps parentId (set_entries (IDB.put entry (entries s)) s))
    as (He & _ & Hg).
  intros k e Hget. apply Hg. unfold getParent. cbn [parents set_entries].
  unfold getEntry in Hget. rewrite He in Hget. cbn [entries set_entries] in Hget.
  rewrite get_put in Hget. case_decide.
  - injection Hget as <-. exact Hgroup.
  - by apply (Hs k).
Qed.

(** [updateEntry] with the fields of the form leaves no orphan. *)
Lemma updateEntry_form_no_orphans (id description : string) (amount : float)
    (category : string) (date : Z) (s : ExpenseDB.t) :
  Spec.no_orphans s →
  Spec.no_orphans
    (updateEntry id (Updates.of_form description amount category date) s).1.
Proof.
  intros Hs. unfold updateEntry.
  destruct (IDB.get id (entries s)) as [old|] eqn:Hold; [|done].
  cbn [Updates.amount Updates.of_form].
  set (new := set_amount _ _).
  assert (Entry.parentId new = Entry.parentId old) as Hp by reflexivity.
  rewrite in_handler_state.
  destruct (updateParentTotal_keeps (Entry.parentId new)
              (set_entries (IDB.put new (entries s)) s)) as (He & _ & Hg).
  intros k e Hget. apply Hg. unfold getParent. cbn [parents set_entries].
  unfold getEntry in Hget. rewrite He in Hget. cbn [entries set_entries] in Hget.
  rewrite get_put in Hget. case_decide.
  - injection Hget as <-. rewrite Hp. by apply (Hs id).
  - by apply (Hs k).
Qed.

(** A finite number compares equal to itself. *)
Lemma SFcompare_finite_refl (negative : bool) (m : positive) (e : Z) :
  SFcompare (S754_finite negative m e) (S754_finite negative m e) = Some Eq.
Proof.
  simpl. destruct negative; rewrite Z.compare_refl; simpl;
    by rewrite ?Pos.compare_cont_refl, ?Pos.compare_refl.
Qed.

(** The test [!amount || amount <= 0] lets through the numbers that are
    greater than 0, and nothing else: not 0, not NaN. *)
Lemma amount_guard (amount : float) :
  negb (number_to_boolean amount) || PrimFloat.leb amount 0
  = negb (PrimFloat.ltb 0 amount).
Proof.
  unfold number_to_boolean, PrimFloat.is_nan.
  rewrite !eqb_spec, leb_spec, ltb_spec.
  change (Prim2SF 0) with (S754_zero false).
  destruct (Prim2SF amount) as [[|]|[|]| |[|] m e]; try reflexivity.
  - unfold SFeqb at 1. by rewrite SFcompare_finite_refl.
  - unfold SFeqb at 1. by rewrite SFcompare_finite_refl.
Qed.

(** [parseFloat] gives a number greater than 0 back. *)
Lemma parseFloat_positive (amount : float) :
  PrimFloat.ltb 0 amount = true → parseFloat amount = amount.
Proof.
  intros Hpos. apply parseFloat_number. intros ->. vm_compute in Hpos. discriminate Hpos.
Qed.

(** [createEntry] for a group that is not stored: the entry is stored and
    the promise stays pending. *)
Lemma createEntry_pending
    (uuid : string) (now now' : Z) (parentId description : string) (amount : float)
    (category : string) (date : option Z) (s : ExpenseDB.t) :
  getParent parentId s = None →
  getEntry uuid s = None →
  let entry :=
    Entry.mk uuid parentId description (parseFloat amount) category
      (match date with
       | Some d => if (d =? 0)%Z then now else d
       | None => now
       end) now' in
  createEntry uuid now now' parentId description amount category date s
  = (set_entries (IDB.put entry (entries s)) s, Pending).
Proof.
  intros Hgroup Hfree entry. unfold createEntry. fold entry.
  unfold getEntry in Hfree. apply get_None in Hfree.
  rewrite (add_Some entry) by done.
  by rewrite updateParentTotal_unknown.
Qed.

(** [updateEntry] for an entry whose group is not stored: the entry is
    changed and the promise stays pending. *)
Lemma updateEntry_pending (id description : string) (amount : float) (category : string)
    (date : Z) (s : ExpenseDB.t) (old : Entry.t) :
  getEntry id s = Some old →
  getParent (Entry.parentId old) s = None →
  let new := Entry.mk id (Entry.parentId old) description (parseFloat amount) category
               date (Entry.createdAt old) in
  updateEntry id (Updates.of_form description amount category date) s
  = (set_entries (IDB.put new (entries s)) s, Pending).
Proof.
  intros Hold Hgroup new.
  pose proof Hold as [Hid _]%get_Some. simpl in Hid.
  unfold updateEntry. unfold getEntry in Hold. rewrite Hold.
  assert (set_amount (parseFloat amount)
            (assign old (Updates.of_form description amount category date)) = new)
    as Hnew by (unfold new; by rewrite <- Hid).
  cbn [Updates.amount Updates.of_form]. rewrite Hnew.
  change (Entry.parentId new) with (Entry.parentId old).
  by rewrite updateParentTotal_unknown.
Qed.

(** [submitEntry].  With a blank description, or an amount that is not a
    number greater than 0, nothing happens.  Otherwise the handler adds an
    expense to the group shown, or edits the expense [editingEntryId].

    Adding: when the group shown is stored and the generated id is free,
    the handler resolves, the expense is stored with the trimmed
    description, the amount, the category and the date of the form, and
    the total of the group is what a recomputation gives; a generated id
    that is in use changes nothing; for a group that is not stored the
    expense is stored all the same and the handler never completes.

    Editing: for an id that is not stored nothing happens; for a stored
    expense of a stored group the handler resolves, the expense has the
    fields of the form and keeps its id, group and creation time, and the
    total of the group is what a recomputation gives; when the group of
    the expense is not stored, the expense is changed and the handler
    never completes.

    Every rejection of the database is caught.  No total is stale
    afterwards if none was before, and no entry is left without a group
    when the group shown exists. *)
Theorem submitEntry_spec
    (editingEntryId : option string) (currentGroupId : string)
    (uuid : string) (now now' : Z)
    (description_value : string) (amount : float) (category : string) (date : Z)
    (s : ExpenseDB.t) :
  let result := UI.submitEntry editingEntryId currentGroupId uuid now now'
                  description_value amount category date s in
  let description := trim description_value in
  let valid := description ≠ "" ∧ PrimFloat.ltb 0 amount = true in
  (¬ valid → result = (s, Resolved tt))
  ∧ (valid → UI.truthy editingEntryId = None →
     let entry := Entry.mk uuid currentGroupId description amount category
                    (if (date =? 0)%Z then now else date) now' in
     (is_Some (getEntry uuid s) → result = (s, Resolved tt))
     ∧ (getEntry uuid s = None →
        getEntry uuid result.1 = Some entry
        ∧ (∀ k, k ≠ uuid → getEntry k result.1 = getEntry k s)
        ∧ (∀ k, k ≠ currentGroupId → getParent k result.1 = getParent k s)
        ∧ (getParent currentGroupId s = None →
           result.2 = Pending ∧ getParent currentGroupId result.1 = None)
        ∧ ∀ group, getParent currentGroupId s = Some group →
            result.2 = Resolved tt
            ∧ getParent currentGroupId result.1
              = Some (Parent.set_totalExpenses
                        (Spec.recomputed currentGroupId result.1) group)))
  ∧ (valid → ∀ id, UI.truthy editingEntryId = Some id →
     (getEntry id s = None → result = (s, Resolved tt))
     ∧ ∀ old, getEntry id s = Some old →
         let new := Entry.mk id (Entry.parentId old) description amount category date
                      (Entry.createdAt old) in
         getEntry id result.1 = Some new
         ∧ (∀ k, k ≠ id → getEntry k result.1 = getEntry k s)
         ∧ (∀ k, k ≠ Entry.parentId old → getParent k result.1 = getParent k s)
         ∧ (getParent (Entry.parentId old) s = None →
            result.2 = Pending ∧ getParent (Entry.parentId old) result.1 = None)
         ∧ ∀ group, getParent (Entry.parentId old) s = Some group →
             result.2 = Resolved tt
             ∧ getParent (Entry.parentId old) result.1
               = Some (Parent.set_totalExpenses
                         (Spec.recomputed (Entry.parentId old) result.1) group))
  ∧ (∀ e, result.2 ≠ Rejected e)
  ∧ (Spec.totals_current s → Spec.totals_current result.1)
  ∧ (is_Some (getParent currentGroupId s) → Spec.no_orphans s → Spec.no_orphans result.1).
Proof.
  intros result description valid. unfold result, UI.submitEntry. fold description.
  rewrite <- orb_assoc, amount_guard.
  destruct (String.eqb_spec description "") as [Hblank|Hdescription]; cbn [orb].
  { split; [done|]. split; [by intros [? _]|]. split; [by intros [? _]|]. done. }
  destruct (PrimFloat.ltb 0 amount) eqn:Hpos; cbn [negb].
  2: { split; [done|]. split; [by intros [_ ?]|]. split; [by intros [_ ?]|]. done. }
  pose proof (parseFloat_positive amount Hpos) as Hparse.
  split; [intros Hnot; destruct Hnot; by split|].
  split; [|split; [|split; [|split]]].
  - intros _ ->.
    split.
    + intros [e He]. unfold getEntry in He. apply get_Some in He as [_ He].
      unfold createEntry, IDB.add. simpl. by rewrite He.
    + intros Hfree. destruct (getParent currentGroupId s) as [group|] eqn:Hgroup.
      * pose proof Hgroup as [Hgid _]%get_Some. simpl in Hgid.
        rewrite (createEntry_known uuid now now' currentGroupId description amount
                   category (Some date) s group Hgroup Hfree).
        rewrite Hparse. cbn [await catch fst snd].
        set (entry := Entry.mk uuid currentGroupId description amount category _ now').
        set (s1 := set_entries (IDB.put entry (entries s)) s).
        set (group' := Parent.set_totalExpenses (Spec.recomputed currentGroupId s1) group).
        destruct (getParent_total_written currentGroupId group' s1 Hgid)
          as [Hwritten Hothers].
        split; [exact (get_put_eq entry (entries s))|].
        split; [|split; [exact Hothers|]].
        { intros k Hk. unfold getEntry. cbn [entries set_entries set_parents s1].
          apply (get_put_ne entry). simpl. congruence. }
        split; [done|]. intros ? [= <-]. split; [done | exact Hwritten].
      * rewrite (createEntry_pending uuid now now' currentGroupId description amount
                   category (Some date) s Hgroup Hfree).
        rewrite Hparse. cbn [await catch fst snd].
        set (entry := Entry.mk uuid currentGroupId description amount category _ now').
        split; [exact (get_put_eq entry (entries s))|].
        split; [|split; [done|]].
        { intros k Hk. unfold getEntry. cbn [entries set_entries].
          apply (get_put_ne entry). simpl. congruence. }
        split; [|done]. intros _. split; [done | exact Hgroup].
  - intros _ id ->. split.
    + intros Hnone. unfold updateEntry. unfold getEntry in Hnone. by rewrite Hnone.
    + intros old Hold.
      set (new := Entry.mk id (Entry.parentId old) description amount category date
                    (Entry.createdAt old)).
      destruct (getParent (Entry.parentId old) s) as [group|] eqn:Hgroup.
      * pose proof Hgroup as [Hgid _]%get_Some. simpl in Hgid.
        rewrite (updateEntry_known id description amount category date s old group
                   Hold Hgroup).
        rewrite Hparse. fold new. cbn [await catch fst snd].
        set (s1 := set_entries (IDB.put new (entries s)) s).
        set (group' := Parent.set_totalExpenses _ group).
        destruct (getParent_total_written (Entry.parentId old) group' s1 Hgid)
          as [Hwritten Hothers].
        split; [exact (get_put_eq new (entries s))|].
        split; [|split; [exact Hothers|]].
        { intros k Hk. unfold getEntry. cbn [entries set_entries set_parents s1].
          apply (get_put_ne new). simpl. congruence. }
        split; [done|]. intros ? [= <-]. split; [done | exact Hwritten].
      * rewrite (updateEntry_pending id description amount category date s old
                   Hold Hgroup).
        rewrite Hparse. fold new. cbn [await catch fst snd].
        split; [exact (get_put_eq new (entries s))|].
        split; [|split; [done|]].
        { intros k Hk. unfold getEntry. cbn [entries set_entries].
          apply (get_put_ne new). simpl. congruence. }
        split; [|done]. intros _. split; [done | exact Hgroup].
  - intros e. destruct (UI.truthy editingEntryId) as [id|].
    + by destruct (updateEntry _ _ s) as [s' [?|?|]].
    + by destruct (createEntry _ _ _ _ _ _ _ _ s) as [s' [?|?|]].
  - intros Hs. destruct (UI.truthy editingEntryId) as [id|].
    + pose proof (updateEntry_totals id
                    (Updates.of_form description amount category date) s
                    eq_refl eq_refl Hs) as H.
      destruct (updateEntry _ _ s) as [s' [?|?|]]; exact H.
    + pose proof (createEntry_totals uuid now now' currentGroupId description
                    amount category (Some date) s Hs) as H.
      destruct (createEntry _ _ _ _ _ _ _ _ s) as [s' [?|?|]]; exact H.
  - intros Hgroup Hs. destruct (UI.truthy editingEntryId) as [id|].
    + pose proof (updateEntry_form_no_orphans id description amount
                    category date s Hs) as H.
      destruct (updateEntry _ _ s) as [s' [?|?|]]; exact H.
    + pose proof (createEntry_no_orphans uuid now now' currentGroupId
                    description amount category (Some date) s Hgroup Hs) as H.
      destruct (createEntry _ _ _ _ _ _ _ _ s) as [s' [?|?|]]; exact H.
Qed.

(** [submitEntry_spec] in the example store: a blank description, an
    amount that is not a number, a second expense, and an expense for a
    group that is not stored. *)
Lemma submitEntry_spec_witness :
  UI.submitEntry None "2024-01" "e-2" 4000 4001 "  " 3.5 "Food" 3500 Scenario.with_coffee
    = (Scenario.with_coffee, Resolved tt)
  ∧ UI.submitEntry None "2024-01" "e-2" 4000 4001 " Tea " PrimFloat.nan "Food" 3500
      Scenario.with_coffee
    = (Scenario.with_coffee, Resolved tt)
  ∧ (let result := UI.submitEntry None "2024-01" "e-2" 4000 4001 " Tea " 3.5 "Food" 3500
                     Scenario.with_coffee in
     result.2 = Resolved tt
     ∧ getEntry "e-2" result.1 = Some (Entry.mk "e-2" "2024-01" "Tea" 3.5 "Food" 3500 4001)
     ∧ Parent.totalExpenses <$> getParent "2024-01" result.1 = Some 8.5%float)
  ∧ (UI.submitEntry None "2024-07" "e-2" 4000 4001 " Tea " 3.5 "Food" 3500
       Scenario.with_coffee).2 = Pending.
Proof.
  split; [|split; [|split]].
  - destruct (submitEntry_spec None "2024-01" "e-2" 4000 4001 "  " 3.5 "Food" 3500
                Scenario.with_coffee) as [Hinvalid _].
    apply Hinvalid. intros [Hblank _]. by apply Hblank.
  - destruct (submitEntry_spec None "2024-01" "e-2" 4000 4001 " Tea " PrimFloat.nan "Food"
                3500 Scenario.with_coffee) as [Hinvalid _].
    apply Hinvalid. intros [_ Hpos]. vm_compute in Hpos. discriminate Hpos.
  - destruct (submitEntry_spec None "2024-01" "e-2" 4000 4001 " Tea " 3.5 "Food" 3500
                Scenario.with_coffee) as (_ & Hadd & _).
    destruct Hadd as [_ Hadd]; [split; [vm_compute; discriminate | vm_compute; reflexivity]
                                | reflexivity |].
    destruct Hadd as (Hstored & _ & _ & _ & Hgroup); [vm_compute; reflexivity|].
    destruct (Hgroup (Parent.mk "2024-01" "January" 1000 5)) as [Hres Htotal];
      [vm_compute; reflexivity|].
    cbv zeta. split; [exact Hres|]. split.
    + etrans; [exact Hstored|]. vm_compute. reflexivity.
    + vm_compute. reflexivity.
  - destruct (submitEntry_spec None "2024-07" "e-2" 4000 4001 " Tea " 3.5 "Food" 3500
                Scenario.with_coffee) as (_ & Hadd & _).
    destruct Hadd as [_ Hadd]; [split; [vm_compute; discriminate | vm_compute; reflexivity]
                                | reflexivity |].
    destruct Hadd as (_ & _ & _ & Hpending & _); [vm_compute; reflexivity|].
    apply Hpending. vm_compute. reflexivity.
Defined.

(** [submitParent].  With a blank name or no month nothing happens.
    Otherwise the id of the group is the month of the form, never a
    generated one: when that month has a group the store is unchanged, and
    when it has none the group is stored with the trimmed name and a total
    of 0.  A store with exact totals and without orphans stays so. *)
Theorem submitParent_spec (generated : string) (now : Z) (name_value monthYear : string)
    (s : ExpenseDB.t) :
  let result := UI.submitParent generated now name_value monthYear s in
  result.2 = Resolved tt
  ∧ (trim name_value = "" ∨ monthYear = "" ∨ is_Some (getParent monthYear s) →
     result.1 = s)
  ∧ (trim name_value ≠ "" → monthYear ≠ "" → getParent monthYear s = None →
     getParent monthYear result.1 = Some (Parent.mk monthYear (trim name_value) now 0)
     ∧ (∀ k, k ≠ monthYear → getParent k result.1 = getParent k s)
     ∧ entries result.1 = entries s
     ∧ categories result.1 = categories s)
  ∧ (Spec.totals_exact s → Spec.no_orphans s →
     Spec.totals_exact result.1 ∧ Spec.no_orphans result.1).
Proof.
  intros result. unfold result, UI.submitParent.
  destruct (String.eqb_spec (trim name_value) "") as [Hname|Hname]; cbn [orb].
  { cbn. split; [done|]. split; [done|]. split; [done|]. done. }
  destruct (String.eqb_spec monthYear "") as [Hmonth|Hmonth].
  { cbn. split; [done|]. split; [done|]. split; [done|]. done. }
  unfold createParent.
  assert ((if String.eqb monthYear "" then generated else monthYear) = monthYear) as ->.
  { apply String.eqb_neq in Hmonth. by rewrite Hmonth. }
  set (parent := Parent.mk monthYear (trim name_value) now 0).
  unfold IDB.add.
  change (IDB.key parent) with monthYear.
  destruct (parents s !! monthYear) as [row|] eqn:Hrow; cbn [await catch fst snd].
  - split; [done|]. split; [done|]. split; [|done].
    intros _ _ Hnone. unfold getParent, IDB.get in Hnone. by rewrite Hrow in Hnone.
  - split; [done|]. split; [|split].
    + intros [?|[?|[p Hp]]]; [done | done |].
      unfold getParent, IDB.get in Hp. by rewrite Hrow in Hp.
    + intros _ _ _. split; [exact (get_put_eq parent (parents s))|]. split; [|done].
      intros k Hk. unfold getParent. cbn [parents set_parents].
      apply (get_put_ne parent). simpl. congruence.
    + intros Htotals Horphans.
      assert (∀ k (e : Entry.t), getEntry k s = Some e → Entry.parentId e ≠ monthYear)
        as Hunused.
      { intros k e He Hp. destruct (Horphans k e He) as [p Hg].
        unfold getParent, IDB.get in Hg. rewrite Hp, Hrow in Hg. done. }
      split.
      * intros k p Hp. rewrite sum_of_amounts_parents.
        unfold getParent in Hp. cbn [parents set_parents] in Hp.
        rewrite get_put in Hp. case_decide as Hk.
        -- injection Hp as <-. simpl in Hk. subst k.
           rewrite (sum_of_amounts_unused monthYear s Hunused).
           split; [by eexists | reflexivity].
        -- by apply Htotals.
      * intros k e He. destruct (Horphans k e He) as [p Hp].
        unfold getParent. cbn [parents set_parents]. rewrite get_put.
        case_decide; by eexists.
Qed.

(** [submitParent_spec] in the example store: March is new, January has a
    group. *)
Lemma submitParent_spec_witness :
  getParent "2024-03" (UI.submitParent "2024-05" 5000 " March " "2024-03" Scenario.with_coffee).1
  = Some (Parent.mk "2024-03" "March" 5000 0)
  ∧ (UI.submitParent "2024-05" 5000 "Again" "2024-01" Scenario.with_coffee).1
    = Scenario.with_coffee.
Proof.
  split.
  - destruct (submitParent_spec "2024-05" 5000 " March " "2024-03" Scenario.with_coffee)
      as (_ & _ & Hnew & _).
    destruct Hnew as [Hnew _]; [vm_compute; discriminate | discriminate | vm_compute; reflexivity |].
    etrans; [exact Hnew|]. vm_compute. reflexivity.
  - destruct (submitParent_spec "2024-05" 5000 "Again" "2024-01" Scenario.with_coffee)
      as (_ & Hsame & _).
    apply Hsame. right. right. vm_compute. by eexists.
Defined.

(** [submitCategory].  The handler always resolves and leaves groups and
    entries alone; with a blank name the store is unchanged.  Whenever the
    store changes, the category of the trimmed name is stored under its
    derived id without the default flag, and [deleteCategory] of that id
    gives the store of before. *)
Theorem submitCategory_spec (now : Z) (name_value : string) (s : ExpenseDB.t) :
  let result := UI.submitCategory now name_value s in
  let name := trim name_value in
  result.2 = Resolved tt
  ∧ parents result.1 = parents s ∧ entries result.1 = entries s
  ∧ (name = "" → result.1 = s)
  ∧ (result.1 = s
     ∨ name ≠ ""
       ∧ IDB.get (category_id name) (categories result.1)
         = Some (Category.mk (category_id name) name false now)
       ∧ deleteCategory (category_id name) result.1 = (s, Resolved tt)).
Proof.
  intros result name. unfold result, UI.submitCategory. fold name.
  destruct (String.eqb_spec name "") as [Hname|Hname].
  { cbn. split; [done|]. split; [done|]. split; [done|]. split; [done | by left]. }
  unfold createCategory.
  set (category := Category.mk (category_id name) name false now).
  destruct (add_category category (categories s)) as [m|] eqn:Hadd; cbn [await catch fst snd].
  - assert (categories s !! category_id name = None) as Hfree.
    { destruct (categories s !! category_id name) eqn:E; [|done].
      rewrite add_category_taken in Hadd; [done | by eexists]. }
    assert (m = IDB.put category (categories s)) as ->.
    { unfold add_category in Hadd. destruct (existsb _ _); [done|].
      rewrite (add_Some category) in Hadd by done. by injection Hadd as <-. }
    split; [done|]. split; [done|]. split; [done|]. split; [done|].
    right. split; [done|]. cbn [categories set_categories].
    split; [exact (get_put_eq category (categories s))|].
    unfold deleteCategory. cbn [categories set_categories].
    change (category_id name) with (IDB.key category).
    rewrite (get_put_eq category (categories s)). simpl.
    unfold IDB.put. simpl. rewrite delete_insert_id by done. by destruct s.
  - split; [done|]. split; [done|]. split; [done|]. split; [done | by left].
Qed.

(** [submitCategory_spec] after [init]: a blank name, and a new name with
    spaces around it, which [deleteCategory] takes back. *)
Lemma submitCategory_spec_witness :
  (UI.submitCategory 600 "   " Scenario.seeded).1 = Scenario.seeded
  ∧ deleteCategory "pet-care" (UI.submitCategory 600 " Pet Care " Scenario.seeded).1
    = (Scenario.seeded, Resolved tt).
Proof.
  split.
  - destruct (submitCategory_spec 600 "   " Scenario.seeded) as (_ & _ & _ & Hblank & _).
    apply Hblank. vm_compute. reflexivity.
  - destruct (submitCategory_spec 600 " Pet Care " Scenario.seeded)
      as (_ & _ & _ & _ & [Hsame|(_ & _ & Hdelete)]).
    + apply (f_equal (λ s, IDB.get "pet-care" (categories s) (A:=Category.t))) in Hsame.
      vm_compute in Hsame. discriminate Hsame.
    + vm_compute in Hdelete. vm_compute. exact Hdelete.
Defined.

(** [run_totals] for a run from the store with the three small expenses:
    an expense is added to the second group, the first one is edited
    through the form and then deleted. *)
Lemma run_totals_witness :
  Spec.totals_current
    (Sequence.run
       [Sequence.CreateEntry "e-4" 4000 4001 "2024-02" "Tea" 3.3 "Food" None;
        Sequence.UpdateEntry "e-1" (Updates.of_form "Stamps" 0.7 "Bills" 3500);
        Sequence.DeleteEntry "e-1"]
       Scenario.tenths).
Proof.
  apply run_totals; [|apply tenths_current].
  repeat constructor.
Defined.
